(** * A shallow embedding of mkr_mt_lib: the concurrent containers, the
    type-erased task and the work-stealing thread pool, in a sequential
    interleaving model where each public operation is one atomic step. *)

From Stdlib Require Import ZArith Zdivisibility Lia Permutation.
From stdpp Require Import base list.

(** ** Faults of the C++ code, and a small error monad *)

Inductive future_error :=
| broken_promise
| promise_already_satisfied
| no_state.

Inductive fault :=
| null_deref              (* dereferencing an empty std::unique_ptr *)
| out_of_range            (* std::vector::operator[] past the end *)
| thrown (e : future_error).

Inductive result (A : Type) :=
| Ok (a : A)
| Fault (f : fault).
Arguments Ok {A} a.
Arguments Fault {A} f.

Definition bind_result {A B} (m : result A) (k : A -> result B) : result B :=
  match m with
  | Ok a => k a
  | Fault f => Fault f
  end.

Notation "'let*' x := m 'in' k" := (bind_result m (fun x => k))
  (at level 200, x pattern, m at level 100, k at level 200).

(** ** threadsafe_list<T> (src/src/mt/container/threadsafe_list.h)

    The list is the chain of nodes after the dummy [head_]; each node holds
    a [std::shared_ptr<T>] that [do_push_front] always fills with
    [std::make_shared], so a node is modelled by its value. *)
Module ThreadsafeList.
Section List.
Context {T : Type}.

(** [match_any]: hand-over-hand traversal, stops at the first match. *)
Definition match_any (p : T -> bool) (l : list T) : bool := existsb p l.

Definition match_none (p : T -> bool) (l : list T) : bool := negb (match_any p l).

Definition push_front (v : T) (l : list T) : list T := v :: l.

(** [remove_if(_predicate, _limit)]: [while (_limit && current->next_)];
    a removed node does not advance [current]. Returns [num_removed]. *)
Fixpoint remove_if (p : T -> bool) (limit : N) (l : list T) : nat * list T :=
  if (limit =? 0)%N then (0, l) else
  match l with
  | [] => (0, [])
  | x :: r =>
      if p x then let '(c, r') := remove_if p (limit - 1) r in (S c, r')
      else let '(c, r') := remove_if p limit r in (c, x :: r')
  end.

(** [replace_if(_predicate, _supplier, _limit)]: a matching node gets
    [std::make_shared<T>(_supplier())]; [current] always advances. *)
Fixpoint replace_if (p : T -> bool) (supplier : unit -> T) (limit : N) (l : list T)
  : nat * list T :=
  if (limit =? 0)%N then (0, l) else
  match l with
  | [] => (0, [])
  | x :: r =>
      if p x then let '(c, r') := replace_if p supplier (limit - 1) r in
                  (S c, supplier tt :: r')
      else let '(c, r') := replace_if p supplier limit r in (c, x :: r')
  end.

(** [find_first_if]: the shared pointer of the first match, or null. *)
Definition find_first_if (p : T -> bool) (l : list T) : option T := find p l.

Definition clear (l : list T) : list T := [].

(** [read_each(_consumer)]: the consumer is invoked on every value, front
    to back; what it does to the outside world is the state [s] it threads. *)
Definition read_each {S} (consumer : S -> T -> S) (l : list T) (s : S) : S :=
  fold_left consumer l s.

(** [write_each(_consumer)]: the consumer also gets the value as [T&] and
    may overwrite it. *)
Fixpoint write_each {S} (consumer : S -> T -> S * T) (l : list T) (s : S) : S * list T :=
  match l with
  | [] => (s, [])
  | x :: r =>
      let '(s1, x') := consumer s x in
      let '(s2, r') := write_each consumer r s1 in (s2, x' :: r')
  end.

(** [read_and_map_first_if]: the mapper applied to the first match. *)
Fixpoint read_and_map_first_if {R} (p : T -> bool) (mapper : T -> R) (l : list T)
  : option R :=
  match l with
  | [] => None
  | x :: r => if p x then Some (mapper x) else read_and_map_first_if p mapper r
  end.

(** [write_and_map_first_if]: the mapper takes the first match as [T&],
    so it returns the value it leaves there and its result. *)
Fixpoint write_and_map_first_if {R} (p : T -> bool) (mapper : T -> T * R) (l : list T)
  : option R * list T :=
  match l with
  | [] => (None, [])
  | x :: r =>
      if p x then let '(x', y) := mapper x in (Some y, x' :: r)
      else let '(o, r') := write_and_map_first_if p mapper r in (o, x :: r')
  end.

(** [read_and_map_if]: [read_each] with the consumer
    [if (_predicate(v)) _inserter(_mapper(v))]. *)
Definition read_and_map_if {S R} (p : T -> bool) (mapper : T -> R) (inserter : S -> R -> S)
  (l : list T) (s : S) : S :=
  read_each (fun s v => if p v then inserter s (mapper v) else s) l s.

(** [write_and_map_if]: the same on [write_each], the mapper taking [T&]. *)
Definition write_and_map_if {S R} (p : T -> bool) (mapper : T -> T * R)
  (inserter : S -> R -> S) (l : list T) (s : S) : S * list T :=
  write_each (fun s v => if p v then let '(v', y) := mapper v in (inserter s y, v') else (s, v))
    l s.

End List.
End ThreadsafeList.

(** [SIZE_MAX], the default [_limit] of [remove_if] and [replace_if]. *)
Definition SIZE_MAX : N := (2 ^ 64 - 1)%N.

(** The same [threadsafe_list<T>] with its [num_elements_] counter, which
    [do_push_front] increments and [remove_if] and [clear] decrement once
    per unlinked node. *)
Module CountedList.
Section CountedList.
Context {T : Type}.

Record threadsafe_list := mk_list {
  values : list T;
  num_elements_ : nat
}.

Definition new : threadsafe_list := mk_list [] 0.

Definition push_front (v : T) (l : threadsafe_list) : threadsafe_list :=
  mk_list (ThreadsafeList.push_front v (values l)) (S (num_elements_ l)).

Definition remove_if (p : T -> bool) (limit : N) (l : threadsafe_list) : nat * threadsafe_list :=
  let '(c, r) := ThreadsafeList.remove_if p limit (values l) in
  (c, mk_list r (num_elements_ l - c)).

Definition replace_if (p : T -> bool) (supplier : unit -> T) (limit : N) (l : threadsafe_list)
  : nat * threadsafe_list :=
  let '(c, r) := ThreadsafeList.replace_if p supplier limit (values l) in
  (c, mk_list r (num_elements_ l)).

Definition clear (l : threadsafe_list) : threadsafe_list :=
  mk_list (ThreadsafeList.clear (values l)) (num_elements_ l - length (values l)).

(** [threadsafe_list(const threadsafe_list&)]: a new list ([num_elements_]
    value-initialised to 0), then [do_copy_constructor]: [read_each] on the
    source with the consumer [this->push_front(_value)]. *)
Definition copy_construct (src : threadsafe_list) : threadsafe_list :=
  ThreadsafeList.read_each (fun acc v => push_front v acc) (values src) new.

Definition empty (l : threadsafe_list) : bool := num_elements_ l =? 0.
Definition size (l : threadsafe_list) : nat := num_elements_ l.

End CountedList.
Arguments threadsafe_list : clear implicits.
End CountedList.

(** ** threadsafe_stack<T> (src/src/container/threadsafe_stack.h)

    [top_] is the chain of nodes from the top; a node is its [value_]
    ([std::shared_ptr<T>], [None] for null). *)
Module ThreadsafeStack.
Section Stack.
Context {T : Type}.

Record threadsafe_stack := mk_stack {
  top_ : list (option T);
  num_elements_ : nat
}.

Definition new : threadsafe_stack := mk_stack [] 0.

Definition do_push (s : threadsafe_stack) (v : option T) : threadsafe_stack :=
  mk_stack (v :: top_ s) (S (num_elements_ s)).

(** [push(const T&)]: [do_push(std::make_shared<T>(_value))]. *)
Definition push (s : threadsafe_stack) (x : T) : threadsafe_stack := do_push s (Some x).

(** [do_pop] reads [top_->value_]; every caller checks [top_] first, so
    the empty branch is not reached. *)
Definition do_pop (s : threadsafe_stack) : option T * threadsafe_stack :=
  match top_ s with
  | [] => (None, s)
  | v :: rest => (v, mk_stack rest (num_elements_ s - 1))
  end.

Definition try_pop (s : threadsafe_stack) : option T * threadsafe_stack :=
  match top_ s with
  | [] => (None, s)
  | _ => do_pop s
  end.

(** [wait_and_pop]: [None] while the call waits on [cond_] for
    [top_ != nullptr]. *)
Definition wait_and_pop (s : threadsafe_stack) : option (option T * threadsafe_stack) :=
  match top_ s with
  | [] => None
  | _ => Some (do_pop s)
  end.

(** [clear]: [while (top_ != nullptr) { do_pop(); }]; [fuel] bounds the
    iterations, and [clear] gives one per node. *)
Fixpoint pop_all (fuel : nat) (s : threadsafe_stack) : threadsafe_stack :=
  match fuel with
  | O => s
  | S f => match top_ s with [] => s | _ => pop_all f (snd (do_pop s)) end
  end.

Definition clear (s : threadsafe_stack) : threadsafe_stack := pop_all (length (top_ s)) s.

Definition empty (s : threadsafe_stack) : bool := num_elements_ s =? 0.
Definition size (s : threadsafe_stack) : nat := num_elements_ s.

(** [node::copy]: a [std::make_shared<T>] of [*value_] (no null check),
    then the copy of [next_]. *)
Fixpoint copy_nodes (ns : list (option T)) : result (list (option T)) :=
  match ns with
  | [] => Ok []
  | v :: rest =>
      match v with
      | None => Fault null_deref
      | Some x => let* rest' := copy_nodes rest in Ok (Some x :: rest')
      end
  end.

(** [do_copy_construct]: the counter, then the nodes ([nullptr] for an
    empty chain). *)
Definition copy_construct (s : threadsafe_stack) : result threadsafe_stack :=
  let* top := copy_nodes (top_ s) in Ok (mk_stack top (num_elements_ s)).

End Stack.
Arguments threadsafe_stack : clear implicits.
End ThreadsafeStack.

(** ** threadsafe_queue<T> (src/unnamed/part_011)

    [nodes] is the chain from [head_] to the sentinel [tail_] (its last
    element); a node is its [value_]. [head_ == tail_] holds exactly when
    the chain has a single node. *)
Module ThreadsafeQueue.
Section Queue.
Context {T : Type}.

Record threadsafe_queue := mk_queue {
  nodes : list (option T);
  num_elements_ : nat
}.

(** The constructor makes one dummy node: [head_ == tail_]. *)
Definition new : threadsafe_queue := mk_queue [None] 0.

Definition head_is_tail (q : threadsafe_queue) : bool := (length (nodes q) <=? 1)%nat.

(** [do_push]: [tail_->value_ = _value; tail_->next_ = dummy; tail_ = dummy]. *)
Definition do_push (q : threadsafe_queue) (v : option T) : threadsafe_queue :=
  mk_queue (<[length (nodes q) - 1 := v]> (nodes q) ++ [None]) (S (num_elements_ q)).

Definition push (q : threadsafe_queue) (x : T) : threadsafe_queue := do_push q (Some x).

(** [do_pop]: unlink [head_] and return its value. *)
Definition do_pop (q : threadsafe_queue) : option T * threadsafe_queue :=
  match nodes q with
  | [] => (None, q)
  | v :: rest => (v, mk_queue rest (num_elements_ q - 1))
  end.

Definition try_pop (q : threadsafe_queue) : option T * threadsafe_queue :=
  if head_is_tail q then (None, q) else do_pop q.

(** [wait_and_pop]: [None] while the call waits on [cond_] for
    [head_ != tail_]. *)
Definition wait_and_pop (q : threadsafe_queue) : option (option T * threadsafe_queue) :=
  if head_is_tail q then None else Some (do_pop q).

(** [clear]: [while (head_.get() != tail_) { do_pop(); }]; [fuel] bounds
    the iterations, and [clear] gives one per node. *)
Fixpoint pop_all (fuel : nat) (q : threadsafe_queue) : threadsafe_queue :=
  match fuel with
  | O => q
  | S f => if head_is_tail q then q else pop_all f (snd (do_pop q))
  end.

Definition clear (q : threadsafe_queue) : threadsafe_queue := pop_all (length (nodes q)) q.

Definition empty (q : threadsafe_queue) : bool := num_elements_ q =? 0.
Definition size (q : threadsafe_queue) : nat := num_elements_ q.

(** [node::copy]: a [std::make_shared<T>] of [*value_] if [value_] is not
    null, else null; then the copy of [next_]. *)
Fixpoint copy_nodes (ns : list (option T)) : list (option T) :=
  match ns with
  | [] => []
  | v :: rest => (match v with Some x => Some x | None => None end) :: copy_nodes rest
  end.

(** [do_copy_construct]: the counter and the copied chain; [tail_] is found
    by walking to its last node. *)
Definition copy_construct (q : threadsafe_queue) : threadsafe_queue :=
  mk_queue (copy_nodes (nodes q)) (num_elements_ q).

End Queue.
Arguments threadsafe_queue : clear implicits.
End ThreadsafeQueue.

(** ** std::packaged_task, std::future and their shared states

    The shared states the futures of the pool point to live in [heap]:
    [states !! n] is the state of the [n]-th [std::packaged_task] made by
    [submit]. [invoked] is a ghost log: the shared-state index of each
    callable, appended every time that callable is invoked. *)
Inductive shared_state :=
| st_unset
| st_value (v : Z)
| st_error (e : future_error).

Record heap := mk_heap {
  states : list shared_state;
  invoked : list nat
}.

(** A [std::packaged_task<result_t(void)>]: its shared state and the
    lambda [[func, ...args]() { return std::invoke(func, args...); }]. *)
Record packaged_task := mk_packaged_task {
  pt_state : nat;
  pt_fn : unit -> Z
}.

(** [packaged_task::operator()]: invokes the stored callable and makes
    the shared state ready; a satisfied state throws
    [promise_already_satisfied] without invoking anything. *)
Definition packaged_task_call (f : packaged_task) (h : heap) : result heap :=
  match states h !! pt_state f with
  | Some st_unset =>
      Ok (mk_heap (<[pt_state f := st_value (pt_fn f tt)]> (states h))
                  (invoked h ++ [pt_state f]))
  | Some _ => Fault (thrown promise_already_satisfied)
  | None => Fault (thrown no_state)
  end.

(** [~packaged_task]: an unsatisfied shared state is abandoned, which
    stores a [future_error(broken_promise)]. *)
Definition packaged_task_drop (f : packaged_task) (h : heap) : heap :=
  match states h !! pt_state f with
  | Some st_unset => mk_heap (<[pt_state f := st_error broken_promise]> (states h)) (invoked h)
  | _ => h
  end.

(** A [std::future<result_t>]: the index of its shared state. *)
Record future := mk_future { fut_state : nat }.

Inductive take_result :=
| Taken (v : Z)
| Raised (e : future_error)
| Blocks.

(** [std::future::get]: the value, the stored error rethrown, or waiting. *)
Definition take (fut : future) (h : heap) : take_result :=
  match states h !! fut_state fut with
  | Some (st_value v) => Taken v
  | Some (st_error e) => Raised e
  | Some st_unset => Blocks
  | None => Raised no_state
  end.

(** ** task (src/unnamed/part_013)

    [templated_wrapper<Callable>] as it is instantiated by the pool, with
    [Callable = std::packaged_task<result_t(void)>]; [function_ptr_] is a
    [std::unique_ptr<wrapper_interface>], [None] when null. *)
Module Task.

Inductive wrapper_interface :=
| templated_wrapper (func_ : packaged_task).

Record task := mk_task { function_ptr_ : option wrapper_interface }.

(** [explicit task(Callable&& _func)]: [std::make_unique<templated_wrapper>]. *)
Definition new (f : packaged_task) : task := mk_task (Some (templated_wrapper f)).

(** [templated_wrapper::operator()]: [std::invoke(func_)]. *)
Definition wrapper_call (w : wrapper_interface) (h : heap) : result heap :=
  match w with templated_wrapper f => packaged_task_call f h end.

(** [task::operator()]: [function_ptr_->operator()()]. *)
Definition call (t : task) (h : heap) : result heap :=
  match function_ptr_ t with
  | None => Fault null_deref
  | Some w => wrapper_call w h
  end.

(** [task(task&& _task)]: [function_ptr_ = std::move(_task.function_ptr_)];
    returns the new task and the moved-from one. *)
Definition move_construct (src : task) : task * task :=
  (mk_task (function_ptr_ src), mk_task None).

(** [task& operator=(task&& _task)] on two distinct tasks: the target's old
    wrapper is destroyed, the source's pointer is moved. Returns the
    assigned target, the moved-from source and the dropped wrapper. *)
Definition move_assign (dst src : task) : task * task * option wrapper_interface :=
  (mk_task (function_ptr_ src), mk_task None, function_ptr_ dst).

(** [~task]: destroys the wrapper, and with it the packaged task. *)
Definition drop (t : task) (h : heap) : heap :=
  match function_ptr_ t with
  | None => h
  | Some (templated_wrapper f) => packaged_task_drop f h
  end.

End Task.

(** ** threadsafe_hashtable<K, V, N> (src/unnamed/part_002, src/unnamed/part_006)

    [buckets_] is the array [bucket buckets_[N]]; each bucket is the
    [threadsafe_list<pair>] of its pairs; a pair's [value_] is a
    [std::shared_ptr<V>] ([None] for null). [num_elements_] is the
    [std::atomic_size_t] counter; every pair it counts is a live
    allocation, so it is kept as a [nat]. *)
Module Hashtable.
Section Hashtable.
Context {K V : Type} `{EqDecision K}.
(** [std::hash<K>] *)
Variable hash : K -> nat.
(** The template parameter [N] (the bucket count). *)
Variable N : nat.

Record pair := mk_pair { key_ : K; value_ : option V }.

Record threadsafe_hashtable := mk_table {
  buckets_ : list (list pair);
  num_elements_ : nat
}.

(** [threadsafe_hashtable()]: [N] empty buckets, no element. *)
Definition new : threadsafe_hashtable := mk_table (repeat [] N) 0.

(** [get_bucket]: [buckets_[hash % N]]. *)
Definition bucket_index (k : K) : nat := hash k mod N.

Definition get_bucket (t : threadsafe_hashtable) (k : K) : list pair :=
  default [] (buckets_ t !! bucket_index k).

Definition set_bucket (t : threadsafe_hashtable) (k : K) (b : list pair) (n : nat)
  : threadsafe_hashtable :=
  mk_table (<[bucket_index k := b]> (buckets_ t)) n.

(** [match_key]: [_pair.match_key(key_)], i.e. [key_ == _key]. *)
Definition match_key (k : K) (pr : pair) : bool := bool_decide (key_ pr = k).

(** [pair_supplier]: [pair(key_, value_)]. *)
Definition pair_supplier (k : K) (v : option V) : unit -> pair := fun _ => mk_pair k v.

Definition do_insert (k : K) (v : option V) (t : threadsafe_hashtable)
  : bool * threadsafe_hashtable :=
  let b := get_bucket t k in
  if ThreadsafeList.match_none (match_key k) b
  then (true, set_bucket t k (ThreadsafeList.push_front (mk_pair k v) b) (S (num_elements_ t)))
  else (false, t).

(** [do_replace] returns [replace_if(...)] converted to [bool]. *)
Definition do_replace (k : K) (v : option V) (t : threadsafe_hashtable)
  : bool * threadsafe_hashtable :=
  let '(c, b') := ThreadsafeList.replace_if (match_key k) (pair_supplier k v) SIZE_MAX
                    (get_bucket t k) in
  (negb (c =? 0), set_bucket t k b' (num_elements_ t)).

Definition do_insert_or_replace (k : K) (v : option V) (t : threadsafe_hashtable)
  : bool * threadsafe_hashtable :=
  let '(c, b') := ThreadsafeList.replace_if (match_key k) (pair_supplier k v) SIZE_MAX
                    (get_bucket t k) in
  if c =? 0
  then (true, set_bucket t k (ThreadsafeList.push_front (mk_pair k v) b') (S (num_elements_ t)))
  else (true, set_bucket t k b' (num_elements_ t)).

(** The public overloads wrap the value in [std::make_shared<V>]. *)
Definition insert (k : K) (v : V) t := do_insert k (Some v) t.
Definition replace (k : K) (v : V) t := do_replace k (Some v) t.
Definition insert_or_replace (k : K) (v : V) t := do_insert_or_replace k (Some v) t.

Definition remove (k : K) (t : threadsafe_hashtable) : bool * threadsafe_hashtable :=
  let '(c, b') := ThreadsafeList.remove_if (match_key k) SIZE_MAX (get_bucket t k) in
  if negb (c =? 0)
  then (true, set_bucket t k b' (num_elements_ t - 1))
  else (false, set_bucket t k b' (num_elements_ t)).

Definition get (k : K) (t : threadsafe_hashtable) : option V :=
  match ThreadsafeList.find_first_if (match_key k) (get_bucket t k) with
  | Some pr => value_ pr
  | None => None
  end.

(** [get_or_insert]: optimistic [get], then a second look under the
    writer lock, then [std::make_shared<V>(_supplier())]. *)
Definition get_or_insert (k : K) (supplier : unit -> V) (t : threadsafe_hashtable)
  : option V * threadsafe_hashtable :=
  match get k t with
  | Some v => (Some v, t)
  | None =>
      match ThreadsafeList.find_first_if (match_key k) (get_bucket t k) with
      | Some pr => (value_ pr, t)
      | None =>
          let nv := Some (supplier tt) in
          (nv, set_bucket t k (ThreadsafeList.push_front (mk_pair k nv) (get_bucket t k))
                 (S (num_elements_ t)))
      end
  end.

Definition has (k : K) (t : threadsafe_hashtable) : bool :=
  ThreadsafeList.match_any (match_key k) (get_bucket t k).

Definition clear (t : threadsafe_hashtable) : threadsafe_hashtable :=
  mk_table (map ThreadsafeList.clear (buckets_ t)) 0.

Definition size (t : threadsafe_hashtable) : nat := num_elements_ t.

(** The mutating operations of the map, for sequences of calls. *)
Inductive operation :=
| op_insert (k : K) (v : V)
| op_replace (k : K) (v : V)
| op_insert_or_replace (k : K) (v : V)
| op_remove (k : K)
| op_get_or_insert (k : K) (supplier : unit -> V)
| op_clear.

Definition apply_op (t : threadsafe_hashtable) (o : operation) : threadsafe_hashtable :=
  match o with
  | op_insert k v => snd (insert k v t)
  | op_replace k v => snd (replace k v t)
  | op_insert_or_replace k v => snd (insert_or_replace k v t)
  | op_remove k => snd (remove k t)
  | op_get_or_insert k s => snd (get_or_insert k s t)
  | op_clear => clear t
  end.

Definition run_ops (t : threadsafe_hashtable) (os : list operation) : threadsafe_hashtable :=
  fold_left apply_op os t.

(** The key an operation is called with ([clear] has none). *)
Definition op_key (o : operation) : option K :=
  match o with
  | op_insert k _ | op_replace k _ | op_insert_or_replace k _
  | op_remove k | op_get_or_insert k _ => Some k
  | op_clear => None
  end.

(** The pairs of the map, bucket after bucket, and their keys. *)
Definition all_pairs (t : threadsafe_hashtable) : list pair := concat (buckets_ t).
Definition all_keys (t : threadsafe_hashtable) : list K := map key_ (all_pairs t).

Definition empty (t : threadsafe_hashtable) : bool := num_elements_ t =? 0.

(** [read_and_map]: the mapper on [*p->get_value()] of the pair
    [find_first_if] returns, or [std::nullopt]. *)
Definition read_and_map {R} (k : K) (mapper : V -> R) (t : threadsafe_hashtable)
  : result (option R) :=
  match ThreadsafeList.find_first_if (match_key k) (get_bucket t k) with
  | None => Ok None
  | Some pr =>
      match value_ pr with
      | None => Fault null_deref
      | Some v => Ok (Some (mapper v))
      end
  end.

(** The first pair of [b] with key [k], its value overwritten with [v]. *)
Fixpoint set_first_value (k : K) (v : V) (b : list pair) : list pair :=
  match b with
  | [] => []
  | pr :: r => if match_key k pr then mk_pair (key_ pr) (Some v) :: r
               else pr :: set_first_value k v r
  end.

(** [write_and_map]: as [read_and_map], but the mapper takes [V&]: it
    returns the value it leaves in the pair [find_first_if] found, and its
    result. *)
Definition write_and_map {R} (k : K) (mapper : V -> V * R) (t : threadsafe_hashtable)
  : result (option R * threadsafe_hashtable) :=
  match ThreadsafeList.find_first_if (match_key k) (get_bucket t k) with
  | None => Ok (None, t)
  | Some pr =>
      match value_ pr with
      | None => Fault null_deref
      | Some v =>
          let '(v', r) := mapper v in
          Ok (Some r, set_bucket t k (set_first_value k v' (get_bucket t k)) (num_elements_ t))
      end
  end.

(** [do_copy_construct] of the [mt/container] version: [read_each] visits
    the buckets [0 .. N-1] in order and each bucket front to back, and its
    consumer calls [insert] with the pair's key and [*get_value()]. *)
Fixpoint insert_all (ps : list pair) (t : threadsafe_hashtable) : result threadsafe_hashtable :=
  match ps with
  | [] => Ok t
  | pr :: ps' =>
      match value_ pr with
      | None => Fault null_deref
      | Some v => insert_all ps' (snd (insert (key_ pr) v t))
      end
  end.

Definition copy_construct (src : threadsafe_hashtable) : result threadsafe_hashtable :=
  insert_all (all_pairs src) new.

(** The result of a call, without the map it leaves. *)
Definition outcome {A} (x : result (A * threadsafe_hashtable)) : result A :=
  match x with
  | Ok (a, _) => Ok a
  | Fault e => Fault e
  end.

(** A call [f] on key [k] (its result and the map it leaves) touches only
    bucket [hash(k) mod N]: it keeps the number of buckets, writes no other
    bucket, and its result and the bucket [hash(k) mod N] it leaves depend
    only on that bucket of the map it is given. The element counter
    [num_elements_] is not a bucket. *)
Definition bucket_local {A} (k : K)
  (f : threadsafe_hashtable -> result (A * threadsafe_hashtable)) : Prop :=
  (forall t a t', f t = Ok (a, t') ->
     length (buckets_ t') = length (buckets_ t) /\
     forall i, i <> bucket_index k -> buckets_ t' !! i = buckets_ t !! i) /\
  (forall t1 t2, buckets_ t1 !! bucket_index k = buckets_ t2 !! bucket_index k ->
     outcome (f t1) = outcome (f t2) /\
     forall a1 t1' a2 t2', f t1 = Ok (a1, t1') -> f t2 = Ok (a2, t2') ->
       buckets_ t1' !! bucket_index k = buckets_ t2' !! bucket_index k).

End Hashtable.
Arguments pair : clear implicits.
Arguments threadsafe_hashtable : clear implicits.
Arguments operation : clear implicits.
End Hashtable.

(** The default bucket count [N] of the two versions of the map:
    [src/unnamed/part_002] ([mt/container], [N = 61]) and
    [src/unnamed/part_006] ([container], included by the pool, [N = 47]). *)
Definition default_N_mt_container : nat := 61.
Definition default_N_container : nat := 47.

(** ** thread_pool (src/src/thread_pool/thread_pool.h, src/unnamed/part_001)

    A thread is named by its [std::thread::id], a [nat]. The shared states
    of the futures handed out by [submit] are the pool's [futures_] heap:
    they are owned by the futures and the tasks, and outlive the pool. *)
Module ThreadPool.
Section ThreadPool.
(** [std::hash<std::thread::id>], implementation-defined. *)
Variable tid_hash : nat -> nat.

Record worker_thread := mk_worker_thread {
  thread_id : nat;
  joinable : bool
}.

Record thread_pool := mk_pool {
  num_threads_ : nat;
  start_flag_ : nat;
  end_flag_ : bool;
  worker_index_lookup_ : Hashtable.threadsafe_hashtable nat nat;
  global_task_queue_ : ThreadsafeQueue.threadsafe_queue Task.task;
  local_task_queues_ : list (ThreadsafeStack.threadsafe_stack Task.task);
  worker_threads_ : list worker_thread;
  futures_ : heap
}.

(** Modelled from the spec: the member [at] of [threadsafe_hashtable] that
    [thread_pool] calls on [worker_index_lookup_] is not in the repository's
    files; the spec describes it as the lookup of the worker map, "the
    calling thread is a worker (its identity is in the worker map)", so it
    is the map's [get]: the stored index, or null ([at] is a keyword of
    Rocq, hence [at_]). *)
Definition at_ (t : Hashtable.threadsafe_hashtable nat nat) (tid : nat) : option nat :=
  Hashtable.get tid_hash default_N_container tid t.

Definition set_locals (p : thread_pool) ls : thread_pool :=
  mk_pool (num_threads_ p) (start_flag_ p) (end_flag_ p) (worker_index_lookup_ p)
          (global_task_queue_ p) ls (worker_threads_ p) (futures_ p).
Definition set_global (p : thread_pool) q : thread_pool :=
  mk_pool (num_threads_ p) (start_flag_ p) (end_flag_ p) (worker_index_lookup_ p)
          q (local_task_queues_ p) (worker_threads_ p) (futures_ p).
Definition set_futures (p : thread_pool) h : thread_pool :=
  mk_pool (num_threads_ p) (start_flag_ p) (end_flag_ p) (worker_index_lookup_ p)
          (global_task_queue_ p) (local_task_queues_ p) (worker_threads_ p) h.

(** [thread_pool(_num_threads)]: [num_threads_ = max(_num_threads, 1)];
    for each [i], an empty local stack, a spawned thread ([tids] are the
    ids the OS gives the spawned threads, in order) and the entry
    [id -> i] in the lookup; then the start gate is opened. *)
Definition new (n : nat) (tids : list nat) : thread_pool :=
  let w := Nat.max n 1 in
  let lookup := fold_left
      (fun t i => snd (Hashtable.insert tid_hash default_N_container (nth i tids 0) i t))
      (seq 0 w) (Hashtable.new default_N_container) in
  mk_pool w 0 false lookup ThreadsafeQueue.new (repeat ThreadsafeStack.new w)
          (map (fun i => mk_worker_thread (nth i tids 0) true) (seq 0 w))
          (mk_heap [] []).

(** [local_task_queues_[_index]->try_pop()]. *)
Definition get_local_task (p : thread_pool) (index : nat)
  : result (option Task.task * thread_pool) :=
  match local_task_queues_ p !! index with
  | None => Fault out_of_range
  | Some s =>
      let '(r, s') := ThreadsafeStack.try_pop s in
      Ok (r, set_locals p (<[index := s']> (local_task_queues_ p)))
  end.

Definition get_global_task (p : thread_pool) : option Task.task * thread_pool :=
  let '(r, q') := ThreadsafeQueue.try_pop (global_task_queue_ p) in
  (r, set_global p q').

(** [steal_task]: [for (size_t i = 1; i<num_threads_; ++i)] try
    [local_task_queues_[(_index+i)%num_threads_]]; [k] counts the
    iterations left. *)
Fixpoint steal_from (p : thread_pool) (index i k : nat)
  : result (option Task.task * thread_pool) :=
  match k with
  | O => Ok (None, p)
  | S k' =>
      let* (r, p1) := get_local_task p ((index + i) mod num_threads_ p) in
      match r with
      | Some t => Ok (Some t, p1)
      | None => steal_from p1 index (S i) k'
      end
  end.

Definition steal_task (p : thread_pool) (index : nat) : result (option Task.task * thread_pool) :=
  steal_from p index 1 (num_threads_ p - 1).

(** Running a task popped from a container: [task->operator()()]. *)
Definition run_popped (r : option Task.task) (p : thread_pool) : result (bool * thread_pool) :=
  match r with
  | Some t => let* h := Task.call t (futures_ p) in Ok (true, set_futures p h)
  | None => Ok (false, p)
  end.

Definition run_local_task (p : thread_pool) (index : nat) : result (bool * thread_pool) :=
  let* (r, p1) := get_local_task p index in run_popped r p1.

Definition run_global_task (p : thread_pool) : result (bool * thread_pool) :=
  let '(r, p1) := get_global_task p in run_popped r p1.

Definition run_stolen_task (p : thread_pool) (index : nat) : result (bool * thread_pool) :=
  let* (r, p1) := steal_task p index in run_popped r p1.

(** [a || b || c] on the [run_*_task] calls, each threaded through the state. *)
Definition or_else (m : result (bool * thread_pool)) (k : thread_pool -> result (bool * thread_pool))
  : result (bool * thread_pool) :=
  let* (b, p1) := m in if b then Ok (true, p1) else k p1.

(** [run_pending_task] called from the thread [tid]. *)
Definition run_pending_task (p : thread_pool) (tid : nat) : result (bool * thread_pool) :=
  match at_ (worker_index_lookup_ p) tid with
  | Some i =>
      or_else (run_local_task p i) (fun p1 =>
      or_else (run_global_task p1) (fun p2 => run_stolen_task p2 i))
  | None =>
      or_else (run_global_task p) (fun p1 => run_stolen_task p1 0)
  end.

(** One iteration of the loop of [worker_thread_func] for the worker of
    index [index], entered when [end_flag_] reads false; the yield of the
    idle path changes no state. *)
Definition worker_iteration (p : thread_pool) (index : nat) : result thread_pool :=
  let* (_, p1) := or_else (run_local_task p index) (fun p1 =>
                   or_else (run_global_task p1) (fun p2 => run_stolen_task p2 index)) in
  Ok p1.

(** [submit(_func, _args...)] called from the thread [tid]; the callable
    applied to its bound arguments is [C args]. The new packaged task's
    shared state is the next free one of the heap. *)
Definition submit (p : thread_pool) (tid : nat) (C : list Z -> Z) (args : list Z)
  : result (future * thread_pool) :=
  let n := length (states (futures_ p)) in
  let p_task := mk_packaged_task n (fun _ => C args) in
  let result := mk_future n in
  let p0 := set_futures p (mk_heap (states (futures_ p) ++ [st_unset]) (invoked (futures_ p))) in
  match at_ (worker_index_lookup_ p0) tid with
  | Some i =>
      match local_task_queues_ p0 !! i with
      | None => Fault out_of_range
      | Some s => Ok (result, set_locals p0 (<[i := ThreadsafeStack.push s (Task.new p_task)]>
                                             (local_task_queues_ p0)))
      end
  | None => Ok (result, set_global p0 (ThreadsafeQueue.push (global_task_queue_ p0) (Task.new p_task)))
  end.

(** Dropping the tasks held by a container's nodes. *)
Definition drop_values (vs : list (option Task.task)) (h : heap) : heap :=
  fold_left (fun h v => match v with Some t => Task.drop t h | None => h end) vs h.

(** [~thread_pool]: [end_flag_ = true], every worker joined; then the
    members are destroyed, [local_task_queues_] before
    [global_task_queue_], dropping the tasks they still hold. Returns the
    pool as the destructor body leaves it and the heap of shared states. *)
Definition destroy (p : thread_pool) : thread_pool * heap :=
  let p1 := mk_pool (num_threads_ p) (start_flag_ p) true (worker_index_lookup_ p)
                    (global_task_queue_ p) (local_task_queues_ p)
                    (map (fun w => mk_worker_thread (thread_id w) false) (worker_threads_ p))
                    (futures_ p) in
  let h1 := fold_left (fun h s => drop_values (ThreadsafeStack.top_ s) h)
                      (local_task_queues_ p1) (futures_ p1) in
  (p1, drop_values (ThreadsafeQueue.nodes (global_task_queue_ p1)) h1).

(** The steps of the pool between two observations: a submission, a
    [run_pending_task] call or one worker iteration, from any thread. *)
Inductive pool_step : thread_pool -> thread_pool -> Prop :=
| step_submit p tid C args fut p' :
    submit p tid C args = Ok (fut, p') -> pool_step p p'
| step_run_pending p tid b p' :
    run_pending_task p tid = Ok (b, p') -> pool_step p p'
| step_worker p index p' :
    end_flag_ p = false -> worker_iteration p index = Ok p' -> pool_step p p'.

Inductive pool_steps : thread_pool -> thread_pool -> Prop :=
| steps_refl p : pool_steps p p
| steps_cons p1 p2 p3 : pool_step p1 p2 -> pool_steps p2 p3 -> pool_steps p1 p3.

(** The tasks held by the pool's containers, the packaged tasks they
    wrap, and the shared states of those. *)
Definition queued_values (p : thread_pool) : list (option Task.task) :=
  ThreadsafeQueue.nodes (global_task_queue_ p) ++
  concat (map ThreadsafeStack.top_ (local_task_queues_ p)).

Definition task_packaged (v : option Task.task) : list packaged_task :=
  match v with
  | Some (Task.mk_task (Some (Task.templated_wrapper f))) => [f]
  | _ => []
  end.

Definition queued_tasks (p : thread_pool) : list packaged_task :=
  concat (map task_packaged (queued_values p)).

Definition queued_states (p : thread_pool) : list nat := map pt_state (queued_tasks p).

(** The chain of the global queue ends in the dummy node [tail_] points to. *)
Definition queue_ok (p : thread_pool) : Prop :=
  exists init, ThreadsafeQueue.nodes (global_task_queue_ p) = init ++ [None].

(** The global queue has its dummy tail node, and every shared state the
    pool refers to exists. *)
Definition pool_wf (p : thread_pool) : Prop :=
  queue_ok p /\
  Forall (fun m => m < length (states (futures_ p))) (queued_states p) /\
  Forall (fun m => m < length (states (futures_ p))) (invoked (futures_ p)).

End ThreadPool.
End ThreadPool.

(** ** Sequences of container calls from one thread *)
Section Sequences.
Context {T : Type}.

Definition stack_push_all (s : ThreadsafeStack.threadsafe_stack T) (xs : list T) :=
  fold_left ThreadsafeStack.push xs s.

Fixpoint stack_pop_n (n : nat) (s : ThreadsafeStack.threadsafe_stack T)
  : list (option T) * ThreadsafeStack.threadsafe_stack T :=
  match n with
  | O => ([], s)
  | S n' =>
      let '(r, s1) := ThreadsafeStack.try_pop s in
      let '(rs, s2) := stack_pop_n n' s1 in (r :: rs, s2)
  end.

Definition queue_push_all (q : ThreadsafeQueue.threadsafe_queue T) (xs : list T) :=
  fold_left ThreadsafeQueue.push xs q.

Fixpoint queue_pop_n (n : nat) (q : ThreadsafeQueue.threadsafe_queue T)
  : list (option T) * ThreadsafeQueue.threadsafe_queue T :=
  match n with
  | O => ([], q)
  | S n' =>
      let '(r, q1) := ThreadsafeQueue.try_pop q in
      let '(rs, q2) := queue_pop_n n' q1 in (r :: rs, q2)
  end.

End Sequences.

(** Tasks that were never moved from: made by the constructor, or the
    target of a move construction or a move assignment from such a task. *)
Inductive not_moved_from : Task.task -> Prop :=
| nmf_new f : not_moved_from (Task.new f)
| nmf_move_construct t : not_moved_from t -> not_moved_from (fst (Task.move_construct t))
| nmf_move_assign dst t : not_moved_from t -> not_moved_from (fst (fst (Task.move_assign dst t))).

(** ** The invariant of the hash map *)
Section HashtableInv.
Context {K V : Type}.
Variable hash : K -> nat.
Variable N : nat.

(** Bucket [i] holds only keys of index [i], each once, each with a value. *)
Definition bucket_ok (i : nat) (b : list (Hashtable.pair K V)) : Prop :=
  Forall (fun pr => Hashtable.bucket_index hash N (Hashtable.key_ pr) = i) b /\
  NoDup (map Hashtable.key_ b) /\
  Forall (fun pr => Hashtable.value_ pr <> None) b.

(** [N] buckets, each [bucket_ok], and [num_elements_] counts their pairs. *)
Definition ht_inv (t : Hashtable.threadsafe_hashtable K V) : Prop :=
  length (Hashtable.buckets_ t) = N /\
  (forall i b, Hashtable.buckets_ t !! i = Some b -> bucket_ok i b) /\
  Hashtable.num_elements_ t = length (concat (Hashtable.buckets_ t)).

End HashtableInv.

(** ** The life of the tasks of the pool *)

Abbreviation qtasks := ThreadPool.queued_tasks.

(** [p] becomes [p'] by taking at most one task out of the containers:
    either no task is taken and the heap is unchanged, or the packaged task
    [f] is taken and invoked. *)
Definition ran (p p' : ThreadPool.thread_pool) : Prop :=
  (Permutation (qtasks p) (qtasks p') /\ ThreadPool.futures_ p' = ThreadPool.futures_ p) \/
  exists f, Permutation (qtasks p) (f :: qtasks p') /\
            packaged_task_call f (ThreadPool.futures_ p) = Ok (ThreadPool.futures_ p').

(** What a [run_*_task] call may do; [false] means nothing was run. *)
Definition runs_ok (p : ThreadPool.thread_pool) (m : result (bool * ThreadPool.thread_pool))
  : Prop :=
  forall b p', m = Ok (b, p') ->
    ThreadPool.queue_ok p' /\ ran p p' /\
    (b = false -> Permutation (qtasks p) (qtasks p') /\
                  ThreadPool.futures_ p' = ThreadPool.futures_ p).

(** A pop from a container: the popped node [r] leaves the containers. *)
Definition pops (p : ThreadPool.thread_pool) (r : option Task.task) (p1 : ThreadPool.thread_pool)
  : Prop :=
  Permutation (qtasks p) (ThreadPool.task_packaged r ++ qtasks p1) /\
  ThreadPool.futures_ p1 = ThreadPool.futures_ p /\ ThreadPool.queue_ok p1.

(** The shared state [n] made by submitting the callable [g]: either it is
    unset, [g] was never invoked for it and exactly one queued task, the one
    wrapping [g], refers to it; or it holds [g]'s result, [g] was invoked
    for it once, and no queued task refers to it. *)
Definition task_inv (n : nat) (g : unit -> Z) (p : ThreadPool.thread_pool) : Prop :=
  ThreadPool.queue_ok p /\
  ((states (ThreadPool.futures_ p) !! n = Some st_unset /\
    count_occ Nat.eq_dec (invoked (ThreadPool.futures_ p)) n = 0 /\
    count_occ Nat.eq_dec (ThreadPool.queued_states p) n = 1 /\
    Forall (fun f => pt_state f = n -> pt_fn f = g) (qtasks p)) \/
   (states (ThreadPool.futures_ p) !! n = Some (st_value (g tt)) /\
    count_occ Nat.eq_dec (invoked (ThreadPool.futures_ p)) n = 1 /\
    count_occ Nat.eq_dec (ThreadPool.queued_states p) n = 0)).

(** A concrete pool: two workers whose threads have ids 10 and 11, a
    callable summing its arguments, and a non-worker thread of id 99. *)
Definition tid_hash_id (n : nat) : nat := n.
Definition example_pool : ThreadPool.thread_pool := ThreadPool.new tid_hash_id 2 [10; 11].
Definition sum_args (args : list Z) : Z := fold_left Z.add args 0%Z.

(** ** The states the public operations of the containers can reach *)

Inductive list_reachable {T} : CountedList.threadsafe_list T -> Prop :=
| lr_new : list_reachable CountedList.new
| lr_push_front v l : list_reachable l -> list_reachable (CountedList.push_front v l)
| lr_remove_if p lim l : list_reachable l -> list_reachable (snd (CountedList.remove_if p lim l))
| lr_replace_if p s lim l :
    list_reachable l -> list_reachable (snd (CountedList.replace_if p s lim l))
| lr_clear l : list_reachable l -> list_reachable (CountedList.clear l)
| lr_copy l : list_reachable l -> list_reachable (CountedList.copy_construct l).

Inductive stack_reachable {T} : ThreadsafeStack.threadsafe_stack T -> Prop :=
| sr_new : stack_reachable ThreadsafeStack.new
| sr_push s x : stack_reachable s -> stack_reachable (ThreadsafeStack.push s x)
| sr_try_pop s : stack_reachable s -> stack_reachable (snd (ThreadsafeStack.try_pop s))
| sr_wait_and_pop s r s' :
    stack_reachable s -> ThreadsafeStack.wait_and_pop s = Some (r, s') -> stack_reachable s'
| sr_clear s : stack_reachable s -> stack_reachable (ThreadsafeStack.clear s)
| sr_copy s s' :
    stack_reachable s -> ThreadsafeStack.copy_construct s = Ok s' -> stack_reachable s'.

Inductive queue_reachable {T} : ThreadsafeQueue.threadsafe_queue T -> Prop :=
| qr_new : queue_reachable ThreadsafeQueue.new
| qr_push q x : queue_reachable q -> queue_reachable (ThreadsafeQueue.push q x)
| qr_try_pop q : queue_reachable q -> queue_reachable (snd (ThreadsafeQueue.try_pop q))
| qr_wait_and_pop q r q' :
    queue_reachable q -> ThreadsafeQueue.wait_and_pop q = Some (r, q') -> queue_reachable q'
| qr_clear q : queue_reachable q -> queue_reachable (ThreadsafeQueue.clear q)
| qr_copy q : queue_reachable q -> queue_reachable (ThreadsafeQueue.copy_construct q).

(** * Properties *)

(** ** Stack and queue round trips *)

Lemma stack_push_all_top {T} (xs : list T) (s : ThreadsafeStack.threadsafe_stack T) :
  ThreadsafeStack.top_ (stack_push_all s xs) = map Some (rev xs) ++ ThreadsafeStack.top_ s.
Proof.
  revert s. induction xs as [|x xs IH]; intros s; [reflexivity|].
  unfold stack_push_all in *. simpl. rewrite IH. simpl.
  rewrite map_app, <- app_assoc. reflexivity.
Qed.

Lemma stack_pop_n_top {T} (vs : list T) (s : ThreadsafeStack.threadsafe_stack T) rest :
  ThreadsafeStack.top_ s = map Some vs ++ rest ->
  fst (stack_pop_n (length vs) s) = map Some vs /\
  ThreadsafeStack.top_ (snd (stack_pop_n (length vs) s)) = rest.
Proof.
  revert s. induction vs as [|v vs IH]; intros s Hs; [split; [reflexivity|exact Hs]|].
  destruct s as [top n]. simpl in Hs. subst top. simpl.
  destruct (stack_pop_n (length vs) (ThreadsafeStack.mk_stack (map Some vs ++ rest) (n - 1)))
    as [rs s2] eqn:E.
  destruct (IH (ThreadsafeStack.mk_stack (map Some vs ++ rest) (n - 1)) eq_refl) as [H1 H2].
  rewrite E in H1, H2. simpl in *. subst. split; auto.
Qed.

Lemma queue_push_insert {T} (ys : list T) (v : option T) :
  <[length (map Some ys ++ [None]) - 1 := v]> (map Some ys ++ [None]) = map Some ys ++ [v].
Proof.
  rewrite length_app, length_map. simpl. rewrite Nat.add_sub.
  induction ys as [|y ys IH]; [reflexivity|]. simpl. rewrite IH. reflexivity.
Qed.

Lemma queue_push_all_nodes {T} (xs ys : list T) (q : ThreadsafeQueue.threadsafe_queue T) :
  ThreadsafeQueue.nodes q = map Some ys ++ [None] ->
  ThreadsafeQueue.nodes (queue_push_all q xs) = map Some (ys ++ xs) ++ [None].
Proof.
  revert ys q. induction xs as [|x xs IH]; intros ys q Hq.
  - rewrite app_nil_r. exact Hq.
  - unfold queue_push_all. simpl. unfold queue_push_all in IH.
    replace (ys ++ x :: xs) with ((ys ++ [x]) ++ xs) by (rewrite <- app_assoc; reflexivity).
    apply IH. unfold ThreadsafeQueue.push, ThreadsafeQueue.do_push. simpl.
    rewrite Hq, queue_push_insert, map_app. simpl. rewrite <- app_assoc. reflexivity.
Qed.

Lemma queue_pop_n_nodes {T} (vs : list T) (q : ThreadsafeQueue.threadsafe_queue T) :
  ThreadsafeQueue.nodes q = map Some vs ++ [None] ->
  fst (queue_pop_n (length vs) q) = map Some vs /\
  ThreadsafeQueue.nodes (snd (queue_pop_n (length vs) q)) = [None].
Proof.
  revert q. induction vs as [|v vs IH]; intros q Hq; [split; [reflexivity|exact Hq]|].
  destruct q as [nds n]. simpl in Hq. subst nds.
  simpl. unfold ThreadsafeQueue.try_pop, ThreadsafeQueue.head_is_tail. simpl.
  rewrite length_app, length_map. simpl.
  replace (length vs + 1 <=? 0)%nat with false by (symmetry; apply Nat.leb_gt; lia).
  simpl.
  destruct (queue_pop_n (length vs) (ThreadsafeQueue.mk_queue (map Some vs ++ [None]) (n - 1)))
    as [rs q2] eqn:E.
  destruct (IH (ThreadsafeQueue.mk_queue (map Some vs ++ [None]) (n - 1)) eq_refl) as [H1 H2].
  rewrite E in H1, H2. simpl in *. subst. split; auto.
Qed.

(** C7: pushing [x1 .. xn] onto a new [threadsafe_queue] and then calling
    [try_pop] [n] times pops [x1 .. xn] in the same order; [try_pop] on a
    queue whose [head_] is its [tail_] returns null. *)
Theorem queue_fifo_round_trip {T} (xs : list T) :
  fst (queue_pop_n (length xs) (queue_push_all ThreadsafeQueue.new xs)) = map Some xs /\
  (forall q : ThreadsafeQueue.threadsafe_queue T,
     ThreadsafeQueue.head_is_tail q = true -> fst (ThreadsafeQueue.try_pop q) = None).
Proof.
  split.
  - apply (queue_pop_n_nodes xs). apply (queue_push_all_nodes xs []). reflexivity.
  - intros q Hq. unfold ThreadsafeQueue.try_pop. rewrite Hq. reflexivity.
Qed.

Lemma queue_fifo_round_trip_witness :
  fst (queue_pop_n 3 (queue_push_all ThreadsafeQueue.new [1; 2; 3])) = [Some 1; Some 2; Some 3] /\
  fst (ThreadsafeQueue.try_pop (ThreadsafeQueue.new (T := nat))) = None.
Proof.
  split.
  - apply (proj1 (queue_fifo_round_trip [1; 2; 3])).
  - apply (proj2 (queue_fifo_round_trip (@nil nat))). reflexivity.
Defined.

(** C8: pushing [x1 .. xn] onto a new [threadsafe_stack] and then calling
    [try_pop] [n] times pops [xn .. x1]; [try_pop] on an empty stack
    ([top_ == nullptr]) returns null. *)
Theorem stack_lifo_round_trip {T} (xs : list T) :
  fst (stack_pop_n (length xs) (stack_push_all ThreadsafeStack.new xs)) = map Some (rev xs) /\
  (forall n, fst (ThreadsafeStack.try_pop (ThreadsafeStack.mk_stack (T := T) [] n)) = None).
Proof.
  split; [|reflexivity].
  rewrite <- length_rev.
  apply (stack_pop_n_top (rev xs) _ []).
  rewrite stack_push_all_top. reflexivity.
Qed.

(** C10: after a move construction or a move assignment from a task, the
    moved-from task's [function_ptr_] is null and invoking it dereferences
    null; invoking a task that was never moved from never does. *)
Theorem moved_from_task_null (h : heap) :
  (forall t, Task.function_ptr_ (snd (Task.move_construct t)) = None /\
             Task.call (snd (Task.move_construct t)) h = Fault null_deref) /\
  (forall dst src, Task.function_ptr_ (snd (fst (Task.move_assign dst src))) = None /\
                   Task.call (snd (fst (Task.move_assign dst src))) h = Fault null_deref) /\
  (forall t, not_moved_from t -> Task.call t h <> Fault null_deref).
Proof.
  split; [intros t; split; reflexivity|].
  split; [intros dst src; split; reflexivity|].
  intros t Ht.
  assert (Hptr : exists w, Task.function_ptr_ t = Some w).
  { induction Ht as [f|t Ht [w Hw]|dst t Ht [w Hw]]; [eexists; reflexivity|exists w; exact Hw|exists w; exact Hw]. }
  destruct Hptr as [[f] Hw]. unfold Task.call. rewrite Hw. simpl.
  unfold packaged_task_call. destruct (states h !! pt_state f) as [[]|]; discriminate.
Qed.

Lemma moved_from_task_null_witness :
  Task.call (fst (Task.move_construct (Task.new (mk_packaged_task 0 (fun _ => 7%Z)))))
            (mk_heap [st_unset] []) <> Fault null_deref.
Proof.
  apply (proj2 (proj2 (moved_from_task_null (mk_heap [st_unset] [])))).
  apply nmf_move_construct, nmf_new.
Defined.


(** ** run_pending_task *)

(** C2 (the defect): a task on worker 0's local stack, an empty global
    queue, and a call of [run_pending_task] from a non-worker thread: the
    call returns false and runs nothing, as [steal_task(0)] skips
    [local_task_queues_[0]]. *)
Theorem run_pending_task_non_worker_misses_worker0 :
  match ThreadPool.submit tid_hash_id example_pool 10 sum_args [40; 2]%Z with
  | Ok (fut, p1) =>
      ThreadPool.at_ tid_hash_id (ThreadPool.worker_index_lookup_ p1) 10 = Some 0 /\
      ThreadPool.at_ tid_hash_id (ThreadPool.worker_index_lookup_ p1) 99 = None /\
      ThreadsafeQueue.head_is_tail (ThreadPool.global_task_queue_ p1) = true /\
      length (ThreadsafeStack.top_ (default ThreadsafeStack.new
                (ThreadPool.local_task_queues_ p1 !! 0))) = 1 /\
      ThreadPool.run_pending_task tid_hash_id p1 99 = Ok (false, p1) /\
      take fut (ThreadPool.futures_ p1) = Blocks
  | Fault _ => False
  end.
Proof. vm_compute. repeat split; reflexivity. Qed.

Section Idle.
Variable tid_hash : nat -> nat.

Lemma set_locals_id p : ThreadPool.set_locals p (ThreadPool.local_task_queues_ p) = p.
Proof. destruct p; reflexivity. Qed.

Lemma set_global_id p : ThreadPool.set_global p (ThreadPool.global_task_queue_ p) = p.
Proof. destruct p; reflexivity. Qed.

Lemma get_local_task_empty p i s :
  ThreadPool.local_task_queues_ p !! i = Some s -> ThreadsafeStack.top_ s = [] ->
  ThreadPool.get_local_task p i = Ok (None, p).
Proof.
  intros Hs Htop. unfold ThreadPool.get_local_task. rewrite Hs.
  destruct s as [top n]. simpl in Htop. subst top. simpl.
  rewrite list_insert_id by exact Hs. rewrite set_locals_id. reflexivity.
Qed.

Definition locals_idle (p : ThreadPool.thread_pool) : Prop :=
  Forall (fun s => ThreadsafeStack.top_ s = []) (ThreadPool.local_task_queues_ p).

Lemma get_local_task_idle p i :
  locals_idle p -> i < length (ThreadPool.local_task_queues_ p) ->
  ThreadPool.get_local_task p i = Ok (None, p).
Proof.
  intros Hidle Hi. destruct (lookup_lt_is_Some_2 _ _ Hi) as [s Hs].
  apply (get_local_task_empty p i s Hs).
  unfold locals_idle in Hidle. rewrite Forall_lookup in Hidle. exact (Hidle i s Hs).
Qed.

Lemma steal_from_idle p index i k :
  locals_idle p -> length (ThreadPool.local_task_queues_ p) = ThreadPool.num_threads_ p ->
  (k = 0 \/ 0 < ThreadPool.num_threads_ p) ->
  ThreadPool.steal_from p index i k = Ok (None, p).
Proof.
  intros Hidle Hlen. revert i. induction k as [|k IH]; intros i Hk; [reflexivity|].
  destruct Hk as [Hk|Hk]; [discriminate|].
  simpl. rewrite get_local_task_idle; [| exact Hidle |].
  - simpl. apply IH. right. exact Hk.
  - rewrite Hlen. apply Nat.mod_upper_bound. lia.
Qed.

Lemma run_global_task_idle p :
  ThreadsafeQueue.head_is_tail (ThreadPool.global_task_queue_ p) = true ->
  ThreadPool.run_global_task p = Ok (false, p).
Proof.
  intros Hq. unfold ThreadPool.run_global_task, ThreadPool.get_global_task,
    ThreadsafeQueue.try_pop. rewrite Hq. simpl. rewrite set_global_id. reflexivity.
Qed.

Lemma run_stolen_task_idle p index :
  locals_idle p -> length (ThreadPool.local_task_queues_ p) = ThreadPool.num_threads_ p ->
  ThreadPool.run_stolen_task p index = Ok (false, p).
Proof.
  intros Hidle Hlen. unfold ThreadPool.run_stolen_task, ThreadPool.steal_task.
  rewrite steal_from_idle; [reflexivity|exact Hidle|exact Hlen|lia].
Qed.

End Idle.

(** C9: on a pool whose global queue and local stacks are all empty,
    [run_pending_task] returns false and leaves the pool as it was, for a
    worker caller (whose index is one of the pool's) and a non-worker. *)
Theorem run_pending_task_idle tid_hash p tid :
  ThreadsafeQueue.head_is_tail (ThreadPool.global_task_queue_ p) = true ->
  Forall (fun s => ThreadsafeStack.top_ s = []) (ThreadPool.local_task_queues_ p) ->
  length (ThreadPool.local_task_queues_ p) = ThreadPool.num_threads_ p ->
  match ThreadPool.at_ tid_hash (ThreadPool.worker_index_lookup_ p) tid with
  | Some i => i < ThreadPool.num_threads_ p
  | None => True
  end ->
  ThreadPool.run_pending_task tid_hash p tid = Ok (false, p).
Proof.
  intros Hq Hidle Hlen Hidx. unfold ThreadPool.run_pending_task.
  destruct (ThreadPool.at_ tid_hash (ThreadPool.worker_index_lookup_ p) tid) as [i|].
  - unfold ThreadPool.or_else, ThreadPool.run_local_task.
    rewrite get_local_task_idle; [|exact Hidle|lia]. simpl.
    rewrite run_global_task_idle by exact Hq. simpl.
    apply run_stolen_task_idle; assumption.
  - unfold ThreadPool.or_else. rewrite run_global_task_idle by exact Hq. simpl.
    apply run_stolen_task_idle; assumption.
Qed.

Lemma run_pending_task_idle_witness :
  ThreadPool.run_pending_task tid_hash_id example_pool 10 = Ok (false, example_pool) /\
  ThreadPool.run_pending_task tid_hash_id example_pool 99 = Ok (false, example_pool).
Proof.
  split; apply run_pending_task_idle; vm_compute;
    repeat constructor; try reflexivity; lia.
Defined.

(** ** submit *)

Lemma take_fresh_state (h : list shared_state) (inv : list nat) :
  take (mk_future (length h)) (mk_heap (h ++ [st_unset]) inv) = Blocks.
Proof. unfold take. simpl. rewrite list_lookup_middle by reflexivity. reflexivity. Qed.

(** C4: [submit] returns the future of a fresh, not yet ready shared
    state; if the calling thread's id is in the worker map with index [i],
    the bound task is pushed onto local stack [i] and the global queue is
    untouched; otherwise it is pushed onto the global queue and the local
    stacks are untouched. *)
Theorem submit_routes tid_hash p tid C args :
  match ThreadPool.at_ tid_hash (ThreadPool.worker_index_lookup_ p) tid with
  | Some i => i < length (ThreadPool.local_task_queues_ p)
  | None => True
  end ->
  let n := length (states (ThreadPool.futures_ p)) in
  let t := Task.new (mk_packaged_task n (fun _ => C args)) in
  exists p', ThreadPool.submit tid_hash p tid C args = Ok (mk_future n, p') /\
    states (ThreadPool.futures_ p') = states (ThreadPool.futures_ p) ++ [st_unset] /\
    take (mk_future n) (ThreadPool.futures_ p') = Blocks /\
    match ThreadPool.at_ tid_hash (ThreadPool.worker_index_lookup_ p) tid with
    | Some i => exists s, ThreadPool.local_task_queues_ p !! i = Some s /\
        ThreadPool.local_task_queues_ p' =
          <[i := ThreadsafeStack.push s t]> (ThreadPool.local_task_queues_ p) /\
        ThreadPool.global_task_queue_ p' = ThreadPool.global_task_queue_ p
    | None =>
        ThreadPool.global_task_queue_ p' = ThreadsafeQueue.push (ThreadPool.global_task_queue_ p) t /\
        ThreadPool.local_task_queues_ p' = ThreadPool.local_task_queues_ p
    end.
Proof.
  intros Hidx n t. unfold ThreadPool.submit. simpl.
  destruct (ThreadPool.at_ tid_hash (ThreadPool.worker_index_lookup_ p) tid) as [i|].
  - destruct (lookup_lt_is_Some_2 _ _ Hidx) as [s Hs]. rewrite Hs.
    eexists. split; [reflexivity|]. simpl.
    split; [reflexivity|]. split; [apply take_fresh_state|].
    exists s. repeat split; assumption || reflexivity.
  - eexists. split; [reflexivity|]. simpl.
    split; [reflexivity|]. split; [apply take_fresh_state|].
    split; reflexivity.
Qed.

Lemma submit_routes_witness :
  exists p', ThreadPool.submit tid_hash_id example_pool 10 sum_args [1; 2]%Z
             = Ok (mk_future 0, p') /\
    states (ThreadPool.futures_ p') = [st_unset] /\
    take (mk_future 0) (ThreadPool.futures_ p') = Blocks /\
    exists s, ThreadPool.local_task_queues_ example_pool !! 0 = Some s /\
      ThreadPool.local_task_queues_ p' =
        <[0 := ThreadsafeStack.push s (Task.new (mk_packaged_task 0 (fun _ => sum_args [1; 2]%Z)))]>
          (ThreadPool.local_task_queues_ example_pool) /\
      ThreadPool.global_task_queue_ p' = ThreadPool.global_task_queue_ example_pool.
Proof.
  apply (submit_routes tid_hash_id example_pool 10 sum_args [1; 2]%Z).
  vm_compute. lia.
Defined.

(** ** threadsafe_list: remove_if and replace_if *)
Section ListLemmas.
Context {T : Type}.
Implicit Types (l : list T) (p : T -> bool).

Lemma remove_if_sublist p lim l c l' :
  ThreadsafeList.remove_if p lim l = (c, l') -> l' `sublist_of` l /\ c + length l' = length l.
Proof.
  revert lim c l'. induction l as [|x r IH]; intros lim c l' E; simpl in E.
  - destruct (lim =? 0)%N; injection E as <- <-; split; constructor || reflexivity.
  - destruct (lim =? 0)%N.
    { injection E as <- <-. split; reflexivity. }
    destruct (p x).
    + destruct (ThreadsafeList.remove_if p (lim - 1) r) as [c0 r0] eqn:E0.
      injection E as <- <-. destruct (IH _ _ _ E0) as [Hs Hl].
      split; [apply sublist_cons; exact Hs|simpl; lia].
    + destruct (ThreadsafeList.remove_if p lim r) as [c0 r0] eqn:E0.
      injection E as <- <-. destruct (IH _ _ _ E0) as [Hs Hl].
      split; [apply sublist_skip; exact Hs|simpl; lia].
Qed.

Lemma remove_if_count p lim l c l' :
  ThreadsafeList.remove_if p lim l = (c, l') -> c <= length (List.filter p l).
Proof.
  revert lim c l'. induction l as [|x r IH]; intros lim c l' E; simpl in E.
  - destruct (lim =? 0)%N; injection E as <- <-; simpl; lia.
  - destruct (lim =? 0)%N; [injection E as <- <-; lia|].
    simpl. destruct (p x).
    + destruct (ThreadsafeList.remove_if p (lim - 1) r) as [c0 r0] eqn:E0.
      injection E as <- <-. specialize (IH _ _ _ E0). simpl. lia.
    + destruct (ThreadsafeList.remove_if p lim r) as [c0 r0] eqn:E0.
      injection E as <- <-. exact (IH _ _ _ E0).
Qed.

Lemma replace_if_shape p s lim l c l' :
  ThreadsafeList.replace_if p s lim l = (c, l') ->
  length l' = length l /\
  (forall (P : T -> Prop), Forall P l -> P (s tt) -> Forall P l') /\
  (forall {B} (f : T -> B), (forall x, p x = true -> f (s tt) = f x) -> map f l' = map f l) /\
  ((lim =? 0)%N = false -> c = 0 -> l' = l /\ Forall (fun x => p x = false) l).
Proof.
  revert lim c l'. induction l as [|x r IH]; intros lim c l' E; simpl in E.
  - destruct (lim =? 0)%N; injection E as <- <-;
      (split; [reflexivity|split; [auto|split; [reflexivity|auto]]]).
  - destruct (lim =? 0)%N eqn:Hlim.
    { injection E as <- <-. split; [reflexivity|split; [auto|split; [reflexivity|]]].
      discriminate. }
    destruct (p x) eqn:Hp.
    + destruct (ThreadsafeList.replace_if p s (lim - 1) r) as [c0 r0] eqn:E0.
      injection E as <- <-. destruct (IH _ _ _ E0) as (Hl & HF & Hm & _).
      split; [simpl; rewrite Hl; reflexivity|].
      split; [intros P HP Hs; inversion HP; subst; constructor; [exact Hs|apply HF; assumption]|].
      split; [intros B f Hf; simpl; rewrite (Hm B f Hf), (Hf x Hp); reflexivity|].
      discriminate.
    + destruct (ThreadsafeList.replace_if p s lim r) as [c0 r0] eqn:E0.
      injection E as <- <-. destruct (IH _ _ _ E0) as (Hl & HF & Hm & Hz).
      split; [simpl; rewrite Hl; reflexivity|].
      split; [intros P HP Hs; inversion HP; subst; constructor; [assumption|apply HF; assumption]|].
      split; [intros B f Hf; simpl; rewrite (Hm B f Hf); reflexivity|].
      intros _ Hc. destruct (Hz Hlim Hc) as [-> HF0]. split; [reflexivity|constructor; assumption].
Qed.

Lemma sublist_map {B} (f : T -> B) l1 l2 : l1 `sublist_of` l2 -> map f l1 `sublist_of` map f l2.
Proof. induction 1; simpl; constructor; assumption. Qed.

Lemma Forall_sublist' (P : T -> Prop) l1 l2 : l1 `sublist_of` l2 -> Forall P l2 -> Forall P l1.
Proof. induction 1; intros HP; inversion HP; subst; auto. Qed.

End ListLemmas.

(** ** threadsafe_list: limits, traversal order and copies *)
Section ListExtra.
Context {T : Type}.
Implicit Types (l : list T) (p : T -> bool).

Lemma filter_nil_negb p l : List.filter p l = [] -> List.filter (fun x => negb (p x)) l = l.
Proof.
  induction l as [|x r IH]; simpl; [reflexivity|].
  destruct (p x); simpl; [discriminate|]. intros H. f_equal. exact (IH H).
Qed.

Lemma filter_nil_map_if p (y : T) l :
  List.filter p l = [] -> map (fun x => if p x then y else x) l = l.
Proof.
  induction l as [|x r IH]; simpl; [reflexivity|].
  destruct (p x); simpl; [discriminate|]. intros H. f_equal. exact (IH H).
Qed.

Lemma remove_if_zero p l : ThreadsafeList.remove_if p 0%N l = (0, l).
Proof. destruct l; reflexivity. Qed.

Lemma replace_if_zero p s l : ThreadsafeList.replace_if p s 0%N l = (0, l).
Proof. destruct l; reflexivity. Qed.

Lemma remove_if_spec p lim l :
  fst (ThreadsafeList.remove_if p lim l) = Nat.min (N.to_nat lim) (length (List.filter p l)) /\
  (length (List.filter p l) <= N.to_nat lim ->
   snd (ThreadsafeList.remove_if p lim l) = List.filter (fun x => negb (p x)) l).
Proof.
  revert lim. induction l as [|x r IH]; intros lim;
    (destruct (N.eq_dec lim 0%N) as [->|Hlim];
     [rewrite remove_if_zero; change (N.to_nat 0) with 0; split;
        [simpl; lia|intros H; cbn [snd]; symmetry; apply filter_nil_negb;
                    apply length_zero_iff_nil; lia]|]).
  - simpl. rewrite (proj2 (N.eqb_neq _ _) Hlim). split; [simpl; lia|reflexivity].
  - simpl. rewrite (proj2 (N.eqb_neq _ _) Hlim). destruct (p x) eqn:Hp.
    + destruct (IH (lim - 1)%N) as [H1 H2].
      destruct (ThreadsafeList.remove_if p (lim - 1) r) as [c r'] eqn:E. simpl in *.
      rewrite N2Nat.inj_sub in H1, H2. simpl in *.
      assert (Hl0 : N.to_nat lim <> 0) by lia.
      split; [lia|]. intros H. apply H2. lia.
    + destruct (IH lim) as [H1 H2].
      destruct (ThreadsafeList.remove_if p lim r) as [c r'] eqn:E. simpl in *.
      split; [exact H1|]. intros H. f_equal. exact (H2 H).
Qed.

(** [remove_if] removes the matches of a prefix [l1] of the list, and that
    prefix holds [min(lim, m)] of the [m] matches. *)
Lemma remove_if_prefix p lim l :
  exists l1 l2, l = l1 ++ l2 /\
    length (List.filter p l1) = Nat.min (N.to_nat lim) (length (List.filter p l)) /\
    snd (ThreadsafeList.remove_if p lim l) = List.filter (fun x => negb (p x)) l1 ++ l2.
Proof.
  revert lim. induction l as [|x r IH]; intros lim.
  - exists [], []. destruct (N.eq_dec lim 0%N) as [->|Hlim];
      [rewrite remove_if_zero|simpl; rewrite (proj2 (N.eqb_neq _ _) Hlim)];
      (split; [reflexivity|split; [simpl; lia|reflexivity]]).
  - destruct (N.eq_dec lim 0%N) as [->|Hlim].
    { exists [], (x :: r). rewrite remove_if_zero. change (N.to_nat 0) with 0.
      split; [reflexivity|split; [simpl; lia|reflexivity]]. }
    simpl. rewrite (proj2 (N.eqb_neq _ _) Hlim). destruct (p x) eqn:Hp.
    + destruct (IH (lim - 1)%N) as (l1 & l2 & -> & H1 & H2).
      destruct (ThreadsafeList.remove_if p (lim - 1) (l1 ++ l2)) as [c r'] eqn:E.
      cbn [snd] in *. exists (x :: l1), l2.
      split; [reflexivity|]. simpl. rewrite Hp. simpl. rewrite ?Hp. cbn [negb].
      rewrite N2Nat.inj_sub in H1. simpl in H1.
      assert (Hl0 : N.to_nat lim <> 0) by lia.
      split; [lia|exact H2].
    + destruct (IH lim) as (l1 & l2 & -> & H1 & H2).
      destruct (ThreadsafeList.remove_if p lim (l1 ++ l2)) as [c r'] eqn:E.
      cbn [snd] in *. exists (x :: l1), l2.
      split; [reflexivity|]. simpl. rewrite Hp. simpl. rewrite ?Hp. cbn [negb].
      split; [exact H1|]. rewrite H2. reflexivity.
Qed.

Lemma replace_if_spec p s lim l :
  fst (ThreadsafeList.replace_if p s lim l) = Nat.min (N.to_nat lim) (length (List.filter p l)) /\
  (length (List.filter p l) <= N.to_nat lim ->
   snd (ThreadsafeList.replace_if p s lim l) = map (fun x => if p x then s tt else x) l).
Proof.
  revert lim. induction l as [|x r IH]; intros lim;
    (destruct (N.eq_dec lim 0%N) as [->|Hlim];
     [rewrite replace_if_zero; change (N.to_nat 0) with 0; split;
        [simpl; lia|intros H; cbn [snd]; symmetry; apply filter_nil_map_if;
                    apply length_zero_iff_nil; lia]|]).
  - simpl. rewrite (proj2 (N.eqb_neq _ _) Hlim). split; [simpl; lia|reflexivity].
  - simpl. rewrite (proj2 (N.eqb_neq _ _) Hlim). destruct (p x) eqn:Hp.
    + destruct (IH (lim - 1)%N) as [H1 H2].
      destruct (ThreadsafeList.replace_if p s (lim - 1) r) as [c r'] eqn:E. simpl in *.
      rewrite N2Nat.inj_sub in H1, H2. simpl in *.
      assert (Hl0 : N.to_nat lim <> 0) by lia.
      split; [lia|]. intros H. f_equal. apply H2. lia.
    + destruct (IH lim) as [H1 H2].
      destruct (ThreadsafeList.replace_if p s lim r) as [c r'] eqn:E. simpl in *.
      split; [exact H1|]. intros H. f_equal. exact (H2 H).
Qed.

Lemma read_each_map_if {S R} p (m : T -> R) (ins : S -> R -> S) l s :
  ThreadsafeList.read_and_map_if p m ins l s = fold_left ins (map m (List.filter p l)) s.
Proof.
  unfold ThreadsafeList.read_and_map_if, ThreadsafeList.read_each. revert s.
  induction l as [|x r IH]; intros s; [reflexivity|]. simpl.
  destruct (p x); simpl; apply IH.
Qed.

Lemma write_each_map_if {S R} p (m : T -> T * R) (ins : S -> R -> S) l s :
  ThreadsafeList.write_and_map_if p m ins l s =
  (fold_left ins (map (fun x => snd (m x)) (List.filter p l)) s,
   map (fun x => if p x then fst (m x) else x) l).
Proof.
  unfold ThreadsafeList.write_and_map_if. revert s.
  induction l as [|x r IH]; intros s; [reflexivity|]. simpl.
  destruct (p x).
  - destruct (m x) as [x' y] eqn:Em. simpl. rewrite IH, Em. reflexivity.
  - rewrite IH. reflexivity.
Qed.

Lemma list_copy_fold (xs : list T) (acc : CountedList.threadsafe_list T) :
  fold_left (fun acc v => CountedList.push_front v acc) xs acc =
  CountedList.mk_list (rev xs ++ CountedList.values acc) (length xs + CountedList.num_elements_ acc).
Proof.
  revert acc. induction xs as [|x xs IH]; intros acc; [destruct acc; reflexivity|].
  simpl. rewrite IH. simpl. rewrite <- app_assoc. f_equal. lia.
Qed.

Lemma list_reachable_count (l : CountedList.threadsafe_list T) :
  list_reachable l -> CountedList.num_elements_ l = length (CountedList.values l).
Proof.
  induction 1 as [|v l _ IH|p lim l _ IH|p s lim l _ IH|l _ IH|l _ IH].
  - reflexivity.
  - simpl. rewrite IH. reflexivity.
  - unfold CountedList.remove_if.
    destruct (ThreadsafeList.remove_if p lim (CountedList.values l)) as [c r] eqn:E.
    destruct (remove_if_sublist _ _ _ _ _ E) as [_ Hl]. simpl. lia.
  - unfold CountedList.replace_if.
    destruct (ThreadsafeList.replace_if p s lim (CountedList.values l)) as [c r] eqn:E.
    destruct (replace_if_shape _ _ _ _ _ _ E) as [Hl _]. simpl. lia.
  - simpl. lia.
  - unfold CountedList.copy_construct, ThreadsafeList.read_each.
    rewrite list_copy_fold. simpl. rewrite app_nil_r, length_rev. lia.
Qed.

Lemma replace_if_find_other p s lim l (q : T -> bool) :
  (forall x, p x = true -> q x = false) -> q (s tt) = false ->
  find q (snd (ThreadsafeList.replace_if p s lim l)) = find q l.
Proof.
  intros Hpq Hs. revert lim. induction l as [|x r IH]; intros lim; simpl.
  - destruct (lim =? 0)%N; reflexivity.
  - destruct (lim =? 0)%N; [reflexivity|].
    destruct (p x) eqn:Hp.
    + specialize (IH (lim - 1)%N).
      destruct (ThreadsafeList.replace_if p s (lim - 1) r) as [c r'] eqn:E. simpl in *.
      rewrite Hs, (Hpq x Hp). exact IH.
    + specialize (IH lim).
      destruct (ThreadsafeList.replace_if p s lim r) as [c r'] eqn:E. simpl in *.
      destruct (q x); [reflexivity|exact IH].
Qed.

Lemma remove_if_find_other p lim l (q : T -> bool) :
  (forall x, p x = true -> q x = false) ->
  find q (snd (ThreadsafeList.remove_if p lim l)) = find q l.
Proof.
  intros Hpq. revert lim. induction l as [|x r IH]; intros lim; simpl.
  - destruct (lim =? 0)%N; reflexivity.
  - destruct (lim =? 0)%N; [reflexivity|].
    destruct (p x) eqn:Hp.
    + specialize (IH (lim - 1)%N).
      destruct (ThreadsafeList.remove_if p (lim - 1) r) as [c r'] eqn:E. simpl in *.
      rewrite (Hpq x Hp). exact IH.
    + specialize (IH lim).
      destruct (ThreadsafeList.remove_if p lim r) as [c r'] eqn:E. simpl in *.
      destruct (q x); [reflexivity|exact IH].
Qed.

Lemma find_filter_negb p l : find p (List.filter (fun x => negb (p x)) l) = None.
Proof.
  induction l as [|x r IH]; simpl; [reflexivity|].
  destruct (p x) eqn:Hp; simpl; [exact IH|rewrite Hp; exact IH].
Qed.

Lemma find_map_if p (y : T) l :
  p y = true -> find p (map (fun x => if p x then y else x) l) = if existsb p l then Some y else None.
Proof.
  intros Hy. induction l as [|x r IH]; simpl; [reflexivity|].
  destruct (p x) eqn:Hp; simpl; [rewrite Hy; reflexivity|rewrite Hp; exact IH].
Qed.

Lemma existsb_filter_length p l : existsb p l = negb (length (List.filter p l) =? 0).
Proof. induction l as [|x r IH]; simpl; [reflexivity|]. destruct (p x); simpl; [reflexivity|exact IH]. Qed.

End ListExtra.

(** ** threadsafe_hashtable: the bucket invariant *)
Section BucketLayout.
Context {K V : Type} `{EqDecision K}.
Variable hash : K -> nat.
Variable N : nat.

Lemma set_bucket_length (t : Hashtable.threadsafe_hashtable K V) k b n :
  length (Hashtable.buckets_ (Hashtable.set_bucket hash N t k b n)) =
  length (Hashtable.buckets_ t).
Proof. apply length_insert. Qed.

Lemma set_bucket_frame (t : Hashtable.threadsafe_hashtable K V) k b n i :
  i <> Hashtable.bucket_index hash N k ->
  Hashtable.buckets_ (Hashtable.set_bucket hash N t k b n) !! i = Hashtable.buckets_ t !! i.
Proof. intros Hi. apply list_lookup_insert_ne. congruence. Qed.

(** Every keyed operation leaves the map as it is or rewrites the bucket of its key. *)
Lemma apply_op_shape (t : Hashtable.threadsafe_hashtable K V) o k :
  Hashtable.op_key o = Some k ->
  Hashtable.apply_op hash N t o = t \/
  exists b n, Hashtable.apply_op hash N t o = Hashtable.set_bucket hash N t k b n.
Proof.
  intros Hk. destruct o as [k' v|k' v|k' v|k'|k' sup|]; simpl in Hk; try discriminate;
    injection Hk as ->; simpl.
  - unfold Hashtable.insert, Hashtable.do_insert.
    destruct (ThreadsafeList.match_none _ _); simpl; [right; eauto|left; reflexivity].
  - unfold Hashtable.replace, Hashtable.do_replace.
    destruct (ThreadsafeList.replace_if _ _ _ _) as [c b']. right; eauto.
  - unfold Hashtable.insert_or_replace, Hashtable.do_insert_or_replace.
    destruct (ThreadsafeList.replace_if _ _ _ _) as [c b'].
    destruct (c =? 0); right; eauto.
  - unfold Hashtable.remove.
    destruct (ThreadsafeList.remove_if _ _ _) as [c b'].
    destruct (negb (c =? 0)); right; eauto.
  - unfold Hashtable.get_or_insert.
    destruct (Hashtable.get hash N k t); [left; reflexivity|].
    destruct (ThreadsafeList.find_first_if _ _); [left; reflexivity|right; eauto].
Qed.

Lemma apply_op_length (t : Hashtable.threadsafe_hashtable K V) o :
  length (Hashtable.buckets_ (Hashtable.apply_op hash N t o)) = length (Hashtable.buckets_ t).
Proof.
  destruct (Hashtable.op_key o) as [k|] eqn:Hk.
  - destruct (apply_op_shape t o k Hk) as [-> | (b & n & ->)];
      [reflexivity|apply set_bucket_length].
  - destruct o; try discriminate. simpl. apply length_map.
Qed.

Lemma run_ops_length (t : Hashtable.threadsafe_hashtable K V) os :
  length (Hashtable.buckets_ (Hashtable.run_ops hash N t os)) = length (Hashtable.buckets_ t).
Proof.
  unfold Hashtable.run_ops. revert t.
  induction os as [|o os IH]; intros t; [reflexivity|].
  simpl. rewrite IH. apply apply_op_length.
Qed.

Lemma apply_op_frame (t : Hashtable.threadsafe_hashtable K V) o k i :
  Hashtable.op_key o = Some k -> i <> Hashtable.bucket_index hash N k ->
  Hashtable.buckets_ (Hashtable.apply_op hash N t o) !! i = Hashtable.buckets_ t !! i.
Proof.
  intros Hk Hi. destruct (apply_op_shape t o k Hk) as [-> | (b & n & ->)];
    [reflexivity|apply set_bucket_frame; exact Hi].
Qed.

Lemma get_reads_bucket (t t' : Hashtable.threadsafe_hashtable K V) k :
  Hashtable.buckets_ t' !! Hashtable.bucket_index hash N k =
  Hashtable.buckets_ t !! Hashtable.bucket_index hash N k ->
  Hashtable.get hash N k t' = Hashtable.get hash N k t.
Proof. intros E. unfold Hashtable.get, Hashtable.get_bucket. rewrite E. reflexivity. Qed.

(** A call that reads only the bucket of [k] and either keeps the map or
    writes that bucket (and the element counter) is local to the bucket. *)
Lemma bucket_local_of_shape {A} k
  (g : list (@Hashtable.pair K V) -> result (A * option (list (@Hashtable.pair K V) * (nat -> nat))))
  (f : Hashtable.threadsafe_hashtable K V -> result (A * Hashtable.threadsafe_hashtable K V)) :
  (forall t, f t =
     match g (Hashtable.get_bucket hash N t k) with
     | Ok (a, None) => Ok (a, t)
     | Ok (a, Some (b, c)) => Ok (a, Hashtable.set_bucket hash N t k b (c (Hashtable.num_elements_ t)))
     | Fault e => Fault e
     end) ->
  Hashtable.bucket_local hash N k f.
Proof.
  intros Hf. split.
  - intros t a t' E. rewrite Hf in E.
    destruct (g _) as [[a' [[b c]|]]|e]; inversion E; subst.
    + split; [apply set_bucket_length|intros i Hi; apply set_bucket_frame; exact Hi].
    + split; reflexivity.
  - intros t1 t2 E12.
    assert (Hb : Hashtable.get_bucket hash N t1 k = Hashtable.get_bucket hash N t2 k)
      by (unfold Hashtable.get_bucket; rewrite E12; reflexivity).
    rewrite !Hf, Hb. split.
    + destruct (g _) as [[a' [[b c]|]]|e]; reflexivity.
    + intros a1 t1' a2 t2' E1 E2.
      destruct (g _) as [[a' [[b c]|]]|e]; inversion E1; inversion E2; subst; [|exact E12].
      unfold Hashtable.set_bucket; cbn [Hashtable.buckets_].
      destruct (Hashtable.buckets_ t1 !! Hashtable.bucket_index hash N k) eqn:H1.
      * rewrite !list_lookup_insert_eq; [reflexivity| |];
          apply lookup_lt_Some with l; first [exact H1|symmetry; exact E12].
      * rewrite !list_insert_ge; [rewrite H1; exact E12| |];
          apply lookup_ge_None_1; first [exact H1|symmetry; exact E12].
Qed.

Lemma insert_bucket_local k (v : V) :
  Hashtable.bucket_local hash N k (fun t => Ok (Hashtable.insert hash N k v t)).
Proof.
  apply bucket_local_of_shape with
    (g := fun b => Ok (if ThreadsafeList.match_none (Hashtable.match_key k) b
                       then (true, Some (ThreadsafeList.push_front (Hashtable.mk_pair k (Some v)) b, S))
                       else (false, None))).
  intros t. unfold Hashtable.insert, Hashtable.do_insert.
  destruct (ThreadsafeList.match_none _ _); reflexivity.
Qed.

Lemma replace_bucket_local k (v : V) :
  Hashtable.bucket_local hash N k (fun t => Ok (Hashtable.replace hash N k v t)).
Proof.
  apply bucket_local_of_shape with
    (g := fun b => let '(c, b') := ThreadsafeList.replace_if (Hashtable.match_key k)
                                     (Hashtable.pair_supplier k (Some v)) SIZE_MAX b in
                   Ok (negb (c =? 0), Some (b', fun n => n))).
  intros t. unfold Hashtable.replace, Hashtable.do_replace.
  destruct (ThreadsafeList.replace_if _ _ _ _); reflexivity.
Qed.

Lemma insert_or_replace_bucket_local k (v : V) :
  Hashtable.bucket_local hash N k (fun t => Ok (Hashtable.insert_or_replace hash N k v t)).
Proof.
  apply bucket_local_of_shape with
    (g := fun b => let '(c, b') := ThreadsafeList.replace_if (Hashtable.match_key k)
                                     (Hashtable.pair_supplier k (Some v)) SIZE_MAX b in
                   if c =? 0
                   then Ok (true, Some (ThreadsafeList.push_front (Hashtable.mk_pair k (Some v)) b', S))
                   else Ok (true, Some (b', fun n => n))).
  intros t. unfold Hashtable.insert_or_replace, Hashtable.do_insert_or_replace.
  destruct (ThreadsafeList.replace_if _ _ _ _) as [c b']. destruct (c =? 0); reflexivity.
Qed.

Lemma remove_bucket_local (k : K) :
  Hashtable.bucket_local hash N k (fun t : Hashtable.threadsafe_hashtable K V => Ok (Hashtable.remove hash N k t)).
Proof.
  apply bucket_local_of_shape with
    (g := fun b => let '(c, b') := ThreadsafeList.remove_if (Hashtable.match_key k) SIZE_MAX b in
                   if negb (c =? 0) then Ok (true, Some (b', fun n => n - 1))
                   else Ok (false, Some (b', fun n => n))).
  intros t. unfold Hashtable.remove.
  destruct (ThreadsafeList.remove_if _ _ _) as [c b']. destruct (negb (c =? 0)); reflexivity.
Qed.

Lemma get_or_insert_bucket_local k (sup : unit -> V) :
  Hashtable.bucket_local hash N k (fun t => Ok (Hashtable.get_or_insert hash N k sup t)).
Proof.
  apply bucket_local_of_shape with
    (g := fun b =>
       match ThreadsafeList.find_first_if (Hashtable.match_key k) b with
       | Some pr => match Hashtable.value_ pr with
                    | Some v => Ok (Some v, None)
                    | None => Ok (Hashtable.value_ pr, None)
                    end
       | None => Ok (Some (sup tt),
                     Some (ThreadsafeList.push_front (Hashtable.mk_pair k (Some (sup tt))) b, S))
       end).
  intros t. unfold Hashtable.get_or_insert, Hashtable.get.
  destruct (ThreadsafeList.find_first_if _ _) as [pr|]; [destruct (Hashtable.value_ pr)|];
    reflexivity.
Qed.

Lemma get_bucket_local (k : K) :
  Hashtable.bucket_local hash N k (fun t : Hashtable.threadsafe_hashtable K V => Ok (Hashtable.get hash N k t, t)).
Proof.
  apply bucket_local_of_shape with
    (g := fun b => Ok (match ThreadsafeList.find_first_if (Hashtable.match_key k) b with
                       | Some pr => Hashtable.value_ pr
                       | None => None
                       end, None)).
  intros t. reflexivity.
Qed.

Lemma has_bucket_local (k : K) :
  Hashtable.bucket_local hash N k (fun t : Hashtable.threadsafe_hashtable K V => Ok (Hashtable.has hash N k t, t)).
Proof.
  apply bucket_local_of_shape with
    (g := fun b => Ok (ThreadsafeList.match_any (Hashtable.match_key k) b, None)).
  intros t. reflexivity.
Qed.

Lemma read_and_map_bucket_local {R} k (mapper : V -> R) :
  Hashtable.bucket_local hash N k
    (fun t : Hashtable.threadsafe_hashtable K V => let* r := Hashtable.read_and_map hash N k mapper t in Ok (r, t)).
Proof.
  apply bucket_local_of_shape with
    (g := fun b => match ThreadsafeList.find_first_if (Hashtable.match_key k) b with
                   | None => Ok (None, None)
                   | Some pr => match Hashtable.value_ pr with
                                | None => Fault null_deref
                                | Some v => Ok (Some (mapper v), None)
                                end
                   end).
  intros t. unfold Hashtable.read_and_map.
  destruct (ThreadsafeList.find_first_if _ _) as [pr|]; [destruct (Hashtable.value_ pr)|];
    reflexivity.
Qed.

Lemma write_and_map_bucket_local {R} k (mapper : V -> V * R) :
  Hashtable.bucket_local hash N k (Hashtable.write_and_map hash N k mapper).
Proof.
  apply bucket_local_of_shape with
    (g := fun b => match ThreadsafeList.find_first_if (Hashtable.match_key k) b with
                   | None => Ok (None, None)
                   | Some pr => match Hashtable.value_ pr with
                                | None => Fault null_deref
                                | Some v => let '(v', r) := mapper v in
                                            Ok (Some r, Some (Hashtable.set_first_value k v' b,
                                                              fun n => n))
                                end
                   end).
  intros t. unfold Hashtable.write_and_map.
  destruct (ThreadsafeList.find_first_if _ _) as [pr|]; [destruct (Hashtable.value_ pr)|];
    [destruct (mapper _)| |]; reflexivity.
Qed.

End BucketLayout.

Section HashtableInvariant.
Context {K V : Type} `{EqDecision K}.
Variable hash : K -> nat.
Variable N : nat.
Hypothesis HN : 0 < N.

Abbreviation pair := (Hashtable.pair K V).
Abbreviation table := (Hashtable.threadsafe_hashtable K V).
Abbreviation bucket_index := (Hashtable.bucket_index hash N).
Abbreviation bucket_ok := (@bucket_ok K V hash N).
Abbreviation ht_inv := (@ht_inv K V hash N).

Lemma length_concat_insert {A} (L : list (list A)) i b b' :
  L !! i = Some b -> length (concat (<[i := b']> L)) + length b = length (concat L) + length b'.
Proof.
  revert i. induction L as [|b0 L IH]; intros i Hi; [discriminate|].
  destruct i as [|i]; simpl in *.
  - injection Hi as ->. rewrite !length_app. lia.
  - rewrite !length_app. specialize (IH i Hi). lia.
Qed.

Lemma ht_inv_new : ht_inv (Hashtable.new N).
Proof.
  split; [apply repeat_length|split].
  - intros i b Hb. apply list_elem_of_lookup_2 in Hb.
    apply list_elem_of_In, repeat_spec in Hb. subst b.
    split; [constructor|split; constructor].
  - simpl. generalize N. intros n. induction n as [|n IH]; [reflexivity|exact IH].
Qed.

Lemma ht_bucket_lookup t k :
  ht_inv t -> exists b, Hashtable.buckets_ t !! bucket_index k = Some b /\
                        Hashtable.get_bucket hash N t k = b.
Proof.
  intros [Hlen _]. assert (Hlt : bucket_index k < length (Hashtable.buckets_ t)).
  { rewrite Hlen. apply Nat.mod_upper_bound. lia. }
  destruct (lookup_lt_is_Some_2 _ _ Hlt) as [b Hb]. exists b. split; [exact Hb|].
  unfold Hashtable.get_bucket. rewrite Hb. reflexivity.
Qed.

Lemma ht_inv_set_bucket t k b b' n :
  ht_inv t -> Hashtable.buckets_ t !! bucket_index k = Some b ->
  bucket_ok (bucket_index k) b' ->
  n + length b = Hashtable.num_elements_ t + length b' ->
  ht_inv (Hashtable.set_bucket hash N t k b' n).
Proof.
  intros (Hlen & Hok & Hnum) Hb Hok' Hn. unfold Hashtable.set_bucket.
  split; [simpl; rewrite length_insert; exact Hlen|split].
  - intros j bj Hj. simpl in Hj.
    destruct (decide (bucket_index k = j)) as [<-|Hne].
    + rewrite list_lookup_insert_eq in Hj by (apply lookup_lt_is_Some_1; eauto).
      injection Hj as <-. exact Hok'.
    + rewrite list_lookup_insert_ne in Hj by exact Hne. exact (Hok j bj Hj).
  - simpl. pose proof (length_concat_insert _ _ _ b' Hb). lia.
Qed.

Lemma keys_not_in (k : K) (b : list pair) :
  Forall (fun pr => Hashtable.match_key k pr = false) b -> k ∉ map Hashtable.key_ b.
Proof.
  intros HF Hin. apply list_elem_of_In, in_map_iff in Hin. destruct Hin as [pr [Hk Hpr]].
  rewrite Forall_forall in HF. specialize (HF pr (proj2 (list_elem_of_In _ _) Hpr)).
  unfold Hashtable.match_key in HF. rewrite bool_decide_eq_false in HF. contradiction.
Qed.

Lemma bucket_ok_push i k v b :
  bucket_ok i b -> bucket_index k = i -> v <> None ->
  Forall (fun pr => Hashtable.match_key k pr = false) b ->
  bucket_ok i (Hashtable.mk_pair k v :: b).
Proof.
  intros (Hi & Hnd & Hv) Hk Hvn HF. split; [constructor; assumption|split].
  - simpl. apply NoDup_cons. split; [apply keys_not_in; exact HF|exact Hnd].
  - constructor; assumption.
Qed.

Lemma match_none_forall k (b : list pair) :
  ThreadsafeList.match_none (Hashtable.match_key k) b = true ->
  Forall (fun pr => Hashtable.match_key k pr = false) b.
Proof.
  unfold ThreadsafeList.match_none, ThreadsafeList.match_any. intros H.
  apply negb_true_iff in H. apply Forall_forall. intros x Hx.
  destruct (Hashtable.match_key k x) eqn:E; [|reflexivity].
  apply list_elem_of_In in Hx.
  exfalso. assert (existsb (Hashtable.match_key k) b = true) by (apply existsb_exists; eauto).
  congruence.
Qed.

Lemma find_none_forall k (b : list pair) :
  ThreadsafeList.find_first_if (Hashtable.match_key k) b = None ->
  Forall (fun pr => Hashtable.match_key k pr = false) b.
Proof.
  intros H. apply Forall_forall. intros x Hx. apply list_elem_of_In in Hx.
  exact (find_none _ _ H x Hx).
Qed.

Lemma forall_key_ne k (b : list pair) :
  k ∉ map Hashtable.key_ b -> Forall (fun pr => Hashtable.match_key k pr = false) b.
Proof.
  intros Hk. apply Forall_forall. intros x Hx. unfold Hashtable.match_key.
  apply bool_decide_eq_false. intros <-. apply Hk.
  apply list_elem_of_In, in_map, list_elem_of_In. exact Hx.
Qed.

Lemma filter_all_false {A} (p : A -> bool) (l : list A) :
  Forall (fun x => p x = false) l -> List.filter p l = [].
Proof. induction 1 as [|x l Hx _ IH]; simpl; [reflexivity|rewrite Hx; exact IH]. Qed.

Lemma match_key_unique k (b : list pair) :
  NoDup (map Hashtable.key_ b) -> length (List.filter (Hashtable.match_key k) b) <= 1.
Proof.
  induction b as [|x r IH]; intros Hnd; simpl; [lia|].
  apply NoDup_cons in Hnd. destruct Hnd as [Hx Hr].
  destruct (Hashtable.match_key k x) eqn:E; simpl; [|exact (IH Hr)].
  unfold Hashtable.match_key in E. apply bool_decide_eq_true in E. subst k.
  rewrite filter_all_false by (apply forall_key_ne; exact Hx). simpl. lia.
Qed.

Lemma length_bucket_le (L : list (list pair)) i b :
  L !! i = Some b -> length b <= length (concat L).
Proof. intros Hb. pose proof (length_concat_insert L i b [] Hb). simpl in *. lia. Qed.

Lemma SIZE_MAX_nonzero : (SIZE_MAX =? 0)%N = false.
Proof. reflexivity. Qed.

Lemma replaced_bucket_ok t k v b c b' :
  ht_inv t -> Hashtable.buckets_ t !! bucket_index k = Some b ->
  ThreadsafeList.replace_if (Hashtable.match_key k) (Hashtable.pair_supplier k (Some v))
    SIZE_MAX b = (c, b') ->
  bucket_ok (bucket_index k) b' /\ length b' = length b.
Proof.
  intros (_ & Hok & _) Hb E. destruct (Hok _ _ Hb) as (Hi & Hnd & Hv).
  destruct (replace_if_shape _ _ _ _ _ _ E) as (Hl & HF & Hm & _).
  split; [|exact Hl]. split; [apply HF; [exact Hi|reflexivity]|split].
  - rewrite (Hm _ Hashtable.key_); [exact Hnd|].
    intros x Hx. unfold Hashtable.match_key in Hx. apply bool_decide_eq_true in Hx.
    simpl. symmetry. exact Hx.
  - apply HF; [exact Hv|discriminate].
Qed.

Lemma ht_inv_insert t k v : ht_inv t -> ht_inv (snd (Hashtable.insert hash N k v t)).
Proof.
  intros Hinv. destruct (ht_bucket_lookup t k Hinv) as [b [Hb Hg]].
  unfold Hashtable.insert, Hashtable.do_insert. rewrite Hg.
  destruct (ThreadsafeList.match_none (Hashtable.match_key k) b) eqn:E; simpl; [|exact Hinv].
  apply ht_inv_set_bucket with b; [exact Hinv|exact Hb| |simpl; lia].
  apply bucket_ok_push; [exact (proj1 (proj2 Hinv) _ _ Hb)|reflexivity|discriminate|].
  apply match_none_forall. exact E.
Qed.

Lemma ht_inv_replace t k v : ht_inv t -> ht_inv (snd (Hashtable.replace hash N k v t)).
Proof.
  intros Hinv. destruct (ht_bucket_lookup t k Hinv) as [b [Hb Hg]].
  unfold Hashtable.replace, Hashtable.do_replace. rewrite Hg.
  destruct (ThreadsafeList.replace_if _ _ _ b) as [c b'] eqn:E. simpl.
  destruct (replaced_bucket_ok t k v b c b' Hinv Hb E) as [Hok Hl].
  apply ht_inv_set_bucket with b; [exact Hinv|exact Hb|exact Hok|lia].
Qed.

Lemma ht_inv_insert_or_replace t k v :
  ht_inv t -> ht_inv (snd (Hashtable.insert_or_replace hash N k v t)).
Proof.
  intros Hinv. destruct (ht_bucket_lookup t k Hinv) as [b [Hb Hg]].
  unfold Hashtable.insert_or_replace, Hashtable.do_insert_or_replace. rewrite Hg.
  destruct (ThreadsafeList.replace_if _ _ _ b) as [c b'] eqn:E.
  destruct (replaced_bucket_ok t k v b c b' Hinv Hb E) as [Hok Hl].
  destruct (c =? 0) eqn:Hc; simpl.
  - apply Nat.eqb_eq in Hc. subst c.
    destruct (replace_if_shape _ _ _ _ _ _ E) as (_ & _ & _ & Hz).
    destruct (Hz SIZE_MAX_nonzero eq_refl) as [-> HF].
    apply ht_inv_set_bucket with b; [exact Hinv|exact Hb| |simpl; lia].
    apply bucket_ok_push; [exact Hok|reflexivity|discriminate|exact HF].
  - apply ht_inv_set_bucket with b; [exact Hinv|exact Hb|exact Hok|lia].
Qed.

Lemma ht_inv_remove t k : ht_inv t -> ht_inv (snd (Hashtable.remove hash N k t)).
Proof.
  intros Hinv. destruct (ht_bucket_lookup t k Hinv) as [b [Hb Hg]].
  unfold Hashtable.remove. rewrite Hg.
  destruct (ThreadsafeList.remove_if _ _ b) as [c b'] eqn:E.
  destruct (remove_if_sublist _ _ _ _ _ E) as [Hs Hl].
  pose proof (remove_if_count _ _ _ _ _ E) as Hc.
  destruct Hinv as (Hlen & Hok & Hnum).
  destruct (Hok _ _ Hb) as (Hi & Hnd & Hv).
  pose proof (match_key_unique k b Hnd) as Hu.
  assert (Hok' : bucket_ok (bucket_index k) b').
  { split; [exact (Forall_sublist' _ _ _ Hs Hi)|split].
    - exact (sublist_NoDup _ _ Hnd (sublist_map _ _ _ Hs)).
    - exact (Forall_sublist' _ _ _ Hs Hv). }
  pose proof (length_bucket_le _ _ _ Hb).
  destruct (negb (c =? 0)) eqn:Hz; simpl;
    (apply ht_inv_set_bucket with b; [split; [exact Hlen|split; [exact Hok|exact Hnum]]|exact Hb|exact Hok'|]).
  - apply negb_true_iff, Nat.eqb_neq in Hz. lia.
  - apply negb_false_iff, Nat.eqb_eq in Hz. lia.
Qed.

Lemma ht_inv_get_or_insert t k s : ht_inv t -> ht_inv (snd (Hashtable.get_or_insert hash N k s t)).
Proof.
  intros Hinv. destruct (ht_bucket_lookup t k Hinv) as [b [Hb Hg]].
  unfold Hashtable.get_or_insert.
  destruct (Hashtable.get hash N k t); [exact Hinv|]. rewrite Hg.
  destruct (ThreadsafeList.find_first_if (Hashtable.match_key k) b) eqn:E; [exact Hinv|].
  simpl. apply ht_inv_set_bucket with b; [exact Hinv|exact Hb| |simpl; lia].
  apply bucket_ok_push; [exact (proj1 (proj2 Hinv) _ _ Hb)|reflexivity|discriminate|].
  apply find_none_forall. exact E.
Qed.

Lemma ht_inv_clear t : ht_inv t -> ht_inv (Hashtable.clear t).
Proof.
  intros (Hlen & _ & _). split; [simpl; rewrite length_map; exact Hlen|split].
  - intros i b Hb. simpl in Hb. rewrite list_lookup_fmap in Hb.
    destruct (Hashtable.buckets_ t !! i); simpl in Hb; [|discriminate].
    injection Hb as <-. split; [constructor|split; constructor].
  - simpl. clear Hlen. induction (Hashtable.buckets_ t) as [|x L IH]; [reflexivity|exact IH].
Qed.

Lemma ht_inv_run_ops t os : ht_inv t -> ht_inv (Hashtable.run_ops hash N t os).
Proof.
  unfold Hashtable.run_ops. revert t. induction os as [|o os IH]; intros t Hinv; [exact Hinv|].
  simpl. apply IH. destruct o; simpl.
  - apply ht_inv_insert; exact Hinv.
  - apply ht_inv_replace; exact Hinv.
  - apply ht_inv_insert_or_replace; exact Hinv.
  - apply ht_inv_remove; exact Hinv.
  - apply ht_inv_get_or_insert; exact Hinv.
  - apply ht_inv_clear; exact Hinv.
Qed.

(** Buckets [s], [s+1], ... with [bucket_ok] hold distinct keys between them. *)
Lemma buckets_ok_concat (L : list (list pair)) s :
  (forall i b, L !! i = Some b -> bucket_ok (s + i) b) ->
  NoDup (map Hashtable.key_ (concat L)) /\
  Forall (fun pr => s <= bucket_index (Hashtable.key_ pr)) (concat L) /\
  Forall (fun pr => Hashtable.value_ pr <> None) (concat L).
Proof.
  revert s. induction L as [|b L IH]; intros s HL.
  - simpl. split; [constructor|split; constructor].
  - destruct (HL 0 b eq_refl) as (Hi & Hnd & Hv). rewrite Nat.add_0_r in Hi.
    destruct (IH (S s)) as (Hnd' & Hge & Hv').
    { intros i b' Hb'. replace (S s + i) with (s + S i) by lia. exact (HL (S i) b' Hb'). }
    simpl. rewrite map_app. split; [|split; apply Forall_app; split].
    + apply NoDup_app. split; [exact Hnd|split; [|exact Hnd']].
      intros x Hx Hx'. apply list_elem_of_In, in_map_iff in Hx as [p [<- Hp]].
      apply list_elem_of_In, in_map_iff in Hx' as [p' [Hk Hp']].
      rewrite Forall_forall in Hi, Hge.
      specialize (Hi p (proj2 (list_elem_of_In _ _) Hp)).
      specialize (Hge p' (proj2 (list_elem_of_In _ _) Hp')).
      rewrite Hk, Hi in Hge. lia.
    + eapply Forall_impl; [exact Hi|]. intros pr ->. lia.
    + eapply Forall_impl; [exact Hge|]. intros pr Hpr. simpl in Hpr. lia.
    + exact Hv.
    + exact Hv'.
Qed.

Lemma ht_inv_props t :
  ht_inv t ->
  NoDup (Hashtable.all_keys t) /\
  Forall (fun pr => Hashtable.value_ pr <> None) (Hashtable.all_pairs t) /\
  Hashtable.size t = length (Hashtable.all_pairs t).
Proof.
  intros (_ & Hok & Hnum).
  destruct (buckets_ok_concat (Hashtable.buckets_ t) 0) as (Hnd & _ & Hv); [exact Hok|].
  split; [exact Hnd|split; [exact Hv|exact Hnum]].
Qed.


Implicit Types (k : K) (t src : table).

Lemma SIZE_MAX_ge1 : 1 <= N.to_nat SIZE_MAX.
Proof.
  replace SIZE_MAX with (N.succ (SIZE_MAX - 1)) by reflexivity.
  rewrite N2Nat.inj_succ. lia.
Qed.

Lemma match_key_self k (v : option V) : Hashtable.match_key k (Hashtable.mk_pair k v) = true.
Proof. unfold Hashtable.match_key. apply bool_decide_eq_true_2. reflexivity. Qed.

Lemma find_push_other k k' (v : option V) (b : list pair) :
  k <> k' ->
  find (Hashtable.match_key k') (Hashtable.mk_pair k v :: b) = find (Hashtable.match_key k') b.
Proof.
  intros Hne. assert (E : Hashtable.match_key k' (Hashtable.mk_pair k v) = false)
    by (unfold Hashtable.match_key; apply bool_decide_eq_false_2; simpl; exact Hne).
  simpl. rewrite E. reflexivity.
Qed.

Lemma find_key_some k (b : list pair) pr :
  find (Hashtable.match_key k) b = Some pr -> Hashtable.key_ pr = k /\ In pr b.
Proof.
  intros H. destruct (find_some _ _ H) as [Hin Hm].
  unfold Hashtable.match_key in Hm. apply bool_decide_eq_true in Hm. split; assumption.
Qed.

Lemma find_key_unique k (l : list pair) pr :
  NoDup (map Hashtable.key_ l) -> In pr l -> Hashtable.key_ pr = k ->
  find (Hashtable.match_key k) l = Some pr.
Proof.
  intros Hnd Hin Hk. induction l as [|x r IH]; [destruct Hin|].
  simpl in Hnd. apply NoDup_cons in Hnd as [Hx Hr]. simpl.
  destruct Hin as [<-|Hin].
  - unfold Hashtable.match_key. rewrite bool_decide_eq_true_2 by exact Hk. reflexivity.
  - destruct (Hashtable.match_key k x) eqn:E; [|exact (IH Hr Hin)].
    unfold Hashtable.match_key in E. apply bool_decide_eq_true in E. exfalso. apply Hx.
    apply list_elem_of_In, in_map_iff. exists pr. split; [congruence|exact Hin].
Qed.

Lemma find_forall_false {A} (p : A -> bool) (l : list A) :
  Forall (fun x => p x = false) l -> find p l = None.
Proof. induction 1 as [|x l Hx _ IH]; simpl; [reflexivity|rewrite Hx; exact IH]. Qed.

Lemma get_bucket_set_same t k b b' n :
  Hashtable.buckets_ t !! bucket_index k = Some b ->
  Hashtable.get_bucket hash N (Hashtable.set_bucket hash N t k b' n) k = b'.
Proof.
  intros Hb. unfold Hashtable.get_bucket, Hashtable.set_bucket. simpl.
  rewrite list_lookup_insert_eq by (apply lookup_lt_is_Some_1; eauto). reflexivity.
Qed.

(** Rewriting the bucket of [k] leaves [get k'] as it is when the new bucket
    answers [k'] as the old one did. *)
Lemma get_set_bucket_other t k k' b' n :
  (bucket_index k' = bucket_index k ->
   find (Hashtable.match_key k') b' = find (Hashtable.match_key k') (Hashtable.get_bucket hash N t k)) ->
  Hashtable.get hash N k' (Hashtable.set_bucket hash N t k b' n) = Hashtable.get hash N k' t.
Proof.
  intros Hf. destruct (decide (bucket_index k' = bucket_index k)) as [Heq|Hne].
  - specialize (Hf Heq). unfold Hashtable.get, ThreadsafeList.find_first_if.
    unfold Hashtable.get_bucket in *. rewrite Heq. unfold Hashtable.set_bucket. simpl.
    destruct (Hashtable.buckets_ t !! bucket_index k) as [b|] eqn:Hb.
    + rewrite list_lookup_insert_eq by (apply lookup_lt_is_Some_1; eauto).
      simpl. simpl in Hf. rewrite Hf. reflexivity.
    + rewrite list_insert_ge by (apply lookup_ge_None_1; exact Hb). rewrite Hb. reflexivity.
  - apply get_reads_bucket. apply set_bucket_frame. exact Hne.
Qed.

(** An operation called with [k] does not change what [get] returns for another key. *)
Lemma get_apply_op_other_key t o k k' :
  Hashtable.op_key o = Some k -> k <> k' ->
  Hashtable.get hash N k' (Hashtable.apply_op hash N t o) = Hashtable.get hash N k' t.
Proof.
  intros Hk Hne.
  assert (Hpk : forall x : pair, Hashtable.match_key k x = true -> Hashtable.match_key k' x = false).
  { intros x Hx. unfold Hashtable.match_key in *. apply bool_decide_eq_true in Hx.
    apply bool_decide_eq_false_2. congruence. }
  assert (Hsk : forall v : option V, Hashtable.match_key k' (Hashtable.pair_supplier k v tt) = false).
  { intros v. unfold Hashtable.match_key. apply bool_decide_eq_false_2. simpl. exact Hne. }
  destruct o as [k0 v|k0 v|k0 v|k0|k0 sup|]; simpl in Hk; try discriminate;
    injection Hk as ->; simpl.
  - unfold Hashtable.insert, Hashtable.do_insert.
    destruct (ThreadsafeList.match_none _ _); simpl; [|reflexivity].
    apply get_set_bucket_other. intros _. apply find_push_other. exact Hne.
  - unfold Hashtable.replace, Hashtable.do_replace.
    destruct (ThreadsafeList.replace_if _ _ _ _) as [c b'] eqn:E. simpl.
    apply get_set_bucket_other. intros _.
    change b' with (snd (c, b')). rewrite <- E. apply replace_if_find_other; auto.
  - unfold Hashtable.insert_or_replace, Hashtable.do_insert_or_replace.
    destruct (ThreadsafeList.replace_if _ _ _ _) as [c b'] eqn:E.
    assert (Hb' : find (Hashtable.match_key k') b' =
                  find (Hashtable.match_key k') (Hashtable.get_bucket hash N t k)).
    { change b' with (snd (c, b')). rewrite <- E. apply replace_if_find_other; auto. }
    destruct (c =? 0); simpl; apply get_set_bucket_other; intros _;
      [unfold ThreadsafeList.push_front; rewrite find_push_other by exact Hne|]; exact Hb'.
  - unfold Hashtable.remove.
    destruct (ThreadsafeList.remove_if _ _ _) as [c b'] eqn:E.
    assert (Hb' : find (Hashtable.match_key k') b' =
                  find (Hashtable.match_key k') (Hashtable.get_bucket hash N t k)).
    { change b' with (snd (c, b')). rewrite <- E. apply remove_if_find_other; auto. }
    destruct (negb (c =? 0)); simpl; apply get_set_bucket_other; intros _; exact Hb'.
  - unfold Hashtable.get_or_insert.
    destruct (Hashtable.get hash N k t); [reflexivity|].
    destruct (ThreadsafeList.find_first_if _ _); [reflexivity|]. simpl.
    apply get_set_bucket_other. intros _. apply find_push_other. exact Hne.
Qed.

Lemma ht_find_value t k b pr :
  ht_inv t -> Hashtable.buckets_ t !! bucket_index k = Some b ->
  find (Hashtable.match_key k) b = Some pr -> Hashtable.value_ pr <> None.
Proof.
  intros Hinv Hb Hf. destruct (proj1 (proj2 Hinv) _ _ Hb) as (_ & _ & Hv).
  rewrite Forall_forall in Hv. apply Hv. apply list_elem_of_In.
  exact (proj2 (find_key_some k b pr Hf)).
Qed.

(** [get] read through the bucket [b] of [k]. *)
Lemma ht_get_bucket t k b :
  Hashtable.get_bucket hash N t k = b ->
  Hashtable.get hash N k t =
  match find (Hashtable.match_key k) b with Some pr => Hashtable.value_ pr | None => None end.
Proof. intros Hg. unfold Hashtable.get. rewrite Hg. reflexivity. Qed.

Lemma ht_has_get t k :
  ht_inv t -> (Hashtable.has hash N k t = true <-> Hashtable.get hash N k t <> None).
Proof.
  intros Hinv. destruct (ht_bucket_lookup t k Hinv) as [b [Hb Hg]].
  rewrite (ht_get_bucket t k b Hg). unfold Hashtable.has, ThreadsafeList.match_any. rewrite Hg.
  destruct (find (Hashtable.match_key k) b) as [pr|] eqn:E.
  - pose proof (ht_find_value t k b pr Hinv Hb E) as Hv.
    split; [intros _; exact Hv|intros _].
    apply existsb_exists. exists pr. split; [exact (proj2 (find_key_some k b pr E))|].
    apply find_some in E. exact (proj2 E).
  - split; [|intros H; congruence]. intros H. exfalso.
    apply existsb_exists in H as [x [Hx Hm]]. rewrite (find_none _ _ E x Hx) in Hm. discriminate.
Qed.

(** Under the invariant the [SIZE_MAX]-limited scans of a bucket touch its one pair of key [k], if any. *)
Lemma bucket_count_le1 t k b :
  ht_inv t -> Hashtable.buckets_ t !! bucket_index k = Some b ->
  length (List.filter (Hashtable.match_key k) b) <= 1.
Proof.
  intros Hinv Hb. destruct (proj1 (proj2 Hinv) _ _ Hb) as (_ & Hnd & _).
  exact (match_key_unique k b Hnd).
Qed.

Lemma ht_has_bucket t k b :
  Hashtable.get_bucket hash N t k = b ->
  Hashtable.has hash N k t = negb (length (List.filter (Hashtable.match_key k) b) =? 0).
Proof.
  intros Hg. unfold Hashtable.has, ThreadsafeList.match_any. rewrite Hg.
  apply existsb_filter_length.
Qed.

Lemma insert_spec t k v :
  ht_inv t ->
  fst (Hashtable.insert hash N k v t) = negb (Hashtable.has hash N k t) /\
  (Hashtable.has hash N k t = false ->
     Hashtable.get hash N k (snd (Hashtable.insert hash N k v t)) = Some v /\
     Hashtable.size (snd (Hashtable.insert hash N k v t)) = S (Hashtable.size t)) /\
  (Hashtable.has hash N k t = true -> snd (Hashtable.insert hash N k v t) = t).
Proof.
  intros Hinv. destruct (ht_bucket_lookup t k Hinv) as [b [Hb Hg]].
  unfold Hashtable.insert, Hashtable.do_insert, ThreadsafeList.match_none.
  unfold Hashtable.has. rewrite Hg.
  destruct (ThreadsafeList.match_any (Hashtable.match_key k) b) eqn:E; simpl.
  - split; [reflexivity|split; [discriminate|reflexivity]].
  - split; [reflexivity|split; [|discriminate]]. intros _. split; [|reflexivity].
    unfold Hashtable.get, ThreadsafeList.find_first_if.
    rewrite (get_bucket_set_same t k b) by exact Hb.
    unfold ThreadsafeList.push_front. simpl. rewrite match_key_self. reflexivity.
Qed.

Lemma remove_spec t k :
  ht_inv t ->
  fst (Hashtable.remove hash N k t) = Hashtable.has hash N k t /\
  Hashtable.get hash N k (snd (Hashtable.remove hash N k t)) = None /\
  Hashtable.size (snd (Hashtable.remove hash N k t)) =
    (if Hashtable.has hash N k t then Hashtable.size t - 1 else Hashtable.size t).
Proof.
  intros Hinv. destruct (ht_bucket_lookup t k Hinv) as [b [Hb Hg]].
  pose proof (bucket_count_le1 t k b Hinv Hb) as Hu. pose proof SIZE_MAX_ge1.
  rewrite (ht_has_bucket t k b Hg).
  destruct (remove_if_spec (Hashtable.match_key k) SIZE_MAX b) as [Hc Hr].
  unfold Hashtable.remove. rewrite Hg.
  destruct (ThreadsafeList.remove_if (Hashtable.match_key k) SIZE_MAX b) as [c b'] eqn:E.
  cbn [fst snd] in Hc, Hr. rewrite Hr by lia. rewrite Nat.min_r in Hc by lia. subst c.
  destruct (negb (length (List.filter (Hashtable.match_key k) b) =? 0)); simpl;
    (split; [reflexivity|split; [|reflexivity]]);
    unfold Hashtable.get, ThreadsafeList.find_first_if;
    rewrite (get_bucket_set_same t k b) by exact Hb; rewrite find_filter_negb; reflexivity.
Qed.

Lemma replace_spec t k v :
  ht_inv t ->
  fst (Hashtable.replace hash N k v t) = Hashtable.has hash N k t /\
  Hashtable.get hash N k (snd (Hashtable.replace hash N k v t)) =
    (if Hashtable.has hash N k t then Some v else None) /\
  Hashtable.size (snd (Hashtable.replace hash N k v t)) = Hashtable.size t.
Proof.
  intros Hinv. destruct (ht_bucket_lookup t k Hinv) as [b [Hb Hg]].
  pose proof (bucket_count_le1 t k b Hinv Hb) as Hu. pose proof SIZE_MAX_ge1.
  rewrite (ht_has_bucket t k b Hg).
  destruct (replace_if_spec (Hashtable.match_key k) (Hashtable.pair_supplier k (Some v)) SIZE_MAX b)
    as [Hc Hr].
  unfold Hashtable.replace, Hashtable.do_replace. rewrite Hg.
  destruct (ThreadsafeList.replace_if _ _ SIZE_MAX b) as [c b'] eqn:E.
  cbn [fst snd] in Hc, Hr. rewrite Hr by lia. rewrite Nat.min_r in Hc by lia. subst c. simpl.
  split; [reflexivity|split; [|reflexivity]].
  unfold Hashtable.get, ThreadsafeList.find_first_if.
  rewrite (get_bucket_set_same t k b) by exact Hb.
  rewrite find_map_if by apply match_key_self. rewrite existsb_filter_length.
  destruct (negb _); reflexivity.
Qed.

Lemma insert_or_replace_spec t k v :
  ht_inv t ->
  fst (Hashtable.insert_or_replace hash N k v t) = true /\
  Hashtable.get hash N k (snd (Hashtable.insert_or_replace hash N k v t)) = Some v /\
  Hashtable.size (snd (Hashtable.insert_or_replace hash N k v t)) =
    (if Hashtable.has hash N k t then Hashtable.size t else S (Hashtable.size t)).
Proof.
  intros Hinv. destruct (ht_bucket_lookup t k Hinv) as [b [Hb Hg]].
  pose proof (bucket_count_le1 t k b Hinv Hb) as Hu. pose proof SIZE_MAX_ge1.
  rewrite (ht_has_bucket t k b Hg).
  destruct (replace_if_spec (Hashtable.match_key k) (Hashtable.pair_supplier k (Some v)) SIZE_MAX b)
    as [Hc Hr].
  unfold Hashtable.insert_or_replace, Hashtable.do_insert_or_replace. rewrite Hg.
  destruct (ThreadsafeList.replace_if _ _ SIZE_MAX b) as [c b'] eqn:E.
  cbn [fst snd] in Hc, Hr. rewrite Hr by lia. rewrite Nat.min_r in Hc by lia. subst c.
  unfold Hashtable.get, ThreadsafeList.find_first_if.
  destruct (length (List.filter (Hashtable.match_key k) b) =? 0) eqn:Hz; simpl;
    (split; [reflexivity|split; [|reflexivity]]);
    rewrite (get_bucket_set_same t k b) by exact Hb.
  - unfold ThreadsafeList.push_front. simpl. rewrite match_key_self. reflexivity.
  - rewrite find_map_if by apply match_key_self. rewrite existsb_filter_length, Hz. reflexivity.
Qed.

Lemma get_or_insert_spec t k s :
  ht_inv t ->
  match Hashtable.get hash N k t with
  | Some v => Hashtable.get_or_insert hash N k s t = (Some v, t)
  | None =>
      fst (Hashtable.get_or_insert hash N k s t) = Some (s tt) /\
      Hashtable.get hash N k (snd (Hashtable.get_or_insert hash N k s t)) = Some (s tt) /\
      Hashtable.size (snd (Hashtable.get_or_insert hash N k s t)) = S (Hashtable.size t)
  end.
Proof.
  intros Hinv. destruct (ht_bucket_lookup t k Hinv) as [b [Hb Hg]].
  unfold Hashtable.get_or_insert.
  destruct (Hashtable.get hash N k t) as [v|] eqn:Eg; [reflexivity|].
  rewrite Hg. unfold ThreadsafeList.find_first_if.
  destruct (find (Hashtable.match_key k) b) as [pr|] eqn:E.
  - exfalso. rewrite (ht_get_bucket t k b Hg), E in Eg.
    exact (ht_find_value t k b pr Hinv Hb E Eg).
  - simpl. split; [reflexivity|split; [|reflexivity]].
    unfold Hashtable.get, ThreadsafeList.find_first_if.
    rewrite (get_bucket_set_same t k b) by exact Hb.
    unfold ThreadsafeList.push_front. simpl. rewrite match_key_self. reflexivity.
Qed.

Lemma get_clear t k : Hashtable.get hash N k (Hashtable.clear t) = None.
Proof.
  unfold Hashtable.get, Hashtable.get_bucket, Hashtable.clear. simpl.
  rewrite list_lookup_fmap. destruct (Hashtable.buckets_ t !! bucket_index k); reflexivity.
Qed.

Lemma has_clear t k : Hashtable.has hash N k (Hashtable.clear t) = false.
Proof.
  unfold Hashtable.has, Hashtable.get_bucket, Hashtable.clear. simpl.
  rewrite list_lookup_fmap. destruct (Hashtable.buckets_ t !! bucket_index k); reflexivity.
Qed.

Lemma empty_no_key t :
  ht_inv t ->
  (Hashtable.empty t = true <-> forall k, Hashtable.has hash N k t = false).
Proof.
  intros Hinv. destruct Hinv as (Hlen & Hok & Hnum). unfold Hashtable.empty.
  rewrite Hnum, Nat.eqb_eq. split.
  - intros H0 k. unfold Hashtable.has, Hashtable.get_bucket.
    destruct (Hashtable.buckets_ t !! bucket_index k) as [b|] eqn:Hb; [|reflexivity].
    pose proof (length_bucket_le _ _ _ Hb) as Hl. rewrite H0 in Hl.
    destruct b; [reflexivity|simpl in Hl; lia].
  - intros Hno. destruct (concat (Hashtable.buckets_ t)) as [|pr r] eqn:Ec; [reflexivity|].
    exfalso. assert (Hin : In pr (concat (Hashtable.buckets_ t))) by (rewrite Ec; left; reflexivity).
    apply in_concat in Hin as [b [Hb Hin]].
    apply list_elem_of_In, list_elem_of_lookup_1 in Hb as [i Hi].
    destruct (Hok _ _ Hi) as (Hidx & _ & _). rewrite Forall_forall in Hidx.
    specialize (Hidx pr (proj2 (list_elem_of_In _ _) Hin)).
    specialize (Hno (Hashtable.key_ pr)).
    unfold Hashtable.has, Hashtable.get_bucket, ThreadsafeList.match_any in Hno.
    rewrite Hidx, Hi in Hno. simpl in Hno.
    assert (existsb (Hashtable.match_key (Hashtable.key_ pr)) b = true).
    { apply existsb_exists. exists pr. split; [exact Hin|].
      unfold Hashtable.match_key. apply bool_decide_eq_true_2. reflexivity. }
    congruence.
Qed.

Lemma read_and_map_spec {R} t k (m : V -> R) :
  ht_inv t -> Hashtable.read_and_map hash N k m t = Ok (option_map m (Hashtable.get hash N k t)).
Proof.
  intros Hinv. destruct (ht_bucket_lookup t k Hinv) as [b [Hb Hg]].
  rewrite (ht_get_bucket t k b Hg). unfold Hashtable.read_and_map, ThreadsafeList.find_first_if.
  rewrite Hg. destruct (find (Hashtable.match_key k) b) as [pr|] eqn:E; [|reflexivity].
  destruct (Hashtable.value_ pr) eqn:Ev; [reflexivity|].
  exfalso. exact (ht_find_value t k b pr Hinv Hb E Ev).
Qed.

Lemma set_first_value_keys k v (b : list pair) :
  map Hashtable.key_ (Hashtable.set_first_value k v b) = map Hashtable.key_ b.
Proof.
  induction b as [|x r IH]; [reflexivity|]. simpl.
  destruct (Hashtable.match_key k x); simpl; [reflexivity|rewrite IH; reflexivity].
Qed.

Lemma set_first_value_forall_key (P : K -> Prop) k v (b : list pair) :
  Forall (fun pr => P (Hashtable.key_ pr)) b ->
  Forall (fun pr => P (Hashtable.key_ pr)) (Hashtable.set_first_value k v b).
Proof.
  induction 1 as [|x r Hx Hr IH]; simpl; [constructor|].
  destruct (Hashtable.match_key k x); constructor; simpl; assumption.
Qed.

Lemma set_first_value_values k v (b : list pair) :
  Forall (fun pr => Hashtable.value_ pr <> None) b ->
  Forall (fun pr => Hashtable.value_ pr <> None) (Hashtable.set_first_value k v b).
Proof.
  induction 1 as [|x r Hx Hr IH]; simpl; [constructor|].
  destruct (Hashtable.match_key k x); constructor; simpl; try assumption; discriminate.
Qed.

Lemma set_first_value_length k v (b : list pair) :
  length (Hashtable.set_first_value k v b) = length b.
Proof. rewrite <- (length_map Hashtable.key_), set_first_value_keys, length_map. reflexivity. Qed.

Lemma set_first_value_find k v (b : list pair) pr :
  find (Hashtable.match_key k) b = Some pr ->
  find (Hashtable.match_key k) (Hashtable.set_first_value k v b) =
  Some (Hashtable.mk_pair (Hashtable.key_ pr) (Some v)).
Proof.
  induction b as [|x r IH]; simpl; [discriminate|].
  destruct (Hashtable.match_key k x) eqn:E.
  - intros H. injection H as <-. simpl.
    unfold Hashtable.match_key in *. simpl. rewrite E. reflexivity.
  - intros H. simpl. rewrite E. exact (IH H).
Qed.

Lemma set_first_value_find_other k k' v (b : list pair) :
  k <> k' ->
  find (Hashtable.match_key k') (Hashtable.set_first_value k v b) = find (Hashtable.match_key k') b.
Proof.
  intros Hne. induction b as [|x r IH]; [reflexivity|]. simpl.
  destruct (Hashtable.match_key k x) eqn:E; simpl.
  - unfold Hashtable.match_key in *. simpl. apply bool_decide_eq_true in E.
    rewrite !bool_decide_eq_false_2 by congruence. reflexivity.
  - rewrite IH. reflexivity.
Qed.

Lemma write_and_map_spec {R} t k (m : V -> V * R) :
  ht_inv t ->
  match Hashtable.get hash N k t with
  | None => Hashtable.write_and_map hash N k m t = Ok (None, t)
  | Some v =>
      exists t', Hashtable.write_and_map hash N k m t = Ok (Some (snd (m v)), t') /\
        ht_inv t' /\ Hashtable.get hash N k t' = Some (fst (m v)) /\
        (forall k', k <> k' -> Hashtable.get hash N k' t' = Hashtable.get hash N k' t) /\
        Hashtable.size t' = Hashtable.size t
  end.
Proof.
  intros Hinv. destruct (ht_bucket_lookup t k Hinv) as [b [Hb Hg]].
  rewrite (ht_get_bucket t k b Hg). unfold Hashtable.write_and_map, ThreadsafeList.find_first_if.
  rewrite Hg. destruct (find (Hashtable.match_key k) b) as [pr|] eqn:E; [|reflexivity].
  destruct (Hashtable.value_ pr) as [v|] eqn:Ev;
    [|exfalso; exact (ht_find_value t k b pr Hinv Hb E Ev)].
  destruct (m v) as [v' r] eqn:Em. simpl.
  eexists. split; [reflexivity|]. split; [|split; [|split]].
  - destruct (proj1 (proj2 Hinv) _ _ Hb) as (Hi & Hnd & Hv).
    apply ht_inv_set_bucket with b; [exact Hinv|exact Hb| |rewrite set_first_value_length; lia].
    split; [apply (set_first_value_forall_key (fun x => bucket_index x = bucket_index k)); exact Hi|].
    split; [rewrite set_first_value_keys; exact Hnd|apply set_first_value_values; exact Hv].
  - unfold Hashtable.get, ThreadsafeList.find_first_if.
    rewrite (get_bucket_set_same t k b) by exact Hb.
    rewrite (set_first_value_find k v' b pr E). reflexivity.
  - intros k' Hne. apply get_set_bucket_other. intros _. rewrite Hg.
    apply set_first_value_find_other. exact Hne.
  - reflexivity.
Qed.

Lemma get_new k : Hashtable.get hash N k (@Hashtable.new K V N) = None.
Proof.
  unfold Hashtable.get, Hashtable.get_bucket, Hashtable.new. simpl.
  destruct (repeat [] N !! bucket_index k) as [b|] eqn:E; [|reflexivity].
  apply list_elem_of_lookup_2 in E. apply list_elem_of_In, repeat_spec in E. subst b. reflexivity.
Qed.

Lemma get_all_pairs t k :
  ht_inv t ->
  Hashtable.get hash N k t =
  match find (Hashtable.match_key k) (Hashtable.all_pairs t) with
  | Some pr => Hashtable.value_ pr | None => None end.
Proof.
  intros Hinv. destruct (ht_bucket_lookup t k Hinv) as [b [Hb Hg]].
  destruct (ht_inv_props t Hinv) as (Hnd & _ & _). unfold Hashtable.all_keys in Hnd.
  rewrite (ht_get_bucket t k b Hg).
  destruct (find (Hashtable.match_key k) b) as [pr|] eqn:E.
  - destruct (find_key_some k b pr E) as [Hk Hin].
    rewrite (find_key_unique k _ pr Hnd); [reflexivity| |exact Hk].
    unfold Hashtable.all_pairs. apply in_concat. exists b. split; [|exact Hin].
    apply list_elem_of_In. eapply list_elem_of_lookup_2. exact Hb.
  - destruct (find (Hashtable.match_key k) (Hashtable.all_pairs t)) as [pr|] eqn:E2; [|reflexivity].
    exfalso. destruct (find_key_some k _ pr E2) as [Hk Hin].
    unfold Hashtable.all_pairs in Hin. apply in_concat in Hin as [b' [Hb' Hin]].
    apply list_elem_of_In, list_elem_of_lookup_1 in Hb' as [i Hi].
    destruct (proj1 (proj2 Hinv) _ _ Hi) as (Hidx & _ & _). rewrite Forall_forall in Hidx.
    specialize (Hidx pr (proj2 (list_elem_of_In _ _) Hin)). rewrite Hk in Hidx.
    rewrite Hidx, Hi in Hb. injection Hb as ->.
    pose proof (find_none _ _ E pr Hin) as Hf. unfold Hashtable.match_key in Hf.
    rewrite bool_decide_eq_false in Hf. contradiction.
Qed.

Lemma insert_all_spec ps t :
  ht_inv t -> Forall (fun pr => Hashtable.value_ pr <> None) ps ->
  NoDup (map Hashtable.key_ ps) ->
  Forall (fun pr => Hashtable.get hash N (Hashtable.key_ pr) t = None) ps ->
  exists t', Hashtable.insert_all hash N ps t = Ok t' /\ ht_inv t' /\
    (forall k, Hashtable.get hash N k t' =
       match find (Hashtable.match_key k) ps with
       | Some pr => Hashtable.value_ pr | None => Hashtable.get hash N k t end) /\
    Hashtable.size t' = Hashtable.size t + length ps.
Proof.
  revert t. induction ps as [|pr ps IH]; intros t Hinv Hv Hnd Hnew.
  - exists t. split; [reflexivity|split; [exact Hinv|split; [reflexivity|simpl; lia]]].
  - inversion Hv as [|? ? Hpr Hv']; subst. inversion Hnew as [|? ? Hgpr Hnew']; subst.
    simpl in Hnd. apply NoDup_cons in Hnd as [Hnin Hnd].
    destruct pr as [kp [v|]]; [|exfalso; apply Hpr; reflexivity]. simpl in *.
    destruct (insert_spec t kp v Hinv) as (_ & Hins & _).
    assert (Hhas : Hashtable.has hash N kp t = false).
    { destruct (Hashtable.has hash N kp t) eqn:Eh; [|reflexivity].
      apply (ht_has_get t kp Hinv) in Eh. contradiction. }
    destruct (Hins Hhas) as [Hget1 Hsize1].
    assert (Hother : forall k', kp <> k' ->
              Hashtable.get hash N k' (snd (Hashtable.insert hash N kp v t)) =
              Hashtable.get hash N k' t).
    { intros k' Hne. exact (get_apply_op_other_key t (Hashtable.op_insert kp v) kp k' eq_refl Hne). }
    pose proof (forall_key_ne kp ps Hnin) as Hps.
    destruct (IH (snd (Hashtable.insert hash N kp v t))) as (t' & E & Hinv' & Hg' & Hs');
      [apply ht_inv_insert; exact Hinv|exact Hv'|exact Hnd| |].
    { rewrite Forall_forall in Hnew', Hps |- *. intros pr Hin.
      rewrite Hother; [exact (Hnew' pr Hin)|].
      specialize (Hps pr Hin). unfold Hashtable.match_key in Hps.
      rewrite bool_decide_eq_false in Hps. congruence. }
    exists t'. split; [exact E|split; [exact Hinv'|split]].
    + intros k. rewrite Hg'. simpl.
      destruct (decide (kp = k)) as [<-|Hne].
      * rewrite match_key_self, find_forall_false by exact Hps. exact Hget1.
      * assert (Hm : Hashtable.match_key k (Hashtable.mk_pair kp (Some v)) = false)
          by (unfold Hashtable.match_key; apply bool_decide_eq_false_2; exact Hne).
        rewrite Hm. destruct (find (Hashtable.match_key k) ps); [reflexivity|].
        apply Hother. exact Hne.
    + rewrite Hs', Hsize1. simpl. lia.
Qed.

Lemma copy_construct_spec src :
  ht_inv src ->
  exists t', Hashtable.copy_construct hash N src = Ok t' /\ ht_inv t' /\
    (forall k, Hashtable.get hash N k t' = Hashtable.get hash N k src) /\
    Hashtable.size t' = Hashtable.size src.
Proof.
  intros Hinv. destruct (ht_inv_props src Hinv) as (Hnd & Hv & Hsz).
  destruct (insert_all_spec (Hashtable.all_pairs src) (Hashtable.new N))
    as (t' & E & Hinv' & Hg & Hs);
    [apply ht_inv_new|exact Hv|exact Hnd|apply Forall_forall; intros; apply get_new|].
  exists t'. split; [exact E|split; [exact Hinv'|split]].
  - intros k. rewrite Hg, get_new, (get_all_pairs src k Hinv). reflexivity.
  - rewrite Hs, Hsz. reflexivity.
Qed.

End HashtableInvariant.

(** C6: after any finite sequence of [insert], [replace],
    [insert_or_replace], [remove], [get_or_insert] and [clear] on a new map
    with [N > 0] buckets, no key occurs twice across the buckets, every
    stored pair has a non-null value, and [size()] is the total number of
    stored pairs. *)
Theorem hashtable_invariants {K V : Type} `{EqDecision K} (hash : K -> nat) (N : nat)
  (HN : 0 < N) (os : list (Hashtable.operation K V)) :
  let t := Hashtable.run_ops hash N (Hashtable.new N) os in
  NoDup (Hashtable.all_keys t) /\
  Forall (fun pr => Hashtable.value_ pr <> None) (Hashtable.all_pairs t) /\
  Hashtable.size t = length (Hashtable.all_pairs t).
Proof.
  intros t. apply ht_inv_props with hash N; try exact HN.
  apply ht_inv_run_ops; try exact HN. apply ht_inv_new; exact HN.
Qed.

Lemma hashtable_invariants_witness :
  0 < 3 /\
  (let t := Hashtable.run_ops tid_hash_id 3 (Hashtable.new 3)
              [Hashtable.op_insert 1 10%Z; Hashtable.op_insert 4 20%Z;
               Hashtable.op_insert_or_replace 1 30%Z; Hashtable.op_remove 4;
               Hashtable.op_get_or_insert 7 (fun _ => 5%Z)] in
   NoDup (Hashtable.all_keys t) /\
   Forall (fun pr => Hashtable.value_ pr <> None) (Hashtable.all_pairs t) /\
   Hashtable.size t = length (Hashtable.all_pairs t)).
Proof.
  split; [lia|]. apply (hashtable_invariants tid_hash_id 3). lia.
Defined.

(** C3 (as amended): the bucket count [N] is the template parameter of the
    map: a map made with [N] buckets keeps [N] buckets through any sequence
    of operations. Every call on a key [k] ([insert], [replace],
    [insert_or_replace], [remove], [get_or_insert], [get], [has],
    [read_and_map], [write_and_map]) reads and writes only bucket
    [hash(k) mod N]: it keeps the number of buckets, writes no other bucket,
    and its result and the bucket it leaves depend only on that bucket of
    the map it is given. The default of [N] is 61 in [mt/container] and 47
    in the [container] version that the thread pool includes. *)
Theorem hashtable_bucket_layout {K V R : Type} `{EqDecision K} (hash : K -> nat) (N : nat)
  (os : list (Hashtable.operation K V)) (k : K) (v : V) (sup : unit -> V)
  (mapper_r : V -> R) (mapper_w : V -> V * R) :
  length (Hashtable.buckets_ (Hashtable.run_ops hash N (Hashtable.new N) os)) = N /\
  Hashtable.bucket_local hash N k (fun t => Ok (Hashtable.insert hash N k v t)) /\
  Hashtable.bucket_local hash N k (fun t => Ok (Hashtable.replace hash N k v t)) /\
  Hashtable.bucket_local hash N k (fun t => Ok (Hashtable.insert_or_replace hash N k v t)) /\
  Hashtable.bucket_local hash N k
    (fun t : Hashtable.threadsafe_hashtable K V => Ok (Hashtable.remove hash N k t)) /\
  Hashtable.bucket_local hash N k (fun t => Ok (Hashtable.get_or_insert hash N k sup t)) /\
  Hashtable.bucket_local hash N k
    (fun t : Hashtable.threadsafe_hashtable K V => Ok (Hashtable.get hash N k t, t)) /\
  Hashtable.bucket_local hash N k
    (fun t : Hashtable.threadsafe_hashtable K V => Ok (Hashtable.has hash N k t, t)) /\
  Hashtable.bucket_local hash N k
    (fun t => let* r := Hashtable.read_and_map hash N k mapper_r t in Ok (r, t)) /\
  Hashtable.bucket_local hash N k (Hashtable.write_and_map hash N k mapper_w) /\
  default_N_mt_container = 61 /\ default_N_container = 47.
Proof.
  split; [rewrite run_ops_length; apply repeat_length|].
  split; [apply insert_bucket_local|].
  split; [apply replace_bucket_local|].
  split; [apply insert_or_replace_bucket_local|].
  split; [apply remove_bucket_local|].
  split; [apply get_or_insert_bucket_local|].
  split; [apply get_bucket_local|].
  split; [apply has_bucket_local|].
  split; [apply read_and_map_bucket_local|].
  split; [apply write_and_map_bucket_local|].
  split; reflexivity.
Qed.

(** C3 counterexample: nothing requires [N] to be prime (a map with 4
    buckets is a map of the code, which only recommends primes), and the
    map the thread pool uses defaults to 47 buckets, not 61. *)
Lemma hashtable_bucket_count_not_prime_61 :
  length (Hashtable.buckets_
            (Hashtable.run_ops tid_hash_id 4 (Hashtable.new (K:=nat) (V:=Z) 4)
               [Hashtable.op_insert 5 1%Z; Hashtable.op_insert 2 7%Z])) = 4 /\
  ~ Z.prime (Z.of_nat 4) /\
  Hashtable.get tid_hash_id 4 5
    (Hashtable.run_ops tid_hash_id 4 (Hashtable.new 4)
       [Hashtable.op_insert 5 1%Z; Hashtable.op_insert 2 7%Z]) = Some 1%Z /\
  default_N_container <> 61.
Proof.
  split; [reflexivity|]. split.
  - intros [_ Hp]. apply (Hp 2%Z); [simpl; lia|]. exists 2%Z. reflexivity.
  - split; [reflexivity|]. unfold default_N_container. discriminate.
Qed.

(** ** Tasks taken and added by the pool's steps *)

Section PoolTasks.
Variable tid_hash : nat -> nat.

Lemma concat_map_insert_perm {A B} (f : A -> list B) (L : list A) i x y :
  L !! i = Some x ->
  Permutation (concat (map f L) ++ f y) (concat (map f (<[i:=y]> L)) ++ f x).
Proof.
  intros Hx. assert (Hi : i < length L) by (apply lookup_lt_Some with x; exact Hx).
  rewrite (insert_take_drop L i y Hi).
  rewrite <- (take_drop_middle L i x Hx) at 1.
  rewrite !map_app, !concat_app. simpl. solve_Permutation.
Qed.

Lemma values_tasks_perm vs vs' :
  Permutation vs vs' ->
  Permutation (concat (map ThreadPool.task_packaged vs))
              (concat (map ThreadPool.task_packaged vs')).
Proof.
  induction 1 as [|v vs vs' _ IH|v w vs|vs vs' vs'' _ IH1 _ IH2]; simpl.
  - constructor.
  - apply Permutation_app_head. exact IH.
  - solve_Permutation.
  - etransitivity; [exact IH1|exact IH2].
Qed.

Lemma forall_perm {A} (P : A -> Prop) l l' : Permutation l l' -> Forall P l -> Forall P l'.
Proof.
  intros Hp HF. apply Forall_forall. intros x Hx.
  rewrite Forall_forall in HF. apply HF. apply list_elem_of_In.
  apply Permutation_in with l'; [symmetry; exact Hp|]. apply list_elem_of_In. exact Hx.
Qed.

Lemma values_pops p r p1 vs :
  Permutation (ThreadPool.queued_values p) (vs ++ ThreadPool.queued_values p1) ->
  concat (map ThreadPool.task_packaged vs) = ThreadPool.task_packaged r ->
  ThreadPool.futures_ p1 = ThreadPool.futures_ p -> ThreadPool.queue_ok p1 ->
  pops p r p1.
Proof.
  intros Hp Hvs Hh Hq. split; [|split; assumption].
  unfold ThreadPool.queued_tasks. rewrite (values_tasks_perm _ _ Hp).
  rewrite map_app, concat_app, Hvs. reflexivity.
Qed.

Lemma get_local_task_pops p i r p1 :
  ThreadPool.get_local_task p i = Ok (r, p1) -> ThreadPool.queue_ok p -> pops p r p1.
Proof.
  unfold ThreadPool.get_local_task.
  destruct (ThreadPool.local_task_queues_ p !! i) as [s|] eqn:Hs; [|discriminate].
  destruct (ThreadsafeStack.try_pop s) as [r' s'] eqn:Ep. intros E Hq.
  injection E as <- <-.
  unfold ThreadsafeStack.try_pop, ThreadsafeStack.do_pop in Ep.
  destruct (ThreadsafeStack.top_ s) as [|v rest] eqn:Ht.
  - injection Ep as <- <-. rewrite (list_insert_id _ _ _ Hs).
    apply values_pops with []; [reflexivity|reflexivity|reflexivity|exact Hq].
  - injection Ep as <- <-.
    apply values_pops with [v]; [|simpl; apply app_nil_r|reflexivity|exact Hq].
    unfold ThreadPool.queued_values, ThreadPool.set_locals. simpl.
    pose proof (concat_map_insert_perm ThreadsafeStack.top_ _ i s
                  (ThreadsafeStack.mk_stack rest (ThreadsafeStack.num_elements_ s - 1)) Hs) as Hp.
    rewrite Ht in Hp. simpl in Hp.
    assert (Hc : Permutation (concat (map ThreadsafeStack.top_ (ThreadPool.local_task_queues_ p)))
              (v :: concat (map ThreadsafeStack.top_
                 (<[i:=ThreadsafeStack.mk_stack rest (ThreadsafeStack.num_elements_ s - 1)]>
                    (ThreadPool.local_task_queues_ p))))).
    { apply Permutation_app_inv_r with rest. rewrite Hp. solve_Permutation. }
    rewrite Hc. solve_Permutation.
Qed.

Lemma get_global_task_pops p r p1 :
  ThreadPool.get_global_task p = (r, p1) -> ThreadPool.queue_ok p -> pops p r p1.
Proof.
  unfold ThreadPool.get_global_task.
  destruct (ThreadsafeQueue.try_pop (ThreadPool.global_task_queue_ p)) as [r' q'] eqn:Ep.
  intros E Hq. injection E as <- <-.
  unfold ThreadsafeQueue.try_pop, ThreadsafeQueue.do_pop, ThreadsafeQueue.head_is_tail in Ep.
  destruct Hq as [init Hi].
  destruct (length (ThreadsafeQueue.nodes (ThreadPool.global_task_queue_ p)) <=? 1) eqn:Hl.
  - injection Ep as <- <-.
    apply values_pops with []; [reflexivity|reflexivity|reflexivity|exists init; exact Hi].
  - rewrite Hi in Ep, Hl. destruct init as [|v init'].
    + simpl in Hl. discriminate.
    + simpl in Ep. injection Ep as <- <-.
      apply values_pops with [v]; [|simpl; apply app_nil_r|reflexivity|].
      * unfold ThreadPool.queued_values, ThreadPool.set_global. simpl. rewrite Hi. reflexivity.
      * exists init'. reflexivity.
Qed.

Lemma pops_none_trans p p1 r p2 : pops p None p1 -> pops p1 r p2 -> pops p r p2.
Proof.
  intros (H1 & Hh1 & _) (H2 & Hh2 & Hq2). split; [|split; [congruence|exact Hq2]].
  simpl in H1. etransitivity; [exact H1|exact H2].
Qed.

Lemma steal_from_pops p index i k r p1 :
  ThreadPool.steal_from p index i k = Ok (r, p1) -> ThreadPool.queue_ok p -> pops p r p1.
Proof.
  revert p i. induction k as [|k IH]; intros p i E Hq; simpl in E.
  - injection E as <- <-. split; [reflexivity|split; [reflexivity|exact Hq]].
  - destruct (ThreadPool.get_local_task p ((index + i) mod ThreadPool.num_threads_ p))
      as [[r1 p1']|e] eqn:Eg; simpl in E; [|discriminate].
    pose proof (get_local_task_pops _ _ _ _ Eg Hq) as Hp.
    destruct r1 as [t|].
    + injection E as <- <-. exact Hp.
    + apply pops_none_trans with p1'; [exact Hp|].
      apply (IH p1' (S i) E). exact (proj2 (proj2 Hp)).
Qed.

Lemma steal_task_pops p index r p1 :
  ThreadPool.steal_task p index = Ok (r, p1) -> ThreadPool.queue_ok p -> pops p r p1.
Proof. apply steal_from_pops. Qed.

Lemma same_ran p p1 p2 :
  Permutation (qtasks p) (qtasks p1) -> ThreadPool.futures_ p1 = ThreadPool.futures_ p ->
  ran p1 p2 -> ran p p2.
Proof.
  intros Hp Hh [[Hp2 Hh2]|[f [Hp2 Hc]]].
  - left. split; [etransitivity; [exact Hp|exact Hp2]|congruence].
  - right. exists f. split; [etransitivity; [exact Hp|exact Hp2]|rewrite <- Hh; exact Hc].
Qed.

Lemma run_popped_runs p r p1 :
  pops p r p1 -> runs_ok p (ThreadPool.run_popped r p1).
Proof.
  intros (Hp & Hh & Hq) b p2 E. destruct r as [t|]; simpl in E.
  - destruct (Task.call t (ThreadPool.futures_ p1)) as [h|e] eqn:Ec; simpl in E; [|discriminate].
    injection E as <- <-.
    destruct t as [[[f]|]]; simpl in Ec; [|discriminate].
    split; [exact Hq|split; [|discriminate]].
    right. exists f. split; [exact Hp|]. rewrite <- Hh. exact Ec.
  - injection E as <- <-. split; [exact Hq|].
    assert (Hs : Permutation (qtasks p) (qtasks p1) /\ ThreadPool.futures_ p1 = ThreadPool.futures_ p)
      by (split; [exact Hp|exact Hh]).
    split; [left; exact Hs|intros _; exact Hs].
Qed.

Lemma or_else_runs p m k :
  runs_ok p m -> (forall p1, ThreadPool.queue_ok p1 -> runs_ok p1 (k p1)) ->
  runs_ok p (ThreadPool.or_else m k).
Proof.
  intros Hm Hk b p' E. unfold ThreadPool.or_else in E.
  destruct m as [[b1 p1]|e]; simpl in E; [|discriminate].
  destruct (Hm b1 p1 eq_refl) as (Hq1 & Hr1 & Hs1).
  destruct b1.
  - injection E as <- <-. split; [exact Hq1|split; [exact Hr1|discriminate]].
  - destruct (Hs1 eq_refl) as [Hp1 Hh1].
    destruct (Hk p1 Hq1 b p' E) as (Hq' & Hr' & Hs').
    split; [exact Hq'|split; [exact (same_ran _ _ _ Hp1 Hh1 Hr')|]].
    intros Hb. destruct (Hs' Hb) as [Hp' Hh']. split; [etransitivity; eassumption|congruence].
Qed.

Lemma run_local_task_runs p i : ThreadPool.queue_ok p -> runs_ok p (ThreadPool.run_local_task p i).
Proof.
  intros Hq b p' E. unfold ThreadPool.run_local_task in E.
  destruct (ThreadPool.get_local_task p i) as [[r p1]|e] eqn:Eg; simpl in E; [|discriminate].
  exact (run_popped_runs _ _ _ (get_local_task_pops _ _ _ _ Eg Hq) b p' E).
Qed.

Lemma run_global_task_runs p : ThreadPool.queue_ok p -> runs_ok p (ThreadPool.run_global_task p).
Proof.
  intros Hq b p' E. unfold ThreadPool.run_global_task in E.
  destruct (ThreadPool.get_global_task p) as [r p1] eqn:Eg.
  exact (run_popped_runs _ _ _ (get_global_task_pops _ _ _ Eg Hq) b p' E).
Qed.

Lemma run_stolen_task_runs p i : ThreadPool.queue_ok p -> runs_ok p (ThreadPool.run_stolen_task p i).
Proof.
  intros Hq b p' E. unfold ThreadPool.run_stolen_task in E.
  destruct (ThreadPool.steal_task p i) as [[r p1]|e] eqn:Eg; simpl in E; [|discriminate].
  exact (run_popped_runs _ _ _ (steal_task_pops _ _ _ _ Eg Hq) b p' E).
Qed.

Lemma run_pending_task_runs p tid :
  ThreadPool.queue_ok p -> runs_ok p (ThreadPool.run_pending_task tid_hash p tid).
Proof.
  intros Hq. unfold ThreadPool.run_pending_task.
  destruct (ThreadPool.at_ tid_hash (ThreadPool.worker_index_lookup_ p) tid) as [i|].
  - apply or_else_runs; [apply run_local_task_runs; exact Hq|]. intros p1 Hq1.
    apply or_else_runs; [apply run_global_task_runs; exact Hq1|]. intros p2 Hq2.
    apply run_stolen_task_runs; exact Hq2.
  - apply or_else_runs; [apply run_global_task_runs; exact Hq|]. intros p1 Hq1.
    apply run_stolen_task_runs; exact Hq1.
Qed.

Lemma worker_iteration_runs p index p' :
  ThreadPool.worker_iteration p index = Ok p' -> ThreadPool.queue_ok p ->
  ThreadPool.queue_ok p' /\ ran p p'.
Proof.
  intros E Hq. unfold ThreadPool.worker_iteration in E.
  assert (Hr : runs_ok p (ThreadPool.or_else (ThreadPool.run_local_task p index) (fun p1 =>
                 ThreadPool.or_else (ThreadPool.run_global_task p1)
                   (fun p2 => ThreadPool.run_stolen_task p2 index)))).
  { apply or_else_runs; [apply run_local_task_runs; exact Hq|]. intros p1 Hq1.
    apply or_else_runs; [apply run_global_task_runs; exact Hq1|]. intros p2 Hq2.
    apply run_stolen_task_runs; exact Hq2. }
  destruct (ThreadPool.or_else _ _) as [[b p1]|e] eqn:Eo; simpl in E; [|discriminate].
  injection E as <-. destruct (Hr b p1 eq_refl) as (Hq' & Hr' & _). split; assumption.
Qed.

Lemma submit_pushes p tid C args fut p' :
  ThreadPool.queue_ok p -> ThreadPool.submit tid_hash p tid C args = Ok (fut, p') ->
  let n := length (states (ThreadPool.futures_ p)) in
  ThreadPool.queue_ok p' /\ fut = mk_future n /\
  ThreadPool.futures_ p' = mk_heap (states (ThreadPool.futures_ p) ++ [st_unset])
                                   (invoked (ThreadPool.futures_ p)) /\
  Permutation (qtasks p') (mk_packaged_task n (fun _ => C args) :: qtasks p).
Proof.
  intros [init Hi] E n. unfold ThreadPool.submit in E. fold n in E.
  set (t := Task.new (mk_packaged_task n (fun _ => C args))) in E.
  assert (Hv : forall vs, Permutation (ThreadPool.queued_values p') (Some t :: vs) ->
                 vs = ThreadPool.queued_values p ->
                 Permutation (qtasks p') (mk_packaged_task n (fun _ => C args) :: qtasks p)).
  { intros vs Hp ->. unfold ThreadPool.queued_tasks. rewrite (values_tasks_perm _ _ Hp).
    reflexivity. }
  destruct (ThreadPool.at_ _ _ tid) as [i|].
  - simpl in E. destruct (ThreadPool.local_task_queues_ p !! i) as [s|] eqn:Hs; [|discriminate].
    injection E as <- <-.
    split; [exists init; exact Hi|split; [reflexivity|split; [reflexivity|]]].
    apply (Hv (ThreadPool.queued_values p)); [|reflexivity].
    unfold ThreadPool.queued_values, ThreadPool.set_locals, ThreadPool.set_futures. simpl.
    pose proof (concat_map_insert_perm ThreadsafeStack.top_ _ i s
                  (ThreadsafeStack.push s t) Hs) as Hp.
    simpl in Hp.
    assert (Hc : Permutation
              (concat (map ThreadsafeStack.top_
                 (<[i:=ThreadsafeStack.push s t]> (ThreadPool.local_task_queues_ p))))
              (Some t :: concat (map ThreadsafeStack.top_ (ThreadPool.local_task_queues_ p)))).
    { apply Permutation_app_inv_r with (ThreadsafeStack.top_ s). rewrite <- Hp. solve_Permutation. }
    rewrite Hc. solve_Permutation.
  - injection E as <- <-.
    assert (Hn : ThreadsafeQueue.nodes (ThreadsafeQueue.push (ThreadPool.global_task_queue_ p) t)
                 = (init ++ [Some t]) ++ [None]).
    { unfold ThreadsafeQueue.push, ThreadsafeQueue.do_push. simpl. rewrite Hi.
      replace (length (init ++ [None]) - 1) with (length init + 0)
        by (rewrite length_app; simpl; lia).
      rewrite insert_app_r. reflexivity. }
    split; [exists (init ++ [Some t]); exact Hn|].
    split; [reflexivity|split; [reflexivity|]].
    apply (Hv (ThreadPool.queued_values p)); [|reflexivity].
    unfold ThreadPool.queued_values, ThreadPool.set_global, ThreadPool.set_futures.
    cbn [ThreadPool.global_task_queue_ ThreadPool.local_task_queues_].
    rewrite Hn, Hi. solve_Permutation.
Qed.

Lemma pool_step_effect p p' :
  ThreadPool.queue_ok p -> ThreadPool.pool_step tid_hash p p' ->
  ThreadPool.queue_ok p' /\
  (ran p p' \/
   exists (C : list Z -> Z) (args : list Z),
     ThreadPool.futures_ p' = mk_heap (states (ThreadPool.futures_ p) ++ [st_unset])
                                      (invoked (ThreadPool.futures_ p)) /\
     Permutation (qtasks p')
       (mk_packaged_task (length (states (ThreadPool.futures_ p))) (fun _ => C args) :: qtasks p)).
Proof.
  intros Hq Hs. destruct Hs as [p tid C args fut p' E|p tid b p' E|p index p' _ E].
  - destruct (submit_pushes _ _ _ _ _ _ Hq E) as (Hq' & _ & Hh & Hp).
    split; [exact Hq'|right; exists C, args; split; assumption].
  - destruct (run_pending_task_runs p tid Hq b p' E) as (Hq' & Hr & _).
    split; [exact Hq'|left; exact Hr].
  - destruct (worker_iteration_runs _ _ _ E Hq) as [Hq' Hr].
    split; [exact Hq'|left; exact Hr].
Qed.

Lemma cnt_perm (l l' : list packaged_task) n :
  Permutation l l' ->
  count_occ Nat.eq_dec (map pt_state l) n = count_occ Nat.eq_dec (map pt_state l') n.
Proof. intros Hp. apply Permutation_count_occ, Permutation_map. exact Hp. Qed.

Lemma count_occ_snoc (l : list nat) m n :
  count_occ Nat.eq_dec (l ++ [m]) n =
  count_occ Nat.eq_dec l n + (if Nat.eq_dec m n then 1 else 0).
Proof. rewrite count_occ_app. simpl. destruct (Nat.eq_dec m n); reflexivity. Qed.

Lemma task_inv_ran n g p p' :
  task_inv n g p -> ThreadPool.queue_ok p' -> ran p p' -> task_inv n g p'.
Proof.
  intros (_ & Hc) Hq' Hr. split; [exact Hq'|]. unfold ThreadPool.queued_states in *.
  destruct Hr as [[Hp Hh]|[f [Hp Hcall]]].
  - rewrite Hh, <- (cnt_perm _ _ n Hp).
    destruct Hc as [(H1 & H2 & H3 & H4)|(H1 & H2 & H3)].
    + left. split; [exact H1|split; [exact H2|split; [exact H3|]]].
      exact (forall_perm _ _ _ Hp H4).
    + right. split; [exact H1|split; [exact H2|exact H3]].
  - unfold packaged_task_call in Hcall.
    destruct (states (ThreadPool.futures_ p) !! pt_state f) as [[|v|e]|] eqn:Hf;
      try discriminate.
    injection Hcall as Hh'. rewrite <- Hh'. cbn [states invoked].
    pose proof (cnt_perm _ _ n Hp) as Hcnt. cbn [map] in Hcnt.
    rewrite count_occ_snoc.
    destruct (Nat.eq_dec (pt_state f) n) as [Hfn|Hfn].
    + destruct Hc as [(H1 & H2 & H3 & H4)|(H1 & H2 & H3)]; [|rewrite Hfn in Hf; congruence].
      assert (Hg : pt_fn f = g).
      { rewrite Forall_forall in H4. apply H4; [|exact Hfn]. apply list_elem_of_In.
        apply Permutation_in with (f :: qtasks p'); [symmetry; exact Hp|left; reflexivity]. }
      right. split; [|split].
      * rewrite Hfn, Hg. apply list_lookup_insert_eq.
        apply lookup_lt_Some with st_unset. exact H1.
      * rewrite H2. reflexivity.
      * rewrite count_occ_cons_eq in Hcnt by exact Hfn. lia.
    + rewrite count_occ_cons_neq in Hcnt by exact Hfn.
      rewrite list_lookup_insert_ne by exact Hfn. rewrite Nat.add_0_r, <- Hcnt.
      destruct Hc as [(H1 & H2 & H3 & H4)|(H1 & H2 & H3)].
      * left. split; [exact H1|split; [exact H2|split; [exact H3|]]].
        pose proof (forall_perm _ _ _ Hp H4) as H5. inversion H5. assumption.
      * right. split; [exact H1|split; [exact H2|exact H3]].
Qed.

Lemma task_inv_step n g p p' :
  task_inv n g p -> ThreadPool.pool_step tid_hash p p' -> task_inv n g p'.
Proof.
  intros Hi Hs. destruct (pool_step_effect p p' (proj1 Hi) Hs) as [Hq' [Hr|(C & args & Hh & Hp)]].
  - exact (task_inv_ran _ _ _ _ Hi Hq' Hr).
  - destruct Hi as (_ & Hc). split; [exact Hq'|]. unfold ThreadPool.queued_states.
    rewrite Hh, (cnt_perm _ _ n Hp). cbn [states invoked map].
    set (m := length (states (ThreadPool.futures_ p))).
    assert (Hlt : forall st, states (ThreadPool.futures_ p) !! n = Some st -> m <> n).
    { intros st Hst. apply lookup_lt_Some in Hst. unfold m. lia. }
    destruct Hc as [(H1 & H2 & H3 & H4)|(H1 & H2 & H3)].
    + left. pose proof (Hlt _ H1) as Hmn.
      rewrite count_occ_cons_neq by exact Hmn.
      split; [rewrite lookup_app_l by (apply lookup_lt_Some with st_unset; exact H1); exact H1|].
      split; [exact H2|split; [exact H3|]].
      apply forall_perm with (mk_packaged_task m (fun _ => C args) :: qtasks p);
        [symmetry; exact Hp|].
      constructor; [simpl; intros E; contradiction|exact H4].
    + right. pose proof (Hlt _ H1) as Hmn.
      rewrite count_occ_cons_neq by exact Hmn.
      split; [rewrite lookup_app_l by (apply lookup_lt_Some with (st_value (g tt)); exact H1); exact H1|].
      split; [exact H2|exact H3].
Qed.

Lemma task_inv_steps n g p p' :
  ThreadPool.pool_steps tid_hash p p' -> task_inv n g p -> task_inv n g p'.
Proof.
  induction 1 as [p|p1 p2 p3 Hs _ IH]; intros Hi; [exact Hi|].
  apply IH. exact (task_inv_step _ _ _ _ Hi Hs).
Qed.

Lemma task_inv_submit p tid C args fut p1 :
  ThreadPool.pool_wf p -> ThreadPool.submit tid_hash p tid C args = Ok (fut, p1) ->
  task_inv (fut_state fut) (fun _ => C args) p1.
Proof.
  intros (Hq & Hqs & Hinv) E.
  destruct (submit_pushes _ _ _ _ _ _ Hq E) as (Hq' & -> & Hh & Hp).
  cbn [fut_state]. set (n := length (states (ThreadPool.futures_ p))) in *.
  split; [exact Hq'|left]. rewrite Hh. cbn [states invoked].
  split; [apply list_lookup_middle; reflexivity|].
  split.
  - apply count_occ_not_In. intros Hin. rewrite Forall_forall in Hinv.
    specialize (Hinv n (proj2 (list_elem_of_In _ _) Hin)). unfold n in Hinv. lia.
  - unfold ThreadPool.queued_states. rewrite (cnt_perm _ _ n Hp). cbn [map pt_state].
    rewrite count_occ_cons_eq by reflexivity.
    split.
    + f_equal. apply count_occ_not_In. intros Hin. unfold ThreadPool.queued_states in Hqs.
      rewrite Forall_forall in Hqs.
      specialize (Hqs n (proj2 (list_elem_of_In _ _) Hin)). unfold n in Hqs. lia.
    + apply forall_perm with (mk_packaged_task n (fun _ => C args) :: qtasks p);
        [symmetry; exact Hp|].
      constructor; [intros _; reflexivity|].
      unfold ThreadPool.queued_states in Hqs. apply Forall_forall. intros f Hf Hfn.
      rewrite Forall_forall in Hqs.
      assert (Hm : pt_state f ∈ map pt_state (qtasks p)).
      { apply list_elem_of_In, in_map, list_elem_of_In. exact Hf. }
      specialize (Hqs _ Hm). unfold n in Hfn. lia.
Qed.

End PoolTasks.

Section Shutdown.

Lemma drop_values_cons v vs h :
  ThreadPool.drop_values (v :: vs) h =
  ThreadPool.drop_values vs (match v with Some t => Task.drop t h | None => h end).
Proof. reflexivity. Qed.

(** Dropping a node: it abandons the shared state of the task it holds. *)
Lemma drop_node_spec v h :
  invoked (match v with Some t => Task.drop t h | None => h end) = invoked h /\
  forall n,
    states (match v with Some t => Task.drop t h | None => h end) !! n =
    if bool_decide (n ∈ map pt_state (ThreadPool.task_packaged v)) then
      match states h !! n with
      | Some st_unset => Some (st_error broken_promise)
      | o => o
      end
    else states h !! n.
Proof.
  destruct v as [[[[f]|]]|]; unfold Task.drop; simpl; try (split; [reflexivity|intros n; reflexivity]).
  unfold packaged_task_drop.
  destruct (states h !! pt_state f) as [st|] eqn:Hf; [destruct st|];
    (split; [reflexivity|intros n]);
    (destruct (decide (n = pt_state f)) as [->|Hn];
     [rewrite bool_decide_eq_true_2 by (left; reflexivity)
     |rewrite bool_decide_eq_false_2 by (intros Hin; apply list_elem_of_In in Hin;
                                         destruct Hin as [|[]]; congruence)]);
    rewrite ?Hf; try reflexivity.
  - apply list_lookup_insert_eq. apply lookup_lt_Some with st_unset. exact Hf.
  - apply list_lookup_insert_ne. congruence.
Qed.

Lemma drop_values_invoked vs h : invoked (ThreadPool.drop_values vs h) = invoked h.
Proof.
  revert h. induction vs as [|v vs IH]; intros h; [reflexivity|].
  rewrite drop_values_cons, IH. apply drop_node_spec.
Qed.

Lemma drop_values_other vs h n :
  ~ n ∈ map pt_state (concat (map ThreadPool.task_packaged vs)) ->
  states (ThreadPool.drop_values vs h) !! n = states h !! n.
Proof.
  revert h. induction vs as [|v vs IH]; intros h Hn; [reflexivity|].
  rewrite drop_values_cons, IH.
  - rewrite (proj2 (drop_node_spec v h) n), bool_decide_eq_false_2; [reflexivity|].
    intros Hin. apply Hn. simpl. rewrite map_app. apply elem_of_app. left. exact Hin.
  - intros Hin. apply Hn. simpl. rewrite map_app. apply elem_of_app. right. exact Hin.
Qed.

Lemma drop_values_kept vs h n st :
  states h !! n = Some st -> st <> st_unset ->
  states (ThreadPool.drop_values vs h) !! n = Some st.
Proof.
  revert h. induction vs as [|v vs IH]; intros h Hst Hne; [exact Hst|].
  rewrite drop_values_cons. apply IH; [|exact Hne].
  rewrite (proj2 (drop_node_spec v h) n), Hst.
  destruct (bool_decide _); [destruct st; [contradiction| |]|]; reflexivity.
Qed.

Lemma drop_values_broken vs h n :
  n ∈ map pt_state (concat (map ThreadPool.task_packaged vs)) ->
  states h !! n = Some st_unset ->
  states (ThreadPool.drop_values vs h) !! n = Some (st_error broken_promise).
Proof.
  revert h. induction vs as [|v vs IH]; intros h Hn Hst; [inversion Hn|].
  rewrite drop_values_cons. simpl in Hn. rewrite map_app in Hn.
  apply elem_of_app in Hn as [Hn|Hn].
  - apply drop_values_kept; [|discriminate].
    rewrite (proj2 (drop_node_spec v h) n), bool_decide_eq_true_2 by exact Hn.
    rewrite Hst. reflexivity.
  - destruct (bool_decide (n ∈ map pt_state (ThreadPool.task_packaged v))) eqn:Hb.
    + apply drop_values_kept; [|discriminate].
      rewrite (proj2 (drop_node_spec v h) n), Hb, Hst. reflexivity.
    + apply IH; [exact Hn|]. rewrite (proj2 (drop_node_spec v h) n), Hb. exact Hst.
Qed.

Lemma drop_stacks (L : list (ThreadsafeStack.threadsafe_stack Task.task)) h :
  fold_left (fun h s => ThreadPool.drop_values (ThreadsafeStack.top_ s) h) L h =
  ThreadPool.drop_values (concat (map ThreadsafeStack.top_ L)) h.
Proof.
  revert h. induction L as [|s L IH]; intros h; [reflexivity|].
  simpl. rewrite IH. unfold ThreadPool.drop_values. rewrite fold_left_app. reflexivity.
Qed.

(** The heap [~thread_pool] leaves: every queued node dropped. *)
Lemma destroy_heap p :
  snd (ThreadPool.destroy p) =
  ThreadPool.drop_values (concat (map ThreadsafeStack.top_ (ThreadPool.local_task_queues_ p)) ++
                          ThreadsafeQueue.nodes (ThreadPool.global_task_queue_ p))
                         (ThreadPool.futures_ p).
Proof.
  unfold ThreadPool.destroy. simpl. rewrite drop_stacks.
  unfold ThreadPool.drop_values at 3. rewrite fold_left_app. reflexivity.
Qed.

Lemma destroy_queued p n :
  n ∈ map pt_state (concat (map ThreadPool.task_packaged
        (concat (map ThreadsafeStack.top_ (ThreadPool.local_task_queues_ p)) ++
         ThreadsafeQueue.nodes (ThreadPool.global_task_queue_ p)))) <->
  In n (ThreadPool.queued_states p).
Proof.
  rewrite list_elem_of_In. unfold ThreadPool.queued_states, ThreadPool.queued_tasks.
  split; apply Permutation_in, Permutation_map, values_tasks_perm;
    unfold ThreadPool.queued_values; [|symmetry]; apply Permutation_app_comm.
Qed.

End Shutdown.

(** C1: a callable [C] submitted with its bound arguments [args] to a
    well-formed pool: once its future is ready in a later state of the pool
    (after any submissions, [run_pending_task] calls and worker
    iterations), taking it returns [C args], and [C] has been invoked
    exactly once for that future. *)
Theorem submit_take_returns_result (tid_hash : nat -> nat) p tid C args fut p1 p2 :
  ThreadPool.pool_wf p ->
  ThreadPool.submit tid_hash p tid C args = Ok (fut, p1) ->
  ThreadPool.pool_steps tid_hash p1 p2 ->
  take fut (ThreadPool.futures_ p2) <> Blocks ->
  take fut (ThreadPool.futures_ p2) = Taken (C args) /\
  count_occ Nat.eq_dec (invoked (ThreadPool.futures_ p2)) (fut_state fut) = 1.
Proof.
  intros Hwf Hs Hsteps Hready.
  pose proof (task_inv_steps tid_hash _ _ _ _ Hsteps (task_inv_submit tid_hash _ _ _ _ _ _ Hwf Hs))
    as (_ & [(H1 & _)|(H1 & H2 & _)]); unfold take in *; rewrite H1 in *.
  - exfalso. apply Hready. reflexivity.
  - split; [reflexivity|exact H2].
Qed.

Lemma submit_take_returns_result_witness :
  exists fut p1 p2,
    ThreadPool.pool_wf example_pool /\
    ThreadPool.submit tid_hash_id example_pool 99 sum_args [40; 2]%Z = Ok (fut, p1) /\
    ThreadPool.pool_steps tid_hash_id p1 p2 /\
    take fut (ThreadPool.futures_ p2) <> Blocks /\
    (take fut (ThreadPool.futures_ p2) = Taken (sum_args [40; 2]%Z) /\
     count_occ Nat.eq_dec (invoked (ThreadPool.futures_ p2)) (fut_state fut) = 1).
Proof.
  assert (Hwf : ThreadPool.pool_wf example_pool)
    by (split; [exists []; reflexivity|split; vm_compute; constructor]).
  do 3 eexists.
  split; [exact Hwf|]. split; [reflexivity|]. split.
  { eapply ThreadPool.steps_cons; [|apply ThreadPool.steps_refl].
    eapply (ThreadPool.step_run_pending tid_hash_id _ 99 true). reflexivity. }
  split; [vm_compute; discriminate|].
  eapply (submit_take_returns_result tid_hash_id example_pool 99 sum_args [40; 2]%Z).
  - exact Hwf.
  - reflexivity.
  - eapply ThreadPool.steps_cons; [|apply ThreadPool.steps_refl].
    eapply (ThreadPool.step_run_pending tid_hash_id _ 99 true). reflexivity.
  - vm_compute. discriminate.
Defined.

(** C5: [~thread_pool] on a pool reached from a well-formed one by a
    submission of [C] and any later steps: the end flag is set and every
    worker is joined; no task is run ([invoked] is unchanged); if the task
    of the future is still queued, it is dropped unrun and taking the
    future raises [broken_promise] instead of blocking; otherwise the
    future holds [C args]. *)
Theorem destroy_drops_queued_tasks (tid_hash : nat -> nat) p tid C args fut p1 p2 p3 h :
  ThreadPool.pool_wf p ->
  ThreadPool.submit tid_hash p tid C args = Ok (fut, p1) ->
  ThreadPool.pool_steps tid_hash p1 p2 ->
  ThreadPool.destroy p2 = (p3, h) ->
  ThreadPool.end_flag_ p3 = true /\
  Forall (fun w => ThreadPool.joinable w = false) (ThreadPool.worker_threads_ p3) /\
  invoked h = invoked (ThreadPool.futures_ p2) /\
  (In (fut_state fut) (ThreadPool.queued_states p2) ->
     count_occ Nat.eq_dec (invoked h) (fut_state fut) = 0 /\ take fut h = Raised broken_promise) /\
  (~ In (fut_state fut) (ThreadPool.queued_states p2) -> take fut h = Taken (C args)).
Proof.
  intros Hwf Hs Hsteps E.
  pose proof (task_inv_steps tid_hash _ _ _ _ Hsteps (task_inv_submit tid_hash _ _ _ _ _ _ Hwf Hs))
    as (_ & Hc).
  assert (Hh : h = snd (ThreadPool.destroy p2)) by (rewrite E; reflexivity).
  assert (Hp3 : p3 = fst (ThreadPool.destroy p2)) by (rewrite E; reflexivity).
  rewrite destroy_heap in Hh. subst h p3.
  split; [reflexivity|]. split.
  { apply Forall_forall. intros w Hw. simpl in Hw.
    apply list_elem_of_In, in_map_iff in Hw as [w0 [<- _]]. reflexivity. }
  split; [apply drop_values_invoked|]. split.
  - intros Hin. destruct Hc as [(H1 & H2 & _)|(_ & _ & H3)].
    + rewrite drop_values_invoked. split; [exact H2|].
      unfold take. rewrite drop_values_broken; [reflexivity| |exact H1].
      apply destroy_queued. exact Hin.
    + apply count_occ_not_In in H3. contradiction.
  - intros Hnin. destruct Hc as [(_ & _ & H3 & _)|(H1 & _ & _)].
    + exfalso. apply Hnin. apply (count_occ_In Nat.eq_dec). lia.
    + unfold take. rewrite (drop_values_kept _ _ _ _ H1); [reflexivity|discriminate].
Qed.

Lemma destroy_drops_queued_tasks_witness :
  exists fut p1 p3 h,
    ThreadPool.pool_wf example_pool /\
    ThreadPool.submit tid_hash_id example_pool 10 sum_args [1; 2]%Z = Ok (fut, p1) /\
    ThreadPool.pool_steps tid_hash_id p1 p1 /\
    ThreadPool.destroy p1 = (p3, h) /\
    In (fut_state fut) (ThreadPool.queued_states p1) /\
    (ThreadPool.end_flag_ p3 = true /\
     Forall (fun w => ThreadPool.joinable w = false) (ThreadPool.worker_threads_ p3) /\
     invoked h = invoked (ThreadPool.futures_ p1) /\
     (In (fut_state fut) (ThreadPool.queued_states p1) ->
        count_occ Nat.eq_dec (invoked h) (fut_state fut) = 0 /\
        take fut h = Raised broken_promise) /\
     (~ In (fut_state fut) (ThreadPool.queued_states p1) ->
        take fut h = Taken (sum_args [1; 2]%Z))).
Proof.
  assert (Hwf : ThreadPool.pool_wf example_pool)
    by (split; [exists []; reflexivity|split; vm_compute; constructor]).
  do 4 eexists.
  split; [exact Hwf|]. split; [reflexivity|]. split; [apply ThreadPool.steps_refl|].
  split; [reflexivity|]. split; [vm_compute; left; reflexivity|].
  eapply (destroy_drops_queued_tasks tid_hash_id example_pool 10 sum_args [1; 2]%Z).
  - exact Hwf.
  - reflexivity.
  - apply ThreadPool.steps_refl.
  - reflexivity.
Defined.

(** * Further properties of the containers, the map and the pool *)

(** ** threadsafe_stack and threadsafe_queue: [clear], [empty], [size], copies *)
Section StackQueueExtra.
Context {T : Type}.

Lemma stack_pop_all_spec fuel (s : ThreadsafeStack.threadsafe_stack T) :
  length (ThreadsafeStack.top_ s) <= fuel ->
  ThreadsafeStack.pop_all fuel s =
  ThreadsafeStack.mk_stack [] (ThreadsafeStack.num_elements_ s - length (ThreadsafeStack.top_ s)).
Proof.
  revert s. induction fuel as [|f IH]; intros [top n] Hf; simpl in *.
  - destruct top; [|simpl in Hf; lia]. simpl. rewrite Nat.sub_0_r. reflexivity.
  - destruct top as [|v rest]; simpl; [rewrite Nat.sub_0_r; reflexivity|].
    rewrite IH by (simpl in *; lia). simpl. f_equal. lia.
Qed.

Lemma stack_copy_nodes_ok (ns : list (option T)) :
  Forall (fun v => v <> None) ns -> ThreadsafeStack.copy_nodes ns = Ok ns.
Proof.
  induction 1 as [|[x|] rest Hv _ IH]; [reflexivity| |congruence].
  simpl. rewrite IH. reflexivity.
Qed.

Lemma stack_reachable_ok (s : ThreadsafeStack.threadsafe_stack T) :
  stack_reachable s ->
  ThreadsafeStack.num_elements_ s = length (ThreadsafeStack.top_ s) /\
  Forall (fun v => v <> None) (ThreadsafeStack.top_ s).
Proof.
  induction 1 as [|s x _ [Hn Hv]|s _ [Hn Hv]|s r s' _ [Hn Hv] E|s _ [Hn Hv]|s s' _ [Hn Hv] E].
  - split; [reflexivity|constructor].
  - simpl. split; [rewrite Hn; reflexivity|constructor; [discriminate|exact Hv]].
  - destruct s as [[|v rest] n]; simpl in *; [split; assumption|].
    inversion Hv; subst. split; [lia|assumption].
  - destruct s as [[|v rest] n]; simpl in *; [discriminate|].
    injection E as <- <-. inversion Hv; subst. simpl. split; [lia|assumption].
  - unfold ThreadsafeStack.clear. rewrite stack_pop_all_spec by lia. simpl.
    split; [lia|constructor].
  - unfold ThreadsafeStack.copy_construct in E. rewrite stack_copy_nodes_ok in E by exact Hv.
    simpl in E. injection E as <-. simpl. split; assumption.
Qed.

Lemma queue_head_is_tail_iff (q : ThreadsafeQueue.threadsafe_queue T) xs :
  ThreadsafeQueue.nodes q = map Some xs ++ [None] ->
  ThreadsafeQueue.head_is_tail q = true <-> xs = [].
Proof.
  intros Hq. unfold ThreadsafeQueue.head_is_tail. rewrite Hq, length_app, length_map.
  simpl. rewrite Nat.leb_le. destruct xs; simpl; split; intros; try lia; try discriminate; reflexivity.
Qed.

Lemma queue_pop_all_spec fuel (q : ThreadsafeQueue.threadsafe_queue T) xs :
  ThreadsafeQueue.nodes q = map Some xs ++ [None] -> length xs < fuel ->
  ThreadsafeQueue.pop_all fuel q =
  ThreadsafeQueue.mk_queue [None] (ThreadsafeQueue.num_elements_ q - length xs).
Proof.
  revert q xs. induction fuel as [|f IH]; intros [nds n] xs Hq Hf; [lia|].
  simpl in Hq. subst nds. simpl.
  destruct xs as [|x xs].
  - unfold ThreadsafeQueue.head_is_tail. simpl. rewrite Nat.sub_0_r. reflexivity.
  - unfold ThreadsafeQueue.head_is_tail. simpl. rewrite length_app, length_map. simpl.
    replace (length xs + 1 <=? 0)%nat with false by (symmetry; apply Nat.leb_gt; lia).
    simpl. rewrite (IH _ xs) by (simpl in *; auto with lia). simpl. f_equal. lia.
Qed.

Lemma queue_copy_nodes_id (ns : list (option T)) : ThreadsafeQueue.copy_nodes ns = ns.
Proof. induction ns as [|[x|] rest IH]; simpl; rewrite ?IH; reflexivity. Qed.

(** A reachable queue is its values, then the dummy node, and counts them. *)
Lemma queue_reachable_holds (q : ThreadsafeQueue.threadsafe_queue T) :
  queue_reachable q ->
  exists xs, ThreadsafeQueue.nodes q = map Some xs ++ [None] /\
             ThreadsafeQueue.num_elements_ q = length xs.
Proof.
  induction 1 as [|q x _ [xs [Hq Hn]]|q _ [xs [Hq Hn]]|q r q' _ [xs [Hq Hn]] E|q _ [xs [Hq Hn]]|q _ [xs [Hq Hn]]].
  - exists []. split; reflexivity.
  - exists (xs ++ [x]). unfold ThreadsafeQueue.push, ThreadsafeQueue.do_push. simpl.
    rewrite Hq, queue_push_insert, map_app, length_app, Hn. simpl.
    rewrite <- app_assoc. split; [reflexivity|lia].
  - unfold ThreadsafeQueue.try_pop. destruct (ThreadsafeQueue.head_is_tail q) eqn:Ht.
    + exists xs. split; assumption.
    + destruct xs as [|x xs]; [pose proof (proj2 (queue_head_is_tail_iff q [] Hq) eq_refl); congruence|].
      exists xs. destruct q as [nds n]. simpl in *. subst nds. simpl. split; [reflexivity|lia].
  - unfold ThreadsafeQueue.wait_and_pop in E. destruct (ThreadsafeQueue.head_is_tail q) eqn:Ht;
      [discriminate|]. injection E as E.
    destruct xs as [|x xs]; [pose proof (proj2 (queue_head_is_tail_iff q [] Hq) eq_refl); congruence|].
    exists xs. destruct q as [nds n]. simpl in *. subst nds. simpl in E.
    injection E as <- <-. simpl. split; [reflexivity|lia].
  - exists []. unfold ThreadsafeQueue.clear. rewrite (queue_pop_all_spec _ _ xs Hq)
      by (rewrite Hq, length_app, length_map; simpl; lia).
    simpl. split; [reflexivity|lia].
  - exists xs. unfold ThreadsafeQueue.copy_construct. simpl. rewrite queue_copy_nodes_id.
    split; assumption.
Qed.

End StackQueueExtra.

(** ** thread_pool: the constructor's worker map and [steal_task] *)

Lemma take_lookup_nth (tids : list nat) i j :
  i < j -> j <= length tids -> firstn j tids !! i = Some (nth i tids 0).
Proof.
  intros Hi Hj. rewrite lookup_take_lt by exact Hi.
  destruct (nth_lookup_or_length tids i 0) as [H|H]; [exact H|lia].
Qed.

Lemma map_nth_seq_take (tids : list nat) j :
  j <= length tids -> map (fun i => nth i tids 0) (seq 0 j) = firstn j tids.
Proof.
  induction j as [|j IH]; intros Hj; [reflexivity|].
  destruct (lookup_lt_is_Some_2 tids j) as [x Hx]; [lia|].
  rewrite seq_S, map_app, IH by lia. rewrite (take_S_r _ _ _ Hx). simpl.
  rewrite (nth_lookup_Some _ _ _ _ Hx). reflexivity.
Qed.

Lemma default_N_container_pos : 0 < default_N_container.
Proof. unfold default_N_container. lia. Qed.

(** The loop of the constructor: after the entries [tids[0] -> 0 .. tids[j-1] -> j-1]. *)
Lemma pool_lookup_fold (tid_hash : nat -> nat) (tids : list nat) j :
  j <= length tids -> NoDup (firstn j tids) ->
  let t := fold_left
      (fun t i => snd (Hashtable.insert tid_hash default_N_container (nth i tids 0) i t))
      (seq 0 j) (Hashtable.new default_N_container) in
  ht_inv tid_hash default_N_container t /\
  (forall i, i < j -> Hashtable.get tid_hash default_N_container (nth i tids 0) t = Some i) /\
  (forall tid, tid ∉ firstn j tids -> Hashtable.get tid_hash default_N_container tid t = None) /\
  Hashtable.size t = j.
Proof.
  pose proof default_N_container_pos as HN.
  induction j as [|j IH]; intros Hj Hnd t.
  - split; [apply ht_inv_new|split; [intros; lia|split; [intros; apply get_new|reflexivity]]].
  - destruct (lookup_lt_is_Some_2 tids j) as [x Hx]; [lia|].
    assert (Hnth : nth j tids 0 = x) by (apply nth_lookup_Some; exact Hx).
    pose proof Hnd as Hnd'. rewrite (take_S_r _ _ _ Hx) in Hnd'.
    apply NoDup_app in Hnd' as (Hnd0 & Hdis & _).
    assert (Hxn : x ∉ firstn j tids) by (intros Hin; apply (Hdis x Hin); constructor).
    destruct (IH ltac:(lia) Hnd0) as (Hinv & Hin & Hout & Hsz).
    subst t. rewrite seq_S, fold_left_app. cbn [fold_left Nat.add]. rewrite Hnth.
    set (t := fold_left _ (seq 0 j) _) in *.
    assert (Hh0 : Hashtable.has tid_hash default_N_container x t = false).
    { destruct (Hashtable.has tid_hash default_N_container x t) eqn:E; [|reflexivity].
      apply (ht_has_get tid_hash default_N_container HN t x Hinv) in E.
      exfalso. apply E. apply Hout. exact Hxn. }
    destruct (insert_spec tid_hash default_N_container HN t x j Hinv) as (_ & Hins & _).
    destruct (Hins Hh0) as [Hget Hsize].
    split; [apply ht_inv_insert; assumption|split; [|split]].
    + intros i Hi. destruct (decide (i = j)) as [->|Hne]; [rewrite Hnth; exact Hget|].
      transitivity (Hashtable.get tid_hash default_N_container (nth i tids 0) t).
      * apply (get_apply_op_other_key tid_hash default_N_container t (Hashtable.op_insert x j) x);
          [reflexivity|].
        intros Heq. apply Hxn. rewrite Heq. apply list_elem_of_lookup_2 with i.
        apply take_lookup_nth; lia.
      * apply Hin. lia.
    + intros tid Htid. rewrite (take_S_r _ _ _ Hx) in Htid.
      transitivity (Hashtable.get tid_hash default_N_container tid t).
      * apply (get_apply_op_other_key tid_hash default_N_container t (Hashtable.op_insert x j) x);
          [reflexivity|].
        intros <-. apply Htid. apply elem_of_app. right. constructor.
      * apply Hout. intros Hin'. apply Htid. apply elem_of_app. left. exact Hin'.
    + rewrite Hsize, Hsz. reflexivity.
Qed.

Lemma mod_shift_ne index i n : 0 < i < n -> (index + i) mod n <> index.
Proof.
  intros Hi Heq. pose proof (Nat.div_mod (index + i) n ltac:(lia)) as Hd.
  rewrite Heq in Hd. remember ((index + i) / n) as q. destruct q as [|q]; nia.
Qed.

Lemma get_local_task_frame p j r p1 :
  ThreadPool.get_local_task p j = Ok (r, p1) ->
  (forall m, m <> j -> ThreadPool.local_task_queues_ p1 !! m = ThreadPool.local_task_queues_ p !! m) /\
  ThreadPool.global_task_queue_ p1 = ThreadPool.global_task_queue_ p /\
  ThreadPool.futures_ p1 = ThreadPool.futures_ p /\
  ThreadPool.num_threads_ p1 = ThreadPool.num_threads_ p.
Proof.
  unfold ThreadPool.get_local_task.
  destruct (ThreadPool.local_task_queues_ p !! j) as [s|]; [|discriminate].
  destruct (ThreadsafeStack.try_pop s) as [r' s']. intros E. injection E as <- <-.
  simpl. split; [|split; [reflexivity|split; reflexivity]].
  intros m Hm. apply list_lookup_insert_ne. congruence.
Qed.

Lemma steal_from_frame p index i k r p' :
  1 <= i -> i + k <= ThreadPool.num_threads_ p ->
  ThreadPool.steal_from p index i k = Ok (r, p') ->
  ThreadPool.local_task_queues_ p' !! index = ThreadPool.local_task_queues_ p !! index /\
  ThreadPool.global_task_queue_ p' = ThreadPool.global_task_queue_ p /\
  ThreadPool.futures_ p' = ThreadPool.futures_ p /\
  ThreadPool.num_threads_ p' = ThreadPool.num_threads_ p.
Proof.
  revert p i. induction k as [|k IH]; intros p i Hi Hk E; simpl in E.
  - injection E as <- <-. repeat split.
  - destruct (ThreadPool.get_local_task p ((index + i) mod ThreadPool.num_threads_ p))
      as [[r1 p1]|e] eqn:Eg; simpl in E; [|discriminate].
    destruct (get_local_task_frame _ _ _ _ Eg) as (Hl & Hg & Hf & Hn).
    assert (Hne : index <> (index + i) mod ThreadPool.num_threads_ p)
      by (intros Heq; symmetry in Heq; revert Heq; apply mod_shift_ne; lia).
    destruct r1 as [t|].
    + injection E as <- <-. split; [apply Hl; exact Hne|split; [exact Hg|split; [exact Hf|exact Hn]]].
    + destruct (IH p1 (S i) ltac:(lia) ltac:(lia) E) as (Hl' & Hg' & Hf' & Hn').
      split; [rewrite Hl'; apply Hl; exact Hne|].
      split; [congruence|split; congruence].
Qed.

(** X1: [remove_if(_predicate, _limit)] removes the first [min(_limit, m)]
    matching nodes, where [m] is the number of matches, and returns that
    count: the list splits into a prefix [l1] holding [min(_limit, m)]
    matches and a rest [l2], and the result is [l1] without its matches
    followed by [l2] unchanged. When [_limit] is at least [m] it leaves
    exactly the non-matching values, in their order. *)
Theorem list_remove_if_limit {T} (p : T -> bool) (limit : N) (l : list T) :
  fst (ThreadsafeList.remove_if p limit l) = Nat.min (N.to_nat limit) (length (List.filter p l)) /\
  (exists l1 l2, l = l1 ++ l2 /\
     length (List.filter p l1) = Nat.min (N.to_nat limit) (length (List.filter p l)) /\
     snd (ThreadsafeList.remove_if p limit l) = List.filter (fun x => negb (p x)) l1 ++ l2) /\
  (length (List.filter p l) <= N.to_nat limit ->
   snd (ThreadsafeList.remove_if p limit l) = List.filter (fun x => negb (p x)) l).
Proof.
  destruct (remove_if_spec p limit l) as [H1 H2].
  split; [exact H1|split; [apply remove_if_prefix|exact H2]].
Qed.

(** X2: [replace_if(_predicate, _supplier, _limit)] returns
    [min(_limit, m)] for [m] matches; when [_limit] is at least [m] every
    matching value is replaced by the supplier's value and every other value
    is kept in place. *)
Theorem list_replace_if_limit {T} (p : T -> bool) (supplier : unit -> T) (limit : N) (l : list T) :
  fst (ThreadsafeList.replace_if p supplier limit l) =
    Nat.min (N.to_nat limit) (length (List.filter p l)) /\
  (length (List.filter p l) <= N.to_nat limit ->
   snd (ThreadsafeList.replace_if p supplier limit l) =
     map (fun x => if p x then supplier tt else x) l).
Proof. apply replace_if_spec. Qed.

(** X3: [read_and_map_first_if] maps the value [find_first_if] returns;
    [write_and_map_first_if] changes nothing and returns nothing when no
    value matches, and otherwise rewrites only the first match and returns
    the mapper's result for it. *)
Theorem list_map_first_if {T R} (p : T -> bool) (mapper : T -> R) (wmapper : T -> T * R)
  (l : list T) :
  ThreadsafeList.read_and_map_first_if p mapper l =
    option_map mapper (ThreadsafeList.find_first_if p l) /\
  (ThreadsafeList.match_none p l = true ->
   ThreadsafeList.write_and_map_first_if p wmapper l = (None, l)) /\
  (forall l1 x l2, l = l1 ++ x :: l2 -> Forall (fun y => p y = false) l1 -> p x = true ->
   ThreadsafeList.write_and_map_first_if p wmapper l =
     (Some (snd (wmapper x)), l1 ++ fst (wmapper x) :: l2)).
Proof.
  split; [|split].
  - unfold ThreadsafeList.find_first_if.
    induction l as [|x r IH]; [reflexivity|]. simpl. destruct (p x); [reflexivity|exact IH].
  - unfold ThreadsafeList.match_none, ThreadsafeList.match_any.
    induction l as [|x r IH]; intros H; [reflexivity|]. simpl in *.
    destruct (p x); simpl in H; [discriminate|]. rewrite (IH H). reflexivity.
  - intros l1 x l2 -> H1 Hx. induction H1 as [|y l1 Hy _ IH]; simpl.
    + rewrite Hx. destruct (wmapper x); reflexivity.
    + rewrite Hy, IH. reflexivity.
Qed.

(** X4: [read_and_map_if] hands the inserter the mapped matching values
    front to back; [write_and_map_if] does the same with the mapper's
    results and leaves every match rewritten by the mapper, the other values
    unchanged. *)
Theorem list_map_if_in_order {T S R} (p : T -> bool) (mapper : T -> R) (wmapper : T -> T * R)
  (inserter : S -> R -> S) (l : list T) (s : S) :
  ThreadsafeList.read_and_map_if p mapper inserter l s =
    fold_left inserter (map mapper (List.filter p l)) s /\
  ThreadsafeList.write_and_map_if p wmapper inserter l s =
    (fold_left inserter (map (fun x => snd (wmapper x)) (List.filter p l)) s,
     map (fun x => if p x then fst (wmapper x) else x) l).
Proof. split; [apply read_each_map_if|apply write_each_map_if]. Qed.

(** X5: the copy constructor of [threadsafe_list] [push_front]s the values
    in the order [read_each] visits them, so the copy holds them in reverse
    order; its [size()] is the number of values of the source. *)
Theorem list_copy_reverses {T} (l : CountedList.threadsafe_list T) :
  CountedList.values (CountedList.copy_construct l) = rev (CountedList.values l) /\
  CountedList.size (CountedList.copy_construct l) = length (CountedList.values l).
Proof.
  unfold CountedList.copy_construct, ThreadsafeList.read_each, CountedList.size.
  rewrite list_copy_fold. simpl. rewrite app_nil_r. split; [reflexivity|lia].
Qed.

(** X6: on a list built by the constructors, [push_front], [remove_if],
    [replace_if] and [clear], [size()] is the number of values and
    [empty()] holds exactly when there is none. *)
Theorem list_size_counts {T} (l : CountedList.threadsafe_list T) :
  list_reachable l ->
  CountedList.size l = length (CountedList.values l) /\
  (CountedList.empty l = true <-> CountedList.values l = []).
Proof.
  intros Hr. pose proof (list_reachable_count l Hr) as Hc.
  unfold CountedList.size, CountedList.empty. rewrite Hc. split; [reflexivity|].
  rewrite Nat.eqb_eq, length_zero_iff_nil. reflexivity.
Qed.

Lemma list_size_counts_witness :
  list_reachable (CountedList.push_front 1 CountedList.new) /\
  (CountedList.size (CountedList.push_front 1 CountedList.new) =
     length (CountedList.values (CountedList.push_front 1 CountedList.new)) /\
   (CountedList.empty (CountedList.push_front 1 CountedList.new) = true <->
      CountedList.values (CountedList.push_front 1 CountedList.new) = [])).
Proof.
  assert (Hr : list_reachable (CountedList.push_front 1 CountedList.new))
    by (apply lr_push_front; apply lr_new).
  split; [exact Hr|]. apply (list_size_counts (CountedList.push_front 1 CountedList.new)).
  exact Hr.
Defined.

(** X7: on a stack built by its operations, [size()] is the number of
    nodes, [empty()] holds exactly when [try_pop] returns null, and
    [wait_and_pop] blocks (has no step) exactly when the stack is empty. *)
Theorem stack_size_empty_consistent {T} (s : ThreadsafeStack.threadsafe_stack T) :
  stack_reachable s ->
  ThreadsafeStack.size s = length (ThreadsafeStack.top_ s) /\
  (ThreadsafeStack.empty s = true <-> fst (ThreadsafeStack.try_pop s) = None) /\
  (ThreadsafeStack.wait_and_pop s = None <-> ThreadsafeStack.empty s = true).
Proof.
  intros Hr. destruct (stack_reachable_ok s Hr) as [Hn Hv].
  unfold ThreadsafeStack.size, ThreadsafeStack.empty, ThreadsafeStack.try_pop,
    ThreadsafeStack.wait_and_pop.
  rewrite Hn. split; [reflexivity|].
  destruct s as [[|v rest] n]; simpl in *; [split; split; reflexivity|].
  inversion Hv; subst. split; split; intros H; congruence.
Qed.

Lemma stack_size_empty_consistent_witness :
  stack_reachable (ThreadsafeStack.push ThreadsafeStack.new 1) /\
  (ThreadsafeStack.size (ThreadsafeStack.push ThreadsafeStack.new 1) =
     length (ThreadsafeStack.top_ (ThreadsafeStack.push ThreadsafeStack.new 1)) /\
   (ThreadsafeStack.empty (ThreadsafeStack.push ThreadsafeStack.new 1) = true <->
      fst (ThreadsafeStack.try_pop (ThreadsafeStack.push ThreadsafeStack.new 1)) = None) /\
   (ThreadsafeStack.wait_and_pop (ThreadsafeStack.push ThreadsafeStack.new 1) = None <->
      ThreadsafeStack.empty (ThreadsafeStack.push ThreadsafeStack.new 1) = true)).
Proof.
  assert (Hr : stack_reachable (ThreadsafeStack.push ThreadsafeStack.new 1))
    by (apply sr_push; apply sr_new).
  split; [exact Hr|]. apply (stack_size_empty_consistent (ThreadsafeStack.push ThreadsafeStack.new 1)).
  exact Hr.
Defined.

(** X8: on a stack built by its operations, [clear()] leaves the state of
    a new stack (no node, [num_elements_ == 0]), and the copy constructor
    succeeds (no node holds null) with the same values and count. *)
Theorem stack_clear_copy {T} (s : ThreadsafeStack.threadsafe_stack T) :
  stack_reachable s ->
  ThreadsafeStack.clear s = ThreadsafeStack.new /\ ThreadsafeStack.copy_construct s = Ok s.
Proof.
  intros Hr. destruct (stack_reachable_ok s Hr) as [Hn Hv]. split.
  - unfold ThreadsafeStack.clear. rewrite stack_pop_all_spec by lia. rewrite Hn, Nat.sub_diag.
    reflexivity.
  - unfold ThreadsafeStack.copy_construct. rewrite stack_copy_nodes_ok by exact Hv.
    destruct s; reflexivity.
Qed.

Lemma stack_clear_copy_witness :
  stack_reachable (ThreadsafeStack.push (ThreadsafeStack.push ThreadsafeStack.new 1) 2) /\
  (ThreadsafeStack.clear (ThreadsafeStack.push (ThreadsafeStack.push ThreadsafeStack.new 1) 2) =
     ThreadsafeStack.new /\
   ThreadsafeStack.copy_construct (ThreadsafeStack.push (ThreadsafeStack.push ThreadsafeStack.new 1) 2) =
     Ok (ThreadsafeStack.push (ThreadsafeStack.push ThreadsafeStack.new 1) 2)).
Proof.
  assert (Hr : stack_reachable (ThreadsafeStack.push (ThreadsafeStack.push ThreadsafeStack.new 1) 2))
    by (apply sr_push; apply sr_push; apply sr_new).
  split; [exact Hr|].
  apply (stack_clear_copy (ThreadsafeStack.push (ThreadsafeStack.push ThreadsafeStack.new 1) 2)).
  exact Hr.
Defined.

(** X9: on a queue built by its operations, the chain is the values
    followed by the dummy tail node and [size()] counts the values;
    [empty()] holds exactly when [try_pop] returns null, and [wait_and_pop]
    blocks exactly when the queue is empty. *)
Theorem queue_size_empty_consistent {T} (q : ThreadsafeQueue.threadsafe_queue T) :
  queue_reachable q ->
  (exists xs, ThreadsafeQueue.nodes q = map Some xs ++ [None] /\
              ThreadsafeQueue.size q = length xs) /\
  (ThreadsafeQueue.empty q = true <-> fst (ThreadsafeQueue.try_pop q) = None) /\
  (ThreadsafeQueue.wait_and_pop q = None <-> ThreadsafeQueue.empty q = true).
Proof.
  intros Hr. destruct (queue_reachable_holds q Hr) as [xs [Hq Hn]].
  split; [exists xs; split; assumption|].
  unfold ThreadsafeQueue.empty, ThreadsafeQueue.try_pop, ThreadsafeQueue.wait_and_pop.
  rewrite Hn. pose proof (queue_head_is_tail_iff q xs Hq) as Hht.
  destruct xs as [|x xs].
  - rewrite (proj2 Hht eq_refl). split; split; reflexivity.
  - destruct (ThreadsafeQueue.head_is_tail q) eqn:Ht;
      [pose proof (proj1 Hht eq_refl) as Hc; discriminate Hc|].
    destruct q as [nds n]. simpl in *. subst nds. simpl.
    split; split; intros H; discriminate.
Qed.

Lemma queue_size_empty_consistent_witness :
  queue_reachable (ThreadsafeQueue.push ThreadsafeQueue.new 1) /\
  ((exists xs, ThreadsafeQueue.nodes (ThreadsafeQueue.push ThreadsafeQueue.new 1) =
                 map Some xs ++ [None] /\
               ThreadsafeQueue.size (ThreadsafeQueue.push ThreadsafeQueue.new 1) = length xs) /\
   (ThreadsafeQueue.empty (ThreadsafeQueue.push ThreadsafeQueue.new 1) = true <->
      fst (ThreadsafeQueue.try_pop (ThreadsafeQueue.push ThreadsafeQueue.new 1)) = None) /\
   (ThreadsafeQueue.wait_and_pop (ThreadsafeQueue.push ThreadsafeQueue.new 1) = None <->
      ThreadsafeQueue.empty (ThreadsafeQueue.push ThreadsafeQueue.new 1) = true)).
Proof.
  assert (Hr : queue_reachable (ThreadsafeQueue.push ThreadsafeQueue.new 1))
    by (apply qr_push; apply qr_new).
  split; [exact Hr|]. apply (queue_size_empty_consistent (ThreadsafeQueue.push ThreadsafeQueue.new 1)).
  exact Hr.
Defined.

(** X10: on a queue built by its operations, [clear()] leaves the state of
    a new queue (only the dummy node, [num_elements_ == 0]), and the copy
    constructor reproduces the same chain and count. *)
Theorem queue_clear_copy {T} (q : ThreadsafeQueue.threadsafe_queue T) :
  queue_reachable q ->
  ThreadsafeQueue.clear q = ThreadsafeQueue.new /\ ThreadsafeQueue.copy_construct q = q.
Proof.
  intros Hr. destruct (queue_reachable_holds q Hr) as [xs [Hq Hn]]. split.
  - unfold ThreadsafeQueue.clear. rewrite (queue_pop_all_spec _ _ xs Hq)
      by (rewrite Hq, length_app, length_map; simpl; lia).
    rewrite Hn, Nat.sub_diag. reflexivity.
  - unfold ThreadsafeQueue.copy_construct. rewrite queue_copy_nodes_id. destruct q; reflexivity.
Qed.

Lemma queue_clear_copy_witness :
  queue_reachable (ThreadsafeQueue.push (ThreadsafeQueue.push ThreadsafeQueue.new 1) 2) /\
  (ThreadsafeQueue.clear (ThreadsafeQueue.push (ThreadsafeQueue.push ThreadsafeQueue.new 1) 2) =
     ThreadsafeQueue.new /\
   ThreadsafeQueue.copy_construct (ThreadsafeQueue.push (ThreadsafeQueue.push ThreadsafeQueue.new 1) 2) =
     ThreadsafeQueue.push (ThreadsafeQueue.push ThreadsafeQueue.new 1) 2).
Proof.
  assert (Hr : queue_reachable (ThreadsafeQueue.push (ThreadsafeQueue.push ThreadsafeQueue.new 1) 2))
    by (apply qr_push; apply qr_push; apply qr_new).
  split; [exact Hr|].
  apply (queue_clear_copy (ThreadsafeQueue.push (ThreadsafeQueue.push ThreadsafeQueue.new 1) 2)).
  exact Hr.
Defined.

(** X11: on a map with its invariant, [insert(k, v)] returns true exactly
    when [k] was absent; then [get(k)] returns [v] and [size()] grows by
    one; when [k] was present the map is left as it was. *)
Theorem hashtable_insert_result {K V : Type} `{EqDecision K} (hash : K -> nat) (N : nat)
  (t : Hashtable.threadsafe_hashtable K V) (k : K) (v : V) :
  0 < N -> ht_inv hash N t ->
  fst (Hashtable.insert hash N k v t) = negb (Hashtable.has hash N k t) /\
  (Hashtable.has hash N k t = false ->
     Hashtable.get hash N k (snd (Hashtable.insert hash N k v t)) = Some v /\
     Hashtable.size (snd (Hashtable.insert hash N k v t)) = S (Hashtable.size t)) /\
  (Hashtable.has hash N k t = true -> snd (Hashtable.insert hash N k v t) = t).
Proof. intros HN Hinv. exact (insert_spec hash N HN t k v Hinv). Qed.

Lemma hashtable_insert_result_witness :
  0 < 3 /\
  ht_inv tid_hash_id 3 (Hashtable.run_ops tid_hash_id 3 (Hashtable.new 3) [Hashtable.op_insert 1 10%Z]) /\
  (fst (Hashtable.insert tid_hash_id 3 4 20%Z
          (Hashtable.run_ops tid_hash_id 3 (Hashtable.new 3) [Hashtable.op_insert 1 10%Z])) =
     negb (Hashtable.has tid_hash_id 3 4
             (Hashtable.run_ops tid_hash_id 3 (Hashtable.new 3) [Hashtable.op_insert 1 10%Z])) /\
   (Hashtable.has tid_hash_id 3 4
      (Hashtable.run_ops tid_hash_id 3 (Hashtable.new 3) [Hashtable.op_insert 1 10%Z]) = false ->
    Hashtable.get tid_hash_id 3 4 (snd (Hashtable.insert tid_hash_id 3 4 20%Z
      (Hashtable.run_ops tid_hash_id 3 (Hashtable.new 3) [Hashtable.op_insert 1 10%Z]))) = Some 20%Z /\
    Hashtable.size (snd (Hashtable.insert tid_hash_id 3 4 20%Z
      (Hashtable.run_ops tid_hash_id 3 (Hashtable.new 3) [Hashtable.op_insert 1 10%Z]))) =
    S (Hashtable.size (Hashtable.run_ops tid_hash_id 3 (Hashtable.new 3) [Hashtable.op_insert 1 10%Z]))) /\
   (Hashtable.has tid_hash_id 3 4
      (Hashtable.run_ops tid_hash_id 3 (Hashtable.new 3) [Hashtable.op_insert 1 10%Z]) = true ->
    snd (Hashtable.insert tid_hash_id 3 4 20%Z
      (Hashtable.run_ops tid_hash_id 3 (Hashtable.new 3) [Hashtable.op_insert 1 10%Z])) =
    Hashtable.run_ops tid_hash_id 3 (Hashtable.new 3) [Hashtable.op_insert 1 10%Z])).
Proof.
  assert (Hinv : ht_inv tid_hash_id 3
                   (Hashtable.run_ops tid_hash_id 3 (Hashtable.new 3) [Hashtable.op_insert 1 10%Z]))
    by (apply ht_inv_run_ops; [lia|apply ht_inv_new]).
  split; [lia|split; [exact Hinv|]].
  apply (hashtable_insert_result tid_hash_id 3 _ 4 20%Z); [lia|exact Hinv].
Defined.

(** X12: on a map with its invariant, [remove(k)] returns whether [k] was
    present; afterwards [get(k)] is null, and [size()] drops by one exactly
    when a pair was removed. *)
Theorem hashtable_remove_result {K V : Type} `{EqDecision K} (hash : K -> nat) (N : nat)
  (t : Hashtable.threadsafe_hashtable K V) (k : K) :
  0 < N -> ht_inv hash N t ->
  fst (Hashtable.remove hash N k t) = Hashtable.has hash N k t /\
  Hashtable.get hash N k (snd (Hashtable.remove hash N k t)) = None /\
  Hashtable.size (snd (Hashtable.remove hash N k t)) =
    (if Hashtable.has hash N k t then Hashtable.size t - 1 else Hashtable.size t).
Proof. intros HN Hinv. exact (remove_spec hash N HN t k Hinv). Qed.

Lemma hashtable_remove_result_witness :
  0 < 3 /\
  (let t := Hashtable.run_ops tid_hash_id 3 (Hashtable.new 3)
              [Hashtable.op_insert 1 10%Z; Hashtable.op_insert 4 20%Z] in
   ht_inv tid_hash_id 3 t /\
   (fst (Hashtable.remove tid_hash_id 3 4 t) = Hashtable.has tid_hash_id 3 4 t /\
    Hashtable.get tid_hash_id 3 4 (snd (Hashtable.remove tid_hash_id 3 4 t)) = None /\
    Hashtable.size (snd (Hashtable.remove tid_hash_id 3 4 t)) =
      (if Hashtable.has tid_hash_id 3 4 t then Hashtable.size t - 1 else Hashtable.size t))).
Proof.
  split; [lia|]. intros t.
  assert (Hinv : ht_inv tid_hash_id 3 t) by (apply ht_inv_run_ops; [lia|apply ht_inv_new]).
  split; [exact Hinv|]. apply (hashtable_remove_result tid_hash_id 3 t 4); [lia|exact Hinv].
Defined.

(** X13: on a map with its invariant, [replace(k, v)] returns whether [k]
    was present; afterwards [get(k)] is [v] if it was and null otherwise
    (nothing is inserted), and [size()] is unchanged. *)
Theorem hashtable_replace_result {K V : Type} `{EqDecision K} (hash : K -> nat) (N : nat)
  (t : Hashtable.threadsafe_hashtable K V) (k : K) (v : V) :
  0 < N -> ht_inv hash N t ->
  fst (Hashtable.replace hash N k v t) = Hashtable.has hash N k t /\
  Hashtable.get hash N k (snd (Hashtable.replace hash N k v t)) =
    (if Hashtable.has hash N k t then Some v else None) /\
  Hashtable.size (snd (Hashtable.replace hash N k v t)) = Hashtable.size t.
Proof. intros HN Hinv. exact (replace_spec hash N HN t k v Hinv). Qed.

Lemma hashtable_replace_result_witness :
  0 < 3 /\
  (let t := Hashtable.run_ops tid_hash_id 3 (Hashtable.new 3)
              [Hashtable.op_insert 1 10%Z; Hashtable.op_insert 4 20%Z] in
   ht_inv tid_hash_id 3 t /\
   (fst (Hashtable.replace tid_hash_id 3 1 30%Z t) = Hashtable.has tid_hash_id 3 1 t /\
    Hashtable.get tid_hash_id 3 1 (snd (Hashtable.replace tid_hash_id 3 1 30%Z t)) =
      (if Hashtable.has tid_hash_id 3 1 t then Some 30%Z else None) /\
    Hashtable.size (snd (Hashtable.replace tid_hash_id 3 1 30%Z t)) = Hashtable.size t)).
Proof.
  split; [lia|]. intros t.
  assert (Hinv : ht_inv tid_hash_id 3 t) by (apply ht_inv_run_ops; [lia|apply ht_inv_new]).
  split; [exact Hinv|]. apply (hashtable_replace_result tid_hash_id 3 t 1 30%Z); [lia|exact Hinv].
Defined.

(** X14: on a map with its invariant, [insert_or_replace(k, v)] always
    returns true and leaves [get(k)] equal to [v]; [size()] grows by one
    exactly when [k] was absent. *)
Theorem hashtable_insert_or_replace_result {K V : Type} `{EqDecision K} (hash : K -> nat) (N : nat)
  (t : Hashtable.threadsafe_hashtable K V) (k : K) (v : V) :
  0 < N -> ht_inv hash N t ->
  fst (Hashtable.insert_or_replace hash N k v t) = true /\
  Hashtable.get hash N k (snd (Hashtable.insert_or_replace hash N k v t)) = Some v /\
  Hashtable.size (snd (Hashtable.insert_or_replace hash N k v t)) =
    (if Hashtable.has hash N k t then Hashtable.size t else S (Hashtable.size t)).
Proof. intros HN Hinv. exact (insert_or_replace_spec hash N HN t k v Hinv). Qed.

Lemma hashtable_insert_or_replace_result_witness :
  0 < 3 /\
  (let t := Hashtable.run_ops tid_hash_id 3 (Hashtable.new 3)
              [Hashtable.op_insert 1 10%Z; Hashtable.op_insert 4 20%Z] in
   ht_inv tid_hash_id 3 t /\
   (fst (Hashtable.insert_or_replace tid_hash_id 3 7 5%Z t) = true /\
    Hashtable.get tid_hash_id 3 7 (snd (Hashtable.insert_or_replace tid_hash_id 3 7 5%Z t)) =
      Some 5%Z /\
    Hashtable.size (snd (Hashtable.insert_or_replace tid_hash_id 3 7 5%Z t)) =
      (if Hashtable.has tid_hash_id 3 7 t then Hashtable.size t else S (Hashtable.size t)))).
Proof.
  split; [lia|]. intros t.
  assert (Hinv : ht_inv tid_hash_id 3 t) by (apply ht_inv_run_ops; [lia|apply ht_inv_new]).
  split; [exact Hinv|].
  apply (hashtable_insert_or_replace_result tid_hash_id 3 t 7 5%Z); [lia|exact Hinv].
Defined.

(** X15: on a map with its invariant, [get_or_insert(k, supplier)] returns
    the stored value and leaves the map unchanged when [k] is present;
    otherwise it stores the supplier's value under [k], returns it, and
    [size()] grows by one. *)
Theorem hashtable_get_or_insert_result {K V : Type} `{EqDecision K} (hash : K -> nat) (N : nat)
  (t : Hashtable.threadsafe_hashtable K V) (k : K) (supplier : unit -> V) :
  0 < N -> ht_inv hash N t ->
  match Hashtable.get hash N k t with
  | Some v => Hashtable.get_or_insert hash N k supplier t = (Some v, t)
  | None =>
      fst (Hashtable.get_or_insert hash N k supplier t) = Some (supplier tt) /\
      Hashtable.get hash N k (snd (Hashtable.get_or_insert hash N k supplier t)) =
        Some (supplier tt) /\
      Hashtable.size (snd (Hashtable.get_or_insert hash N k supplier t)) = S (Hashtable.size t)
  end.
Proof. intros HN Hinv. exact (get_or_insert_spec hash N HN t k supplier Hinv). Qed.

Lemma hashtable_get_or_insert_result_witness :
  0 < 3 /\
  (let t := Hashtable.run_ops tid_hash_id 3 (Hashtable.new 3)
              [Hashtable.op_insert 1 10%Z; Hashtable.op_insert 4 20%Z] in
   ht_inv tid_hash_id 3 t /\
   match Hashtable.get tid_hash_id 3 7 t with
   | Some v => Hashtable.get_or_insert tid_hash_id 3 7 (fun _ => 5%Z) t = (Some v, t)
   | None =>
       fst (Hashtable.get_or_insert tid_hash_id 3 7 (fun _ => 5%Z) t) = Some 5%Z /\
       Hashtable.get tid_hash_id 3 7 (snd (Hashtable.get_or_insert tid_hash_id 3 7 (fun _ => 5%Z) t)) =
         Some 5%Z /\
       Hashtable.size (snd (Hashtable.get_or_insert tid_hash_id 3 7 (fun _ => 5%Z) t)) =
         S (Hashtable.size t)
   end).
Proof.
  split; [lia|]. intros t.
  assert (Hinv : ht_inv tid_hash_id 3 t) by (apply ht_inv_run_ops; [lia|apply ht_inv_new]).
  split; [exact Hinv|].
  exact (hashtable_get_or_insert_result tid_hash_id 3 t 7 (fun _ => 5%Z) ltac:(lia) Hinv).
Defined.

(** X16: an operation called with key [k] ([insert], [replace],
    [insert_or_replace], [remove], [get_or_insert]) does not change what
    [get] returns for any other key, even one in the same bucket. *)
Theorem hashtable_other_keys_unchanged {K V : Type} `{EqDecision K} (hash : K -> nat) (N : nat)
  (t : Hashtable.threadsafe_hashtable K V) (o : Hashtable.operation K V) (k k' : K) :
  Hashtable.op_key o = Some k -> k <> k' ->
  Hashtable.get hash N k' (Hashtable.apply_op hash N t o) = Hashtable.get hash N k' t.
Proof. exact (get_apply_op_other_key hash N t o k k'). Qed.

Lemma hashtable_other_keys_unchanged_witness :
  Hashtable.op_key (Hashtable.op_remove (V:=Z) 1) = Some 1 /\ 1 <> 4 /\
  Hashtable.get tid_hash_id 3 4
    (Hashtable.apply_op tid_hash_id 3
       (Hashtable.run_ops tid_hash_id 3 (Hashtable.new 3)
          [Hashtable.op_insert 1 10%Z; Hashtable.op_insert 4 20%Z]) (Hashtable.op_remove 1)) =
  Hashtable.get tid_hash_id 3 4
    (Hashtable.run_ops tid_hash_id 3 (Hashtable.new 3)
       [Hashtable.op_insert 1 10%Z; Hashtable.op_insert 4 20%Z]).
Proof.
  split; [reflexivity|split; [lia|]].
  apply (hashtable_other_keys_unchanged tid_hash_id 3 _ (Hashtable.op_remove 1) 1 4);
    [reflexivity|lia].
Defined.

(** X17: on a map with its invariant, [has(k)] holds exactly when [get(k)]
    returns a non-null value. *)
Theorem hashtable_has_iff_get {K V : Type} `{EqDecision K} (hash : K -> nat) (N : nat)
  (t : Hashtable.threadsafe_hashtable K V) (k : K) :
  0 < N -> ht_inv hash N t ->
  (Hashtable.has hash N k t = true <-> Hashtable.get hash N k t <> None).
Proof. intros HN Hinv. exact (ht_has_get hash N HN t k Hinv). Qed.

Lemma hashtable_has_iff_get_witness :
  0 < 3 /\
  (let t := Hashtable.run_ops tid_hash_id 3 (Hashtable.new 3)
              [Hashtable.op_insert 1 10%Z; Hashtable.op_insert 4 20%Z] in
   ht_inv tid_hash_id 3 t /\
   (Hashtable.has tid_hash_id 3 4 t = true <-> Hashtable.get tid_hash_id 3 4 t <> None)).
Proof.
  split; [lia|]. intros t.
  assert (Hinv : ht_inv tid_hash_id 3 t) by (apply ht_inv_run_ops; [lia|apply ht_inv_new]).
  split; [exact Hinv|]. apply (hashtable_has_iff_get tid_hash_id 3 t 4); [lia|exact Hinv].
Defined.

(** X18: after [clear()], [get] returns null and [has] false for every key,
    [empty()] holds, and the map still has its buckets. *)
Theorem hashtable_clear_empties {K V : Type} `{EqDecision K} (hash : K -> nat) (N : nat)
  (t : Hashtable.threadsafe_hashtable K V) (k : K) :
  Hashtable.get hash N k (Hashtable.clear t) = None /\
  Hashtable.has hash N k (Hashtable.clear t) = false /\
  Hashtable.empty (Hashtable.clear t) = true /\
  length (Hashtable.buckets_ (Hashtable.clear t)) = length (Hashtable.buckets_ t).
Proof.
  split; [apply get_clear|split; [apply has_clear|split; [reflexivity|apply length_map]]].
Qed.

(** X19: on a map with its invariant, [empty()] holds exactly when [has]
    is false for every key. *)
Theorem hashtable_empty_iff_no_key {K V : Type} `{EqDecision K} (hash : K -> nat) (N : nat)
  (t : Hashtable.threadsafe_hashtable K V) :
  0 < N -> ht_inv hash N t ->
  (Hashtable.empty t = true <-> forall k, Hashtable.has hash N k t = false).
Proof. intros HN Hinv. exact (empty_no_key hash N HN t Hinv). Qed.

Lemma hashtable_empty_iff_no_key_witness :
  0 < 3 /\
  (let t := Hashtable.run_ops tid_hash_id 3 (Hashtable.new 3)
              [Hashtable.op_insert 1 10%Z; Hashtable.op_insert 4 20%Z] in
   ht_inv tid_hash_id 3 t /\
   (Hashtable.empty t = true <-> forall k, Hashtable.has tid_hash_id 3 k t = false)).
Proof.
  split; [lia|]. intros t.
  assert (Hinv : ht_inv tid_hash_id 3 t) by (apply ht_inv_run_ops; [lia|apply ht_inv_new]).
  split; [exact Hinv|]. apply (hashtable_empty_iff_no_key tid_hash_id 3 t); [lia|exact Hinv].
Defined.

(** X20: on a map with its invariant, [read_and_map(k, mapper)] never
    dereferences null: it returns the mapper applied to [get(k)]'s value,
    or nothing when [k] is absent. *)
Theorem hashtable_read_and_map_get {K V R : Type} `{EqDecision K} (hash : K -> nat) (N : nat)
  (t : Hashtable.threadsafe_hashtable K V) (k : K) (mapper : V -> R) :
  0 < N -> ht_inv hash N t ->
  Hashtable.read_and_map hash N k mapper t = Ok (option_map mapper (Hashtable.get hash N k t)).
Proof. intros HN Hinv. exact (read_and_map_spec hash N HN t k mapper Hinv). Qed.

Lemma hashtable_read_and_map_get_witness :
  0 < 3 /\
  (let t := Hashtable.run_ops tid_hash_id 3 (Hashtable.new 3)
              [Hashtable.op_insert 1 10%Z; Hashtable.op_insert 4 20%Z] in
   ht_inv tid_hash_id 3 t /\
   Hashtable.read_and_map tid_hash_id 3 1 Z.succ t =
     Ok (option_map Z.succ (Hashtable.get tid_hash_id 3 1 t))).
Proof.
  split; [lia|]. intros t.
  assert (Hinv : ht_inv tid_hash_id 3 t) by (apply ht_inv_run_ops; [lia|apply ht_inv_new]).
  split; [exact Hinv|]. apply (hashtable_read_and_map_get tid_hash_id 3 t 1 Z.succ); [lia|exact Hinv].
Defined.

(** X21: on a map with its invariant, [write_and_map(k, mapper)] leaves the
    map as it is and returns nothing when [k] is absent; otherwise it
    returns the mapper's result, [get(k)] then returns the value the mapper
    left, every other key keeps its value, the invariant holds and [size()]
    is unchanged. *)
Theorem hashtable_write_and_map_result {K V R : Type} `{EqDecision K} (hash : K -> nat) (N : nat)
  (t : Hashtable.threadsafe_hashtable K V) (k : K) (mapper : V -> V * R) :
  0 < N -> ht_inv hash N t ->
  match Hashtable.get hash N k t with
  | None => Hashtable.write_and_map hash N k mapper t = Ok (None, t)
  | Some v =>
      exists t', Hashtable.write_and_map hash N k mapper t = Ok (Some (snd (mapper v)), t') /\
        ht_inv hash N t' /\ Hashtable.get hash N k t' = Some (fst (mapper v)) /\
        (forall k', k <> k' -> Hashtable.get hash N k' t' = Hashtable.get hash N k' t) /\
        Hashtable.size t' = Hashtable.size t
  end.
Proof. intros HN Hinv. exact (write_and_map_spec hash N HN t k mapper Hinv). Qed.

Lemma hashtable_write_and_map_result_witness :
  0 < 3 /\
  (let t := Hashtable.run_ops tid_hash_id 3 (Hashtable.new 3)
              [Hashtable.op_insert 1 10%Z; Hashtable.op_insert 4 20%Z] in
   let m := fun v : Z => ((v * 2)%Z, v) in
   ht_inv tid_hash_id 3 t /\
   match Hashtable.get tid_hash_id 3 4 t with
   | None => Hashtable.write_and_map tid_hash_id 3 4 m t = Ok (None, t)
   | Some v =>
       exists t', Hashtable.write_and_map tid_hash_id 3 4 m t = Ok (Some (snd (m v)), t') /\
         ht_inv tid_hash_id 3 t' /\ Hashtable.get tid_hash_id 3 4 t' = Some (fst (m v)) /\
         (forall k', 4 <> k' -> Hashtable.get tid_hash_id 3 k' t' = Hashtable.get tid_hash_id 3 k' t) /\
         Hashtable.size t' = Hashtable.size t
   end).
Proof.
  split; [lia|]. intros t m.
  assert (Hinv : ht_inv tid_hash_id 3 t) by (apply ht_inv_run_ops; [lia|apply ht_inv_new]).
  split; [exact Hinv|].
  exact (hashtable_write_and_map_result tid_hash_id 3 t 4 m ltac:(lia) Hinv).
Defined.

(** X22: the copy constructor of the [mt/container] map, run on a map with
    its invariant, completes (no null is dereferenced) and gives a map with
    the invariant, the same [get] for every key and the same [size()]. *)
Theorem hashtable_copy_preserves {K V : Type} `{EqDecision K} (hash : K -> nat) (N : nat)
  (src : Hashtable.threadsafe_hashtable K V) :
  0 < N -> ht_inv hash N src ->
  exists t', Hashtable.copy_construct hash N src = Ok t' /\ ht_inv hash N t' /\
    (forall k, Hashtable.get hash N k t' = Hashtable.get hash N k src) /\
    Hashtable.size t' = Hashtable.size src.
Proof. intros HN Hinv. exact (copy_construct_spec hash N HN src Hinv). Qed.

Lemma hashtable_copy_preserves_witness :
  0 < 3 /\
  (let t := Hashtable.run_ops tid_hash_id 3 (Hashtable.new 3)
              [Hashtable.op_insert 1 10%Z; Hashtable.op_insert 4 20%Z] in
   ht_inv tid_hash_id 3 t /\
   exists t', Hashtable.copy_construct tid_hash_id 3 t = Ok t' /\ ht_inv tid_hash_id 3 t' /\
     (forall k, Hashtable.get tid_hash_id 3 k t' = Hashtable.get tid_hash_id 3 k t) /\
     Hashtable.size t' = Hashtable.size t).
Proof.
  split; [lia|]. intros t.
  assert (Hinv : ht_inv tid_hash_id 3 t) by (apply ht_inv_run_ops; [lia|apply ht_inv_new]).
  split; [exact Hinv|]. apply (hashtable_copy_preserves tid_hash_id 3 t); [lia|exact Hinv].
Defined.

(** X23: given the ids of the threads it spawns, all distinct, the
    constructor [thread_pool(n)] has [max(n, 1)] workers, one local stack
    per worker, worker [i] running the [i]-th thread, and a worker map in
    which the [i]-th thread's id gives [i], any other id gives nothing, and
    [size()] is the number of workers. *)
Theorem pool_new_worker_map (tid_hash : nat -> nat) (n : nat) (tids : list nat) :
  Nat.max n 1 <= length tids -> NoDup (firstn (Nat.max n 1) tids) ->
  ThreadPool.num_threads_ (ThreadPool.new tid_hash n tids) = Nat.max n 1 /\
  1 <= ThreadPool.num_threads_ (ThreadPool.new tid_hash n tids) /\
  length (ThreadPool.local_task_queues_ (ThreadPool.new tid_hash n tids)) = Nat.max n 1 /\
  map ThreadPool.thread_id (ThreadPool.worker_threads_ (ThreadPool.new tid_hash n tids)) =
    firstn (Nat.max n 1) tids /\
  (forall i, i < Nat.max n 1 ->
     ThreadPool.at_ tid_hash (ThreadPool.worker_index_lookup_ (ThreadPool.new tid_hash n tids))
       (nth i tids 0) = Some i) /\
  (forall tid, tid ∉ firstn (Nat.max n 1) tids ->
     ThreadPool.at_ tid_hash (ThreadPool.worker_index_lookup_ (ThreadPool.new tid_hash n tids))
       tid = None) /\
  Hashtable.size (ThreadPool.worker_index_lookup_ (ThreadPool.new tid_hash n tids)) = Nat.max n 1.
Proof.
  intros Hlen Hnd.
  destruct (pool_lookup_fold tid_hash tids (Nat.max n 1) Hlen Hnd) as (_ & Hin & Hout & Hsz).
  unfold ThreadPool.new, ThreadPool.at_. cbn [ThreadPool.num_threads_ ThreadPool.local_task_queues_
    ThreadPool.worker_threads_ ThreadPool.worker_index_lookup_].
  split; [reflexivity|split; [lia|split; [apply repeat_length|split]]].
  - rewrite map_map. apply map_nth_seq_take. exact Hlen.
  - split; [exact Hin|split; [exact Hout|exact Hsz]].
Qed.

Lemma pool_new_worker_map_witness :
  Nat.max 2 1 <= length [10; 11] /\ NoDup (firstn (Nat.max 2 1) [10; 11]) /\
  ThreadPool.at_ tid_hash_id (ThreadPool.worker_index_lookup_ example_pool) (nth 1 [10; 11] 0) =
    Some 1.
Proof.
  assert (H1 : Nat.max 2 1 <= length [10; 11]) by (simpl; lia).
  assert (H2 : NoDup (firstn (Nat.max 2 1) [10; 11])) by (apply (bool_decide_unpack _); vm_compute; reflexivity).
  split; [exact H1|split; [exact H2|]].
  exact (proj1 (proj2 (proj2 (proj2 (proj2 (pool_new_worker_map tid_hash_id 2 [10; 11] H1 H2))))) 1
           ltac:(lia)).
Defined.

(** X24: [steal_task(index)] only pops from the other workers' stacks: it
    leaves the stack of worker [index] itself, the global queue, the shared
    states and [num_threads_] as they were. *)
Theorem steal_task_spares_own_stack p index r p' :
  ThreadPool.steal_task p index = Ok (r, p') ->
  ThreadPool.local_task_queues_ p' !! index = ThreadPool.local_task_queues_ p !! index /\
  ThreadPool.global_task_queue_ p' = ThreadPool.global_task_queue_ p /\
  ThreadPool.futures_ p' = ThreadPool.futures_ p /\
  ThreadPool.num_threads_ p' = ThreadPool.num_threads_ p.
Proof.
  unfold ThreadPool.steal_task. intros E.
  destruct (Nat.eq_dec (ThreadPool.num_threads_ p) 0) as [H0|H0].
  - rewrite H0 in E. simpl in E. injection E as <- <-. repeat split.
  - apply (steal_from_frame p index 1 (ThreadPool.num_threads_ p - 1) r p'); [lia|lia|exact E].
Qed.

Lemma steal_task_spares_own_stack_witness :
  exists r p', ThreadPool.steal_task example_pool 0 = Ok (r, p') /\
    (ThreadPool.local_task_queues_ p' !! 0 = ThreadPool.local_task_queues_ example_pool !! 0 /\
     ThreadPool.global_task_queue_ p' = ThreadPool.global_task_queue_ example_pool /\
     ThreadPool.futures_ p' = ThreadPool.futures_ example_pool /\
     ThreadPool.num_threads_ p' = ThreadPool.num_threads_ example_pool).
Proof.
  do 2 eexists. split; [reflexivity|].
  eapply (steal_task_spares_own_stack example_pool 0). reflexivity.
Defined.
